(** * MyWebServer: a shallow embedding of the server's components

    The C++ sources are embedded as Rocq functions over explicit state.
    Machine integers are [Z] with their wrap-around written out, vectors
    are lists indexed through [vec_at] (an out-of-range index is a
    [Crash]), [std::unordered_map] is stdpp's [gmap], and code that can
    abort or touch invalid memory returns in the [Res] monad. *)

From Stdlib Require Import ZArith List String Ascii Bool Lia.
From stdpp Require Import base option list gmap strings pretty.

Open Scope Z_scope.

(** ** Machine integers *)

(** [size_t] on the 64-bit targets the server is built for. *)
Definition wrap_size (z : Z) : Z := z mod 2 ^ 64.

(** Conversion to (32-bit) [int]: the value modulo 2^32, read as signed. *)
Definition wrap_int (z : Z) : Z := (z + 2 ^ 31) mod 2 ^ 32 - 2 ^ 31.

Definition INT_MAX : Z := 2 ^ 31 - 1.

(** ** Results of code that can go wrong *)

Inductive Fault : Type :=
| OutOfBounds (index : Z)   (* vector indexed at or past its size *)
| AssertionFailed           (* an assert(...) of the source does not hold *)
| InvalidAddress (addr : Z) (* a pointer that maps no memory is dereferenced *)
| OutOfFuel.                (* a loop of the model ran out of fuel *)

Inductive Res (A : Type) : Type :=
| Ok (a : A)
| Crash (f : Fault).

Arguments Ok {A} a.
Arguments Crash {A} f.

Definition bind {A B : Type} (m : Res A) (k : A -> Res B) : Res B :=
  match m with
  | Ok a => k a
  | Crash f => Crash f
  end.

Notation "x <- m ;; k" := (bind m (fun x => k))
  (at level 100, m at next level, right associativity).

(** [v[i]] for a [std::vector] and a [size_t] index. *)
Definition vec_at {A : Type} (v : list A) (i : Z) : Res A :=
  if (i <? 0) || (Z.of_nat (length v) <=? i) then Crash (OutOfBounds i)
  else match v !! Z.to_nat i with
       | Some x => Ok x
       | None => Crash (OutOfBounds i)
       end.

Definition vec_size {A : Type} (v : list A) : Z := Z.of_nat (length v).

(** ** timer/heaptimer.{h,cpp} *)

Module HeapTimer.

(** [Clock::time_point] in clock periods; [high_resolution_clock] counts
    nanoseconds, so a millisecond is 10^6 periods. *)
Definition TimeStamp : Type := Z.
Definition ticks_per_ms : Z := 1000000.

(** [MS(n)] added to a time point. *)
Definition MS (n : Z) : Z := n * ticks_per_ms.

(** [std::chrono::duration_cast<MS>(d).count()]: truncation toward zero. *)
Definition duration_cast_MS (d : Z) : Z := Z.quot d ticks_per_ms.

(** [(0 - 1) / 2] in [size_t]: what [siftup_] takes for the parent of
    the root. *)
Definition PARENT_OF_ROOT : Z := 9223372036854775807.

Section Model.

(** [std::function<void()>]: an opaque action; running it is recorded. *)
Context {TimeoutCallBack : Type}.

(** The value the k-th call of [Clock::now()] returns. *)
Variable Clock_now : nat -> TimeStamp.

Record TimerNode : Type := mkTimerNode {
  id : Z;
  expires : TimeStamp;
  cb : TimeoutCallBack
}.

Record HeapTimer : Type := mkHeapTimer {
  heap_ : list TimerNode;
  ref_ : gmap Z Z
}.

Definition size (t : HeapTimer) : Z := vec_size (heap_ t).

Definition SwapNode_ (i j : Z) (t : HeapTimer) : Res HeapTimer :=
  if negb (i <? size t) then Crash AssertionFailed
  else if negb (j <? size t) then Crash AssertionFailed
  else
    ni <- vec_at (heap_ t) i ;;
    nj <- vec_at (heap_ t) j ;;
    Ok {| heap_ := <[Z.to_nat j := ni]> (<[Z.to_nat i := nj]> (heap_ t));
          ref_ := <[id ni := j]> (<[id nj := i]> (ref_ t)) |}.

(** The loop of [siftup_]; [parent] is a [size_t], so the loop test
    [parent >= 0] never fails. *)
Fixpoint siftup_loop (fuel : nat) (i parent : Z) (t : HeapTimer)
  : Res HeapTimer :=
  match fuel with
  | O => Crash OutOfFuel
  | S fuel' =>
    if 0 <=? parent then
      np <- vec_at (heap_ t) parent ;;
      ni <- vec_at (heap_ t) i ;;
      if expires np >? expires ni then
        t' <- SwapNode_ i parent t ;;
        siftup_loop fuel' parent (wrap_size (parent - 1) / 2) t'
      else Ok t
    else Ok t
  end.

Definition siftup_ (i : Z) (t : HeapTimer) : Res HeapTimer :=
  if negb (i <? size t) then Crash AssertionFailed
  else siftup_loop (S (Z.to_nat i)) i (wrap_size (i - 1) / 2) t.

Fixpoint siftdown_loop (fuel : nat) (i index child n : Z) (t : HeapTimer)
  : Res (bool * HeapTimer) :=
  match fuel with
  | O => Crash OutOfFuel
  | S fuel' =>
    if child <? n then
      child' <- (if wrap_size (child + 1) <? n then
                   r <- vec_at (heap_ t) (wrap_size (child + 1)) ;;
                   l <- vec_at (heap_ t) child ;;
                   Ok (if expires r <? expires l
                       then wrap_size (child + 1) else child)
                 else Ok child) ;;
      nc <- vec_at (heap_ t) child' ;;
      nx <- vec_at (heap_ t) index ;;
      if expires nc <? expires nx then
        t' <- SwapNode_ index child' t ;;
        siftdown_loop fuel' i child' (wrap_size (2 * child' + 1)) n t'
      else Ok (i <? index, t)
    else Ok (i <? index, t)
  end.

Definition siftdown_ (i n : Z) (t : HeapTimer) : Res (bool * HeapTimer) :=
  if negb (i <? size t) then Crash AssertionFailed
  else if negb (n <=? size t) then Crash AssertionFailed
  else siftdown_loop (S (length (heap_ t))) i i (wrap_size (2 * i + 1)) n t.

Definition del_ (index : Z) (t : HeapTimer) : Res HeapTimer :=
  if negb (index <? size t) then Crash AssertionFailed
  else
    let tmp := index in
    let n := wrap_size (size t - 1) in
    if negb (tmp <=? n) then Crash AssertionFailed
    else
      t1 <- (if index <? wrap_size (size t - 1) then
               t' <- SwapNode_ tmp (wrap_size (size t - 1)) t ;;
               r <- siftdown_ tmp n t' ;;
               if negb (fst r) then siftup_ tmp (snd r) else Ok (snd r)
             else Ok t) ;;
      match last (heap_ t1) with
      | Some back =>
          Ok {| heap_ := removelast (heap_ t1);
                ref_ := delete (id back) (ref_ t1) |}
      | None => Crash (OutOfBounds (wrap_size (-1)))
      end.

(** The timer together with what its operations do to the world: the
    callbacks run so far, and how often the clock was read. *)
Record World : Type := mkWorld {
  timer : HeapTimer;
  fired : list TimeoutCallBack;
  reads : nat
}.

Definition set_expires (e : TimeStamp) (n : TimerNode) : TimerNode :=
  {| id := id n; expires := e; cb := cb n |}.

Definition set_cb (c : TimeoutCallBack) (n : TimerNode) : TimerNode :=
  {| id := id n; expires := expires n; cb := c |}.

Definition adjust (id0 newExpires : Z) (w : World) : Res World :=
  let t := timer w in
  match heap_ t, ref_ t !! id0 with
  | _ :: _, Some idx =>
      node <- vec_at (heap_ t) idx ;;
      let e := Clock_now (reads w) + MS newExpires in
      let t1 := {| heap_ := <[Z.to_nat idx := set_expires e node]> (heap_ t);
                   ref_ := ref_ t |} in
      r <- siftdown_ idx (size t1) t1 ;;
      Ok {| timer := snd r; fired := fired w; reads := S (reads w) |}
  | _, _ => Crash AssertionFailed
  end.

Definition add (id0 timeOut : Z) (c : TimeoutCallBack) (w : World)
  : Res World :=
  let t := timer w in
  if negb (0 <=? id0) then Crash AssertionFailed
  else
    let e := Clock_now (reads w) + MS timeOut in
    match ref_ t !! id0 with
    | Some idx =>
        (* int tmp = ref_[id]; heap_[tmp] converts tmp back to size_t *)
        let tmp := wrap_size (wrap_int idx) in
        node <- vec_at (heap_ t) tmp ;;
        let t1 := {| heap_ := <[Z.to_nat tmp := set_cb c (set_expires e node)]>
                                (heap_ t);
                     ref_ := ref_ t |} in
        r <- siftdown_ tmp (size t1) t1 ;;
        t3 <- (if negb (fst r) then siftup_ tmp (snd r) else Ok (snd r)) ;;
        Ok {| timer := t3; fired := fired w; reads := S (reads w) |}
    | None =>
        let n := size t in
        let t1 := {| heap_ := heap_ t ++ [mkTimerNode id0 e c];
                     ref_ := <[id0 := n]> (ref_ t) |} in
        t2 <- siftup_ n t1 ;;
        Ok {| timer := t2; fired := fired w; reads := S (reads w) |}
    end.

Definition doWork (id0 : Z) (w : World) : Res World :=
  let t := timer w in
  match heap_ t, ref_ t !! id0 with
  | _ :: _, Some i =>
      node <- vec_at (heap_ t) i ;;
      t' <- del_ i t ;;
      Ok {| timer := t'; fired := fired w ++ [cb node]; reads := reads w |}
  | _, _ => Ok w
  end.

Definition pop (t : HeapTimer) : Res HeapTimer :=
  match heap_ t with
  | [] => Crash AssertionFailed
  | _ :: _ => del_ 0 t
  end.

Fixpoint tick_loop (fuel : nat) (w : World) : Res World :=
  match fuel with
  | O => Crash OutOfFuel
  | S fuel' =>
    match heap_ (timer w) with
    | [] => Ok w
    | node :: _ =>
        let now := Clock_now (reads w) in
        if duration_cast_MS (expires node - now) >? 0
        then Ok {| timer := timer w; fired := fired w; reads := S (reads w) |}
        else
          t' <- pop (timer w) ;;
          tick_loop fuel' {| timer := t'; fired := fired w ++ [cb node];
                             reads := S (reads w) |}
    end
  end.

Definition tick (w : World) : Res World :=
  tick_loop (S (length (heap_ (timer w)))) w.

Definition clear (t : HeapTimer) : HeapTimer :=
  {| heap_ := []; ref_ := ∅ |}.

(** [size_t res = -1; ... if(res < 0) { res = 0; } return res;] with the
    return type [int]. *)
Definition GetNextTick (w : World) : Res (Z * World) :=
  w1 <- tick w ;;
  let res := wrap_size (-1) in
  match heap_ (timer w1) with
  | [] => Ok (wrap_int res, w1)
  | front :: _ =>
      let res := wrap_size (duration_cast_MS
                              (expires front - Clock_now (reads w1))) in
      let res := if res <? 0 then 0 else res in
      Ok (wrap_int res,
          {| timer := timer w1; fired := fired w1; reads := S (reads w1) |})
  end.

(** A freshly constructed timer. *)
Definition empty_timer : HeapTimer := {| heap_ := []; ref_ := ∅ |}.

Definition new_world : World :=
  {| timer := empty_timer; fired := []; reads := O |}.

(** The calls a client of the timer makes. *)
Inductive Op : Type :=
| OpAdd (id0 timeOut : Z) (c : TimeoutCallBack)
| OpAdjust (id0 newExpires : Z)
| OpDoWork (id0 : Z)
| OpTick.

Definition step (o : Op) (w : World) : Res World :=
  match o with
  | OpAdd id0 timeOut c => add id0 timeOut c w
  | OpAdjust id0 newExpires => adjust id0 newExpires w
  | OpDoWork id0 => doWork id0 w
  | OpTick => tick w
  end.

Fixpoint run (ops : list Op) (w : World) : Res World :=
  match ops with
  | [] => Ok w
  | o :: ops' => w' <- step o w ;; run ops' w'
  end.

End Model.

Arguments TimerNode : clear implicits.
Arguments HeapTimer : clear implicits.
Arguments World : clear implicits.
Arguments Op : clear implicits.

(** The properties the timer is meant to keep. *)

Section Invariant.

Context {TimeoutCallBack : Type}.
Variable Clock_now : nat -> TimeStamp.

Implicit Type t : HeapTimer TimeoutCallBack.
Implicit Type h : list (TimerNode TimeoutCallBack).
Implicit Type w : World TimeoutCallBack.

(** The position above [i], for [0 < i]. *)
Definition parent (i : Z) : Z := (i - 1) / 2.

(** The deadline stored at position [i]. *)
Definition deadline h (i : Z) : Z :=
  match h !! Z.to_nat i with Some x => expires x | None => 0 end.

(** No node among the first [n] is due before the node above it. *)
Definition heap_ordered (n : Z) h : Prop :=
  forall i : Z, 0 < i < n -> deadline h (parent i) <= deadline h i.

(** [ref_] holds exactly the pairs (id, position) of the nodes stored. *)
Definition ref_exact t : Prop :=
  forall k i : Z,
    ref_ t !! k = Some i
    <-> 0 <= i < size t /\ id <$> (heap_ t !! Z.to_nat i) = Some k.

(** The vector after [swap(heap_[i], heap_[j])]. *)
Definition swapped h (i j : Z) (ni nj : TimerNode TimeoutCallBack) :=
  <[Z.to_nat j := ni]> (<[Z.to_nat i := nj]> h).

(** Order among the first [n] nodes with a hole at [k]: every edge holds
    that has [k] at neither end, and the nodes below [k] are not earlier
    than the node above it. *)
Definition hole (n k : Z) h : Prop :=
  (forall j : Z, 0 < j < n -> j <> k -> parent j <> k ->
                 deadline h (parent j) <= deadline h j)
  /\ (forall c : Z, 0 < c < n -> parent c = k -> 0 < k ->
                    deadline h (parent k) <= deadline h c).

(** Every edge among the first [n] nodes holds but the one above [k]. *)
Definition up_hole (n k : Z) h : Prop :=
  (forall j : Z, 0 < j < n -> j <> k -> deadline h (parent j) <= deadline h j)
  /\ (forall c : Z, 0 < c < n -> parent c = k -> 0 < k ->
                    deadline h (parent k) <= deadline h c).

(** The node the timer holds for id [k]: the one [ref_] points at. *)
Definition node_of t (k : Z) : option (TimerNode TimeoutCallBack) :=
  ref_ t !! k ≫= fun i => heap_ t !! Z.to_nat i.

(** [t'] stores the nodes [t] stores. *)
Definition same_nodes t t' : Prop :=
  forall n : TimerNode TimeoutCallBack, n ∈ heap_ t' <-> n ∈ heap_ t.

(** [add] keeps a position in an [int]: the heap is taken to hold fewer
    than 2^31 nodes. *)
Definition SIZE_BOUND : Z := 2 ^ 31.

(** The timer's invariant: the vector is a min-heap on the deadlines,
    and [ref_] maps exactly the ids stored to their positions. *)
Definition inv t : Prop := heap_ordered (size t) (heap_ t) /\ ref_exact t.

(** The invariant as a test that runs. *)
Definition heap_ordered_b h : bool :=
  forallb (fun i : nat =>
             deadline h (parent (Z.of_nat i)) <=? deadline h (Z.of_nat i))
    (seq 1 (length h - 1)).

Definition ref_exact_b t : bool :=
  forallb (fun i : nat =>
             match heap_ t !! i with
             | Some n => bool_decide (ref_ t !! id n = Some (Z.of_nat i))
             | None => false
             end)
    (seq 0 (length (heap_ t)))
  && forallb (fun ki : Z * Z =>
                (0 <=? snd ki) && (snd ki <? size t)
                && bool_decide (id <$> heap_ t !! Z.to_nat (snd ki)
                                = Some (fst ki)))
       (map_to_list (ref_ t)).

Definition inv_b t : bool := heap_ordered_b (heap_ t) && ref_exact_b t.

(** [adjust(id0, newExpires)] called in [w] gives the node a deadline no
    earlier than the one it has. *)
Definition extends (id0 newExpires : Z) w : Prop :=
  forall (idx : Z) (node : TimerNode TimeoutCallBack),
    ref_ (timer w) !! id0 = Some idx ->
    heap_ (timer w) !! Z.to_nat idx = Some node ->
    expires node <= Clock_now (reads w) + MS newExpires.

(** Every [adjust] of the run extends its node's deadline. *)
Fixpoint adjusts_extend (ops : list (Op TimeoutCallBack)) w : Prop :=
  match ops with
  | [] => True
  | o :: ops' =>
      match o with
      | OpAdjust id0 newExpires => extends id0 newExpires w
      | _ => True
      end
      /\ forall w', step Clock_now o w = Ok w' -> adjusts_extend ops' w'
  end.

End Invariant.

End HeapTimer.

(** ** timer/heaptimer.cpp, past the read before the vector

    [heap_[parent]] in [siftup_] is [std::vector::operator[]], which does
    not check its index. At the root [parent] is [(0 - 1) / 2], and the
    element read lies one element before the vector's buffer (the offset
    wraps round in 64 bits): memory the vector does not own. [HeapTimer]
    above follows a run up to that read. The functions here follow it
    past the read, given what the read finds; they are the functions of
    the source again, and everything [siftup_] does not reach is taken
    from [HeapTimer]. *)

Module StrayRead.

Import HeapTimer.

Section Model.

Context {TimeoutCallBack : Type}.

Variable Clock_now : nat -> TimeStamp.

(** What a read of [heap_[i].expires] outside the vector finds, in the
    state of the world in which it is made: [Some e] when the memory
    there holds [e], [None] when the read itself faults. No two such
    reads of a run are made in the same world: between them the clock
    is read or a callback runs. *)
Variable Stray : World TimeoutCallBack -> option TimeStamp.

(** [heap_[i].expires]. *)
Definition expires_at (stray : option TimeStamp)
  (h : list (TimerNode TimeoutCallBack)) (i : Z) : Res TimeStamp :=
  match vec_at h i with
  | Ok n => Ok (expires n)
  | Crash f =>
      match stray with
      | Some e => Ok e
      | None => Crash f
      end
  end.

(** The loop of [siftup_]; [parent] is a [size_t], so the loop test
    [parent >= 0] never fails. [SwapNode_] asserts that both indices
    are in the vector. *)
Fixpoint siftup_loop (stray : option TimeStamp) (fuel : nat) (i parent : Z)
  (t : HeapTimer TimeoutCallBack) : Res (HeapTimer TimeoutCallBack) :=
  match fuel with
  | O => Crash OutOfFuel
  | S fuel' =>
    if 0 <=? parent then
      ep <- expires_at stray (heap_ t) parent ;;
      ni <- vec_at (heap_ t) i ;;
      if ep >? expires ni then
        t' <- SwapNode_ i parent t ;;
        siftup_loop stray fuel' parent (wrap_size (parent - 1) / 2) t'
      else Ok t
    else Ok t
  end.

Definition siftup_ (stray : option TimeStamp) (i : Z)
  (t : HeapTimer TimeoutCallBack) : Res (HeapTimer TimeoutCallBack) :=
  if negb (i <? size t) then Crash AssertionFailed
  else siftup_loop stray (S (Z.to_nat i)) i (wrap_size (i - 1) / 2) t.

Definition del_ (stray : option TimeStamp) (index : Z)
  (t : HeapTimer TimeoutCallBack) : Res (HeapTimer TimeoutCallBack) :=
  if negb (index <? size t) then Crash AssertionFailed
  else
    let tmp := index in
    let n := wrap_size (size t - 1) in
    if negb (tmp <=? n) then Crash AssertionFailed
    else
      t1 <- (if index <? wrap_size (size t - 1) then
               t' <- SwapNode_ tmp (wrap_size (size t - 1)) t ;;
               r <- siftdown_ tmp n t' ;;
               if negb (fst r) then siftup_ stray tmp (snd r)
               else Ok (snd r)
             else Ok t) ;;
      match last (heap_ t1) with
      | Some back =>
          Ok {| heap_ := removelast (heap_ t1);
                ref_ := delete (id back) (ref_ t1) |}
      | None => Crash (OutOfBounds (wrap_size (-1)))
      end.

Definition add (id0 timeOut : Z) (c : TimeoutCallBack)
  (w : World TimeoutCallBack) : Res (World TimeoutCallBack) :=
  let t := timer w in
  if negb (0 <=? id0) then Crash AssertionFailed
  else
    let e := Clock_now (reads w) + MS timeOut in
    match ref_ t !! id0 with
    | Some idx =>
        (* int tmp = ref_[id]; heap_[tmp] converts tmp back to size_t *)
        let tmp := wrap_size (wrap_int idx) in
        node <- vec_at (heap_ t) tmp ;;
        let t1 := {| heap_ := <[Z.to_nat tmp := set_cb c (set_expires e node)]>
                                (heap_ t);
                     ref_ := ref_ t |} in
        r <- siftdown_ tmp (size t1) t1 ;;
        t3 <- (if negb (fst r) then siftup_ (Stray w) tmp (snd r)
               else Ok (snd r)) ;;
        Ok {| timer := t3; fired := fired w; reads := S (reads w) |}
    | None =>
        let n := size t in
        let t1 := {| heap_ := heap_ t ++ [mkTimerNode id0 e c];
                     ref_ := <[id0 := n]> (ref_ t) |} in
        t2 <- siftup_ (Stray w) n t1 ;;
        Ok {| timer := t2; fired := fired w; reads := S (reads w) |}
    end.

Definition doWork (id0 : Z) (w : World TimeoutCallBack)
  : Res (World TimeoutCallBack) :=
  let t := timer w in
  match heap_ t, ref_ t !! id0 with
  | _ :: _, Some i =>
      node <- vec_at (heap_ t) i ;;
      t' <- del_ (Stray w) i t ;;
      Ok {| timer := t'; fired := fired w ++ [cb node]; reads := reads w |}
  | _, _ => Ok w
  end.

Definition pop (stray : option TimeStamp) (t : HeapTimer TimeoutCallBack)
  : Res (HeapTimer TimeoutCallBack) :=
  match heap_ t with
  | [] => Crash AssertionFailed
  | _ :: _ => del_ stray 0 t
  end.

Fixpoint tick_loop (fuel : nat) (w : World TimeoutCallBack)
  : Res (World TimeoutCallBack) :=
  match fuel with
  | O => Crash OutOfFuel
  | S fuel' =>
    match heap_ (timer w) with
    | [] => Ok w
    | node :: _ =>
        let now := Clock_now (reads w) in
        if duration_cast_MS (expires node - now) >? 0
        then Ok {| timer := timer w; fired := fired w; reads := S (reads w) |}
        else
          t' <- pop (Stray w) (timer w) ;;
          tick_loop fuel' {| timer := t'; fired := fired w ++ [cb node];
                             reads := S (reads w) |}
    end
  end.

Definition tick (w : World TimeoutCallBack) : Res (World TimeoutCallBack) :=
  tick_loop (S (length (heap_ (timer w)))) w.

Definition step (o : Op TimeoutCallBack) (w : World TimeoutCallBack)
  : Res (World TimeoutCallBack) :=
  match o with
  | OpAdd id0 timeOut c => add id0 timeOut c w
  | OpAdjust id0 newExpires => adjust Clock_now id0 newExpires w
  | OpDoWork id0 => doWork id0 w
  | OpTick => tick w
  end.

Fixpoint run (ops : list (Op TimeoutCallBack)) (w : World TimeoutCallBack)
  : Res (World TimeoutCallBack) :=
  match ops with
  | [] => Ok w
  | o :: ops' => w' <- step o w ;; run ops' w'
  end.

(** Every [adjust] of the run extends its node's deadline. *)
Fixpoint adjusts_extend (ops : list (Op TimeoutCallBack))
  (w : World TimeoutCallBack) : Prop :=
  match ops with
  | [] => True
  | o :: ops' =>
      match o with
      | OpAdjust id0 newExpires => extends Clock_now id0 newExpires w
      | _ => True
      end
      /\ forall w', step o w = Ok w' -> adjusts_extend ops' w'
  end.

End Model.

End StrayRead.

(** ** log/blockqueue.h *)

Module BlockQueue.

(** What [std::condition_variable::wait_for] reports. *)
Inductive cv_status : Type := no_timeout | timeout.

Section Model.

Context {T : Type}.

Record BlockQueue : Type := mkBlockQueue {
  deq_ : list T;
  isClose_ : bool;
  capacity_ : Z
}.

Definition clear (q : BlockQueue) : BlockQueue :=
  {| deq_ := []; isClose_ := isClose_ q; capacity_ := capacity_ q |}.

(** [clear(); isClose_ = true;] and both condition variables notified:
    every thread asleep in a [wait] of this queue is woken. *)
Definition Close (q : BlockQueue) : BlockQueue :=
  let q1 := clear q in
  {| deq_ := deq_ q1; isClose_ := true; capacity_ := capacity_ q1 |}.

Definition empty (q : BlockQueue) : bool :=
  match deq_ q with [] => true | _ :: _ => false end.

Definition full (q : BlockQueue) : bool := capacity_ q <=? vec_size (deq_ q).

(** A call either comes back with its return value (and the item it
    stored through the reference), or gives the lock back and sleeps on
    its condition variable. *)
Inductive Outcome : Type :=
| Returned (ret : bool) (item : option T)
| Blocked.

(** [push_back]: from the loop test on. *)
Definition push_back (x : T) (q : BlockQueue) : BlockQueue * Outcome :=
  if capacity_ q <=? vec_size (deq_ q) then (q, Blocked)
  else ({| deq_ := deq_ q ++ [x]; isClose_ := isClose_ q;
           capacity_ := capacity_ q |}, Returned true None).

(** [pop(T& item)]: the code from the test of [while(deq_.empty())] on.
    A caller enters here with the lock, and a sleeper re-enters here
    each time [condConsumer_.wait] returns. *)
Definition pop (q : BlockQueue) : BlockQueue * Outcome :=
  match deq_ q with
  | [] => (q, Blocked)
  | x :: d =>
      ({| deq_ := d; isClose_ := isClose_ q; capacity_ := capacity_ q |},
       Returned true (Some x))
  end.

(** [pop(T& item, int timeout)]: entry, at the loop test. *)
Definition pop_timed (q : BlockQueue) : BlockQueue * Outcome :=
  match deq_ q with
  | [] => (q, Blocked)
  | x :: d =>
      ({| deq_ := d; isClose_ := isClose_ q; capacity_ := capacity_ q |},
       Returned true (Some x))
  end.

(** [pop(T& item, int timeout)]: [wait_for] has returned [st]. *)
Definition pop_timed_wake (st : cv_status) (q : BlockQueue)
  : BlockQueue * Outcome :=
  match st with
  | timeout => (q, Returned false None)
  | no_timeout =>
      if isClose_ q then (q, Returned false None) else pop_timed q
  end.

(** A consumer asleep in the untimed [pop] that is woken [n] times while
    no other thread touches the queue. *)
Fixpoint pop_woken (n : nat) (q : BlockQueue) : BlockQueue * Outcome :=
  match n with
  | O => (q, Blocked)
  | S k =>
      match pop q with
      | (q', Blocked) => pop_woken k q'
      | done => done
      end
  end.

(** [BlockQueue(size_t maxsize)]: [assert(maxsize > 0)], the queue open
    and empty. *)
Definition new_queue (maxsize : Z) : Res BlockQueue :=
  if negb (0 <? maxsize) then Crash AssertionFailed
  else Ok {| deq_ := []; isClose_ := false; capacity_ := maxsize |}.

(** [push_front]: from the loop test on. *)
Definition push_front (x : T) (q : BlockQueue) : BlockQueue * Outcome :=
  if capacity_ q <=? vec_size (deq_ q) then (q, Blocked)
  else ({| deq_ := x :: deq_ q; isClose_ := isClose_ q;
           capacity_ := capacity_ q |}, Returned true None).

Definition capacity (q : BlockQueue) : Z := capacity_ q.

Definition size (q : BlockQueue) : Z := vec_size (deq_ q).

(** [flush] only notifies a consumer. *)
Definition flush (q : BlockQueue) : BlockQueue := q.

(** The calls threads make on the queue, each taken from where it holds
    the lock: a call that finds it has to wait leaves the queue as it
    is, and comes again as another call when it is woken. *)
Inductive Op : Type :=
| OpPushBack (x : T)
| OpPushFront (x : T)
| OpPop
| OpPopTimed
| OpPopTimedWake (st : cv_status)
| OpClear
| OpFlush
| OpClose.

Definition step (o : Op) (q : BlockQueue) : BlockQueue :=
  match o with
  | OpPushBack x => fst (push_back x q)
  | OpPushFront x => fst (push_front x q)
  | OpPop => fst (pop q)
  | OpPopTimed => fst (pop_timed q)
  | OpPopTimedWake st => fst (pop_timed_wake st q)
  | OpClear => clear q
  | OpFlush => flush q
  | OpClose => Close q
  end.

Definition run (ops : list Op) (q : BlockQueue) : BlockQueue :=
  foldl (fun q o => step o q) q ops.

(** A producer that calls [push_back] for each item of [xs] in turn, and
    stops at the first call that has to wait: the queue, and the items
    not yet pushed. *)
Fixpoint push_back_all (xs : list T) (q : BlockQueue)
  : BlockQueue * list T :=
  match xs with
  | [] => (q, [])
  | x :: xs' =>
      match push_back x q with
      | (q', Returned _ _) => push_back_all xs' q'
      | (q', Blocked) => (q', xs)
      end
  end.

(** A consumer that calls [pop] up to [n] times, and stops at the first
    call that has to wait: the items it got, and the queue. *)
Fixpoint pop_all (n : nat) (q : BlockQueue) : list T * BlockQueue :=
  match n with
  | O => ([], q)
  | S k =>
      match pop q with
      | (q', Returned _ (Some x)) =>
          let '(xs, q'') := pop_all k q' in (x :: xs, q'')
      | (q', _) => ([], q')
      end
  end.

End Model.

Arguments BlockQueue : clear implicits.
Arguments Outcome : clear implicits.
Arguments Op : clear implicits.

End BlockQueue.

(** ** pool/threadpool.h *)

Module ThreadPool.

Section Model.

(** [std::function<void()>]: an opaque action; running it is recorded.
    The tasks the server queues ([OnRead_], [OnWrite_]) do not touch the
    pool. *)
Context {Task : Type}.

(** [struct Pool], the state the worker threads share under [mtx_]. *)
Record Pool : Type := mkPool {
  isClosed : bool;
  tasks : list Task
}.

(** The pool as [ThreadPool(int threadCount)] makes it:
    [assert(threadCount > 0)], [make_shared<Pool>()] value-initialised. *)
Definition new_pool (threadCount : Z) : Res Pool :=
  if negb (0 <? threadCount) then Crash AssertionFailed
  else Ok {| isClosed := false; tasks := [] |}.

(** [AddTask]: [tasks.emplace(task)], and one waiting worker notified. *)
Definition AddTask (task : Task) (p : Pool) : Pool :=
  {| isClosed := isClosed p; tasks := tasks p ++ [task] |}.

(** What a worker does in one turn of its [while(true)], holding the
    lock at the test: it takes the front task and runs it, or leaves the
    loop, or waits on [cond_]. *)
Inductive Turn : Type :=
| Ran (task : Task)
| Exit
| Wait.

Definition worker_turn (p : Pool) : Pool * Turn :=
  match tasks p with
  | task :: rest => ({| isClosed := isClosed p; tasks := rest |}, Ran task)
  | [] => if isClosed p then (p, Exit) else (p, Wait)
  end.

(** A worker alone with the pool, for up to [fuel] turns: the tasks it
    ran, in order, the pool it leaves, and how it stopped ([None] when
    the turns ran out). *)
Fixpoint worker_run (fuel : nat) (p : Pool)
  : list Task * Pool * option Turn :=
  match fuel with
  | O => ([], p, None)
  | S fuel' =>
      match worker_turn p with
      | (p', Ran task) =>
          let '(ran, p'', stop) := worker_run fuel' p' in
          (task :: ran, p'', stop)
      | (p', stop) => ([], p', Some stop)
      end
  end.

End Model.

Arguments Pool : clear implicits.
Arguments Turn : clear implicits.

End ThreadPool.

(** ** log/log.cpp *)

Module Log.

(** The members of [Log] its constructor, [init] and its destructor
    use. [fp_] is the open log file ([None] is [nullptr]), [deque_] the
    queue of the asynchronous mode, [writeThread_] whether the writer
    thread has been started. The members the constructor leaves unset
    are read as zero. *)
Record Log : Type := mkLog {
  fp_ : option Z;
  deque_ : option (BlockQueue.BlockQueue string);
  writeThread_ : bool;
  lineCount_ : Z;
  toDay_ : Z;
  isAsync_ : bool;
  isOpen_ : bool;
  level_ : Z
}.

(** [Log::Log()]. *)
Definition new_log : Log :=
  {| fp_ := None; deque_ := None; writeThread_ := false; lineCount_ := 0;
     toDay_ := 0; isAsync_ := false; isOpen_ := false; level_ := 0 |}.

(** [init(level, path, suffix, maxQueCapacity)]; [mday] is the day of
    the month [localtime] gives, [fopen1] what [fopen] returns, and
    [fopen2] what it returns when called again after [mkdir]. The queue
    is made by [new BlockQueue<std::string>], with the default
    [maxsize] of 1000. *)
Definition init (level maxQueCapacity mday : Z) (fopen1 fopen2 : option Z)
  (l : Log) : Res Log :=
  let '(async, dq, wt) :=
    if negb (maxQueCapacity =? 0) then
      match deque_ l with
      | None => (true, Some (BlockQueue.mkBlockQueue [] false 1000), true)
      | Some q => (true, Some q, writeThread_ l)
      end
    else (false, deque_ l, writeThread_ l) in
  let fp := match fopen1 with Some f => Some f | None => fopen2 end in
  match fp with
  | None => Crash AssertionFailed
  | Some f =>
      Ok {| fp_ := Some f; deque_ := dq; writeThread_ := wt; lineCount_ := 0;
            toDay_ := mday; isAsync_ := async; isOpen_ := true;
            level_ := level |}
  end.

(** How a call ends that may not come back. *)
Inductive Ending : Type :=
| Faults (f : Fault)
| Hangs
| Completes.

(** [Log::~Log()]: [while(!deque_->empty()) deque_->flush();] is left
    with the queue empty, [deque_->Close()] wakes the writer thread, and
    [writeThread_->join()] waits for it to leave
    [while(deque_->pop(str))] in [AsyncWrite_]. The writer is woken
    [wakeups] times, and no other thread logs meanwhile. *)
Definition destroy (wakeups : nat) (l : Log) : Ending :=
  match deque_ l with
  | None => Faults (InvalidAddress 0)
  | Some q =>
      (* the queue as the loop leaves it: the writer has taken every line *)
      let q0 : BlockQueue.BlockQueue string :=
        {| BlockQueue.deq_ := [];
           BlockQueue.isClose_ := BlockQueue.isClose_ q;
           BlockQueue.capacity_ := BlockQueue.capacity_ q |} in
      let q1 := BlockQueue.Close q0 in
      match snd (BlockQueue.pop_woken wakeups q1) with
      | BlockQueue.Blocked => Hangs
      | BlockQueue.Returned false _ => Completes
      | BlockQueue.Returned true _ =>
          (* not reached: the queue is empty and nobody logs *)
          Hangs
      end
  end.

End Log.

(** ** buffer/buffer.{h,cpp} *)

Module Buffer.

(** Modelled from the spec: the byte buffer, whose sources (buffer.h,
    buffer.cpp) are not in the repository's files. "An ordered sequence
    of octets with two cursors read <= write <= capacity. Readable region
    = [read, write), writable region = [write, capacity)." *)
Record Buffer : Type := mkBuffer {
  buffer_ : list ascii;
  readPos_ : Z;
  writePos_ : Z
}.

Definition capacity (b : Buffer) : Z := vec_size (buffer_ b).

Definition ReadableBytes (b : Buffer) : Z := writePos_ b - readPos_ b.

Definition WritableBytes (b : Buffer) : Z := capacity b - writePos_ b.

(** The octets of the readable region. *)
Definition readable (b : Buffer) : list ascii :=
  take (Z.to_nat (ReadableBytes b)) (drop (Z.to_nat (readPos_ b)) (buffer_ b)).

(** [Peek()]: where the readable region starts, as an offset from the
    start of the storage. *)
Definition Peek (b : Buffer) : Z := readPos_ b.

(** "consume N" *)
Definition Retrieve (len : Z) (b : Buffer) : Buffer :=
  {| buffer_ := buffer_ b; readPos_ := readPos_ b + len;
     writePos_ := writePos_ b |}.

(** "consume-all" *)
Definition RetrieveAll (b : Buffer) : Buffer :=
  {| buffer_ := buffer_ b; readPos_ := 0; writePos_ := 0 |}.

(** "first compact by shifting [read, write) to index 0" *)
Definition compact (b : Buffer) : Buffer :=
  {| buffer_ := readable b
                ++ drop (Z.to_nat (ReadableBytes b)) (buffer_ b);
     readPos_ := 0;
     writePos_ := ReadableBytes b |}.

(** "if still insufficient, resize to at least write + N" *)
Definition resize (n : Z) (b : Buffer) : Buffer :=
  {| buffer_ := buffer_ b
                ++ repeat zero (Z.to_nat (n - capacity b));
     readPos_ := readPos_ b;
     writePos_ := writePos_ b |}.

Definition EnsureWriteable (n : Z) (b : Buffer) : Buffer :=
  if n <=? WritableBytes b then b
  else
    let b1 := compact b in
    if n <=? WritableBytes b1 then b1 else resize (writePos_ b1 + n) b1.

(** "append bytes" *)
Definition Append (data : list ascii) (b : Buffer) : Buffer :=
  let n := vec_size data in
  let b1 := EnsureWriteable n b in
  {| buffer_ := take (Z.to_nat (writePos_ b1)) (buffer_ b1) ++ data
                ++ drop (Z.to_nat (writePos_ b1 + n)) (buffer_ b1);
     readPos_ := readPos_ b1;
     writePos_ := writePos_ b1 + n |}.

Definition AppendStr (s : string) (b : Buffer) : Buffer :=
  Append (list_ascii_of_string s) b.

(** A buffer as its constructor leaves it (1024 octets, both cursors 0). *)
Definition new_buffer : Buffer :=
  {| buffer_ := repeat zero 1024; readPos_ := 0; writePos_ := 0 |}.

(** The cursors are in order and inside the storage. *)
Definition wf (b : Buffer) : Prop :=
  0 <= readPos_ b /\ readPos_ b <= writePos_ b /\ writePos_ b <= capacity b.

End Buffer.

(** ** Strings *)

Definition CR : ascii := ascii_of_nat 13.
Definition LF : ascii := ascii_of_nat 10.
Definition CRLF : string := String CR (String LF EmptyString).
Definition DQUOTE : string := String (ascii_of_nat 34) EmptyString.

Definition str (l : list ascii) : string := string_of_list_ascii l.
Definition bytes (s : string) : list ascii := list_ascii_of_string s.

(** [std::to_string] of an integer. *)
Definition to_string (z : Z) : string := pretty z.

(** [s] up to the first [c], and what follows that [c]. *)
Fixpoint split_at (c : ascii) (s : list ascii)
  : option (list ascii * list ascii) :=
  match s with
  | [] => None
  | x :: tl =>
      if Ascii.eqb x c then Some ([], tl)
      else match split_at c tl with
           | Some (l, r) => Some (x :: l, r)
           | None => None
           end
  end.

(** [s] cut at every [c]. *)
Fixpoint split_on (c : ascii) (s : list ascii) : list (list ascii) :=
  match s with
  | [] => [[]]
  | x :: tl =>
      match split_on c tl with
      | [] => [[x]]
      | cur :: more => if Ascii.eqb x c then [] :: cur :: more
                       else (x :: cur) :: more
      end
  end.

Fixpoint strip_prefix (p s : list ascii) : option (list ascii) :=
  match p, s with
  | [], _ => Some s
  | a :: p', b :: s' => if Ascii.eqb a b then strip_prefix p' s' else None
  | _ :: _, [] => None
  end.

Definition has_char (c : ascii) (s : list ascii) : bool :=
  existsb (Ascii.eqb c) s.

(** The first line of [buf] that a CRLF ends, and what follows the CRLF. *)
Fixpoint read_line (buf : list ascii) : option (list ascii * list ascii) :=
  match buf with
  | [] => None
  | c :: tl =>
      match tl with
      | d :: rest =>
          if Ascii.eqb c CR && Ascii.eqb d LF then Some ([], rest)
          else match read_line tl with
               | Some (l, r) => Some (c :: l, r)
               | None => None
               end
      | [] => None
      end
  end.

Definition digit_val (c : ascii) : option Z :=
  let n := Z.of_nat (nat_of_ascii c) in
  if (48 <=? n) && (n <=? 57) then Some (n - 48) else None.

Definition hex_val (c : ascii) : option Z :=
  let n := Z.of_nat (nat_of_ascii c) in
  if (48 <=? n) && (n <=? 57) then Some (n - 48)
  else if (65 <=? n) && (n <=? 70) then Some (n - 65 + 10)
  else if (97 <=? n) && (n <=? 102) then Some (n - 97 + 10)
  else None.

(** The decimal number [s] spells; 0 when it spells none. *)
Definition parse_decimal (s : list ascii) : Z :=
  match s with
  | [] => 0
  | _ :: _ =>
      match fold_left (fun acc c =>
                         match acc, digit_val c with
                         | Some a, Some d => Some (10 * a + d)
                         | _, _ => None
                         end) s (Some 0) with
      | Some n => n
      | None => 0
      end
  end.

(** ** http/httprequest.{h,cpp} *)

Module HttpRequest.

Inductive PARSE_STATE : Type := REQUEST_LINE | HEADERS | BODY | FINISH.

Record HttpRequest : Type := mkHttpRequest {
  state_ : PARSE_STATE;
  method_ : string;
  path_ : string;
  version_ : string;
  body_ : string;
  header_ : gmap string string;
  post_ : gmap string string
}.

(** Modelled from the spec: [HttpRequest::Init], whose body
    (httprequest.cpp) is not in the repository's files. The constructor
    is [HttpRequest() { Init(); }] and "`process` initializes the parser":
    the state machine is back at the request line with nothing
    accumulated. *)
Definition Init (r : HttpRequest) : HttpRequest :=
  {| state_ := REQUEST_LINE; method_ := ""; path_ := ""; version_ := "";
     body_ := ""; header_ := ∅; post_ := ∅ |}.

Definition path (r : HttpRequest) : string := path_ r.

(** Modelled from the spec: [IsKeepAlive], body not in the files.
    "`Connection` (`keep-alive` or `close`)". *)
Definition IsKeepAlive (r : HttpRequest) : bool :=
  match header_ r !! "Connection"%string with
  | Some v => String.eqb v "keep-alive"
  | None => false
  end.

(** How one call of [parse] stops. *)
Inductive Outcome : Type :=
| Finished     (* the state machine reached FINISH *)
| NeedMore     (* no complete line (or body) left in the buffer *)
| BadRequest.  (* a line does not have the form its state asks for *)

Section Parser.

(** The "default HTML set" of recognized page tags and the database
    lookup behind [UserVerify] are constants of httprequest.cpp and an
    external collaborator; the parser is read for any of them. *)
Variable DEFAULT_HTML : list string.
Variable UserVerify : string -> string -> bool -> bool.

Definition set_state (s : PARSE_STATE) (r : HttpRequest) : HttpRequest :=
  {| state_ := s; method_ := method_ r; path_ := path_ r;
     version_ := version_ r; body_ := body_ r; header_ := header_ r;
     post_ := post_ r |}.

Definition set_path (p : string) (r : HttpRequest) : HttpRequest :=
  {| state_ := state_ r; method_ := method_ r; path_ := p;
     version_ := version_ r; body_ := body_ r; header_ := header_ r;
     post_ := post_ r |}.

(** Modelled from the spec: "match `METHOD SP PATH SP HTTP/VER`. On
    match, store fields and advance to Headers. On mismatch, fail with
    BadRequest." *)
Definition ParseRequestLine_ (line : list ascii) (r : HttpRequest)
  : option HttpRequest :=
  match split_at " " line with
  | Some (m, rest1) =>
      match split_at " " rest1 with
      | Some (p, rest2) =>
          match strip_prefix (bytes "HTTP/") rest2 with
          | Some v =>
              if has_char " " v then None
              else Some {| state_ := HEADERS; method_ := str m;
                           path_ := str p; version_ := str v;
                           body_ := body_ r; header_ := header_ r;
                           post_ := post_ r |}
          | None => None
          end
      | None => None
      end
  | None => None
  end.

(** Modelled from the spec: "If `path == "/"`, rewrite to `/index.html`;
    else if `path` names a recognized tag in the default HTML set, append
    `.html`." *)
Definition ParsePath_ (r : HttpRequest) : HttpRequest :=
  if String.eqb (path_ r) "/" then set_path "/index.html" r
  else if existsb (String.eqb (path_ r)) DEFAULT_HTML
       then set_path (path_ r ++ ".html") r
       else r.

Definition content_length (r : HttpRequest) : Z :=
  match header_ r !! "Content-Length"%string with
  | Some v => parse_decimal (bytes v)
  | None => 0
  end.

(** Modelled from the spec: "Each line must be `KEY: VALUE`. Unknown
    headers are retained. Empty line advances to Body if method is `POST`
    and `Content-Length > 0`, else to Finish." *)
Definition ParseHeader_ (line : list ascii) (r : HttpRequest)
  : option HttpRequest :=
  match line with
  | [] =>
      if String.eqb (method_ r) "POST" && (0 <? content_length r)
      then Some (set_state BODY r) else Some (set_state FINISH r)
  | _ :: _ =>
      match split_at ":" line with
      | Some (k, rest) =>
          match strip_prefix (bytes " ") rest with
          | Some v =>
              Some {| state_ := state_ r; method_ := method_ r;
                      path_ := path_ r; version_ := version_ r;
                      body_ := body_ r;
                      header_ := <[str k := str v]> (header_ r);
                      post_ := post_ r |}
          | None => None
          end
      | None => None
      end
  end.

(** "percent-decoding with `+` -> space" *)
Fixpoint percent_decode (s : list ascii) : list ascii :=
  match s with
  | [] => []
  | c :: tl =>
      if Ascii.eqb c "+" then " "%char :: percent_decode tl
      else if Ascii.eqb c "%" then
        match tl with
        | x :: y :: tl' =>
            match hex_val x, hex_val y with
            | Some a, Some b =>
                ascii_of_nat (Z.to_nat (16 * a + b)) :: percent_decode tl'
            | _, _ => c :: percent_decode tl
            end
        | _ => c :: percent_decode tl
        end
      else c :: percent_decode tl
  end.

(** Modelled from the spec: "decode into the form map". *)
Definition ParseFromUrlencoded_ (r : HttpRequest) : HttpRequest :=
  let pairs := split_on "&" (bytes (body_ r)) in
  let form :=
    fold_left (fun (m : gmap string string) (kv : list ascii) =>
                 match split_at "=" kv with
                 | Some (k, v) =>
                     <[str (percent_decode k) := str (percent_decode v)]> m
                 | None => m
                 end) pairs (post_ r) in
  {| state_ := state_ r; method_ := method_ r; path_ := path_ r;
     version_ := version_ r; body_ := body_ r; header_ := header_ r;
     post_ := form |}.

Definition GetPost (key : string) (r : HttpRequest) : string :=
  match post_ r !! key with Some v => v | None => "" end.

(** Modelled from the spec: "If `Content-Type` is
    `application/x-www-form-urlencoded`, decode into the form map. For
    `POST /login` or `POST /register`, run UserVerify with (username,
    password, isLogin = path == "/login"); on success rewrite path to
    `/welcome.html`, on failure to `/error.html`." *)
Definition ParsePost_ (r : HttpRequest) : HttpRequest :=
  let r1 :=
    match header_ r !! "Content-Type"%string with
    | Some ct =>
        if String.eqb ct "application/x-www-form-urlencoded"
        then ParseFromUrlencoded_ r else r
    | None => r
    end in
  if String.eqb (method_ r1) "POST"
     && (String.eqb (path_ r1) "/login" || String.eqb (path_ r1) "/register")
  then
    let isLogin := String.eqb (path_ r1) "/login" in
    if UserVerify (GetPost "username" r1) (GetPost "password" r1) isLogin
    then set_path "/welcome.html" r1
    else set_path "/error.html" r1
  else r1.

(** Modelled from the spec: "accumulate until `Content-Length` bytes are
    present. ... Advance to Finish." *)
Definition ParseBody_ (data : list ascii) (r : HttpRequest) : HttpRequest :=
  let r1 := {| state_ := state_ r; method_ := method_ r; path_ := path_ r;
               version_ := version_ r; body_ := str data;
               header_ := header_ r; post_ := post_ r |} in
  set_state FINISH (ParsePost_ r1).

(** Modelled from the spec: the loop of [parse]. "Each call to `parse`
    advances as far as possible without consuming partial lines":
    RequestLine and Headers "consume one CRLF-terminated line" at a time,
    Body waits "until `Content-Length` bytes are present". The result is
    how the call stops, the parser's state, and the bytes left in the
    buffer. *)
Fixpoint parse_loop (fuel : nat) (r : HttpRequest) (buf : list ascii)
  : Outcome * HttpRequest * list ascii :=
  match fuel with
  | O => (NeedMore, r, buf)
  | S fuel' =>
    match state_ r with
    | FINISH => (Finished, r, buf)
    | REQUEST_LINE =>
        match read_line buf with
        | None => (NeedMore, r, buf)
        | Some (line, rest) =>
            match ParseRequestLine_ line r with
            | None => (BadRequest, r, rest)
            | Some r' => parse_loop fuel' (ParsePath_ r') rest
            end
        end
    | HEADERS =>
        match read_line buf with
        | None => (NeedMore, r, buf)
        | Some (line, rest) =>
            match ParseHeader_ line r with
            | None => (BadRequest, r, rest)
            | Some r' => parse_loop fuel' r' rest
            end
        end
    | BODY =>
        let n := Z.to_nat (content_length r) in
        if (length buf <? n)%nat then (NeedMore, r, buf)
        else parse_loop fuel' (ParseBody_ (take n buf) r) (drop n buf)
    end
  end.

(** Every turn of the loop but the last consumes a line or the body, and
    a line is two octets at least: [length buf + 2] turns are enough. *)
Definition parse_bytes (r : HttpRequest) (buf : list ascii)
  : Outcome * HttpRequest * list ascii :=
  parse_loop (S (S (length buf))) r buf.

Definition is_finished (o : Outcome) : bool :=
  match o with Finished => true | _ => false end.

(** [bool parse(Buffer& buff)]: "`true` if the state machine reached
    Finish (complete request), `false` if more bytes are needed"; the
    octets consumed are retrieved from the buffer. *)
Definition parse (buff : Buffer.Buffer) (r : HttpRequest)
  : bool * HttpRequest * Buffer.Buffer :=
  let '(o, r', rest) := parse_bytes r (Buffer.readable buff) in
  (is_finished o, r',
   Buffer.Retrieve (Buffer.ReadableBytes buff - vec_size rest) buff).

End Parser.

(** Turns of the loop that [parse_loop] can need. *)
Definition turns_needed (r : HttpRequest) (buf : list ascii) : nat :=
  match state_ r with
  | FINISH => 1
  | BODY => 2
  | _ => length buf + 2
  end.

End HttpRequest.

(** ** http/httpresponse.{h,cpp} *)

Module HttpResponse.

(** The fields of [struct stat] the server reads. *)
Record stat : Type := mkStat {
  st_mode : Z;
  st_size : Z
}.

Definition S_IFMT : Z := 61440.   (* 0170000 *)
Definition S_IFDIR : Z := 16384.  (* 0040000 *)
Definition S_IROTH : Z := 4.      (* 0004 *)

Definition S_ISDIR (m : Z) : bool := Z.land m S_IFMT =? S_IFDIR.

(** [(void* ) -1], what [mmap] returns when it fails. *)
Definition MAP_FAILED : Z := wrap_size (-1).

(** The system calls the response builder makes, as functions of their
    arguments: [stat] and [open] by path ([None] is the return value -1),
    [mmap] by descriptor and length ([None] is [MAP_FAILED], otherwise
    the octets of the mapping). *)
Record FileSys : Type := mkFileSys {
  sys_stat : string -> option stat;
  sys_open : string -> option Z;
  sys_mmap : Z -> Z -> option (list ascii)
}.

Record HttpResponse : Type := mkHttpResponse {
  code_ : Z;
  isKeepAlive_ : bool;
  path_ : string;
  srcDir_ : string;
  mmFile_ : option (list ascii);  (* [None] is [nullptr] *)
  mmFileStat_ : stat
}.

Fixpoint assoc {K V : Type} (eqb : K -> K -> bool) (k : K)
  (table : list (K * V)) : option V :=
  match table with
  | [] => None
  | (k', v) :: rest => if eqb k k' then Some v else assoc eqb k rest
  end.

Definition SUFFIX_TYPE : list (string * string) :=
  [ (".html", "text/html"); (".xml", "text/xml");
    (".xhtml", "application/xhtml+xml"); (".txt", "text/plain");
    (".rtf", "application/rtf"); (".pdf", "application/pdf");
    (".word", "application/nsword"); (".png", "image/png");
    (".gif", "image/gif"); (".jpg", "image/jpeg"); (".jpeg", "image/jpeg");
    (".au", "audio/basic"); (".mpeg", "video/mpeg"); (".mpg", "video/mpeg");
    (".avi", "video/x-msvideo"); (".gz", "application/x-gzip");
    (".tar", "application/x-tar"); (".css", "text/css ");
    (".js", "text/javascript ") ]%string.

Definition CODE_STATUS : list (Z * string) :=
  [ (200, "OK"); (400, "Bad Request"); (403, "Forbidden");
    (404, "Not Found") ]%string.

Definition CODE_PATH : list (Z * string) :=
  [ (400, "/400.html"); (403, "/403.html"); (404, "/404.html") ]%string.

Definition new_response : HttpResponse :=
  {| code_ := -1; isKeepAlive_ := false; path_ := ""; srcDir_ := "";
     mmFile_ := None; mmFileStat_ := mkStat 0 0 |}.

Definition UnmapFile (r : HttpResponse) : HttpResponse :=
  match mmFile_ r with
  | Some _ =>
      {| code_ := code_ r; isKeepAlive_ := isKeepAlive_ r; path_ := path_ r;
         srcDir_ := srcDir_ r; mmFile_ := None;
         mmFileStat_ := mmFileStat_ r |}
  | None => r
  end.

Definition Init (srcDir path : string) (isKeepAlive : bool) (code : Z)
  (r : HttpResponse) : Res HttpResponse :=
  if String.eqb srcDir "" then Crash AssertionFailed
  else
    let r := match mmFile_ r with Some _ => UnmapFile r | None => r end in
    Ok {| code_ := code; isKeepAlive_ := isKeepAlive; path_ := path;
          srcDir_ := srcDir; mmFile_ := None; mmFileStat_ := mkStat 0 0 |}.

Definition File (r : HttpResponse) : option (list ascii) := mmFile_ r.

Definition FileLen (r : HttpResponse) : Z := wrap_size (st_size (mmFileStat_ r)).

Definition set_code (c : Z) (r : HttpResponse) : HttpResponse :=
  {| code_ := c; isKeepAlive_ := isKeepAlive_ r; path_ := path_ r;
     srcDir_ := srcDir_ r; mmFile_ := mmFile_ r;
     mmFileStat_ := mmFileStat_ r |}.

Definition set_stat (st : stat) (r : HttpResponse) : HttpResponse :=
  {| code_ := code_ r; isKeepAlive_ := isKeepAlive_ r; path_ := path_ r;
     srcDir_ := srcDir_ r; mmFile_ := mmFile_ r; mmFileStat_ := st |}.

Definition set_path (p : string) (r : HttpResponse) : HttpResponse :=
  {| code_ := code_ r; isKeepAlive_ := isKeepAlive_ r; path_ := p;
     srcDir_ := srcDir_ r; mmFile_ := mmFile_ r;
     mmFileStat_ := mmFileStat_ r |}.

(** The first four octets of a mapping (zero past its end) are all
    [0xFF]: read as an [int], they are -1. *)
Definition starts_with_ones (m : list ascii) : bool :=
  forallb (fun k : nat => nat_of_ascii (nth k m zero) =? 255)%nat
    [0; 1; 2; 3]%nat.

Section WithFileSys.

Variable fs : FileSys.

(** [stat(path, &mmFileStat_)]: on success the buffer is filled, on
    failure it is left as it was. The result says whether it succeeded. *)
Definition do_stat (r : HttpResponse) : bool * HttpResponse :=
  match sys_stat fs (srcDir_ r ++ path_ r) with
  | Some st => (true, set_stat st r)
  | None => (false, r)
  end.

Definition ErrorHtml_ (r : HttpResponse) : HttpResponse :=
  match assoc Z.eqb (code_ r) CODE_PATH with
  | Some p => snd (do_stat (set_path p r))
  | None => r
  end.

Definition AddStateLine_ (rb : HttpResponse * Buffer.Buffer)
  : HttpResponse * Buffer.Buffer :=
  let '(r, buff) := rb in
  let '(r, status) :=
    match assoc Z.eqb (code_ r) CODE_STATUS with
    | Some s => (r, s)
    | None => (set_code 400 r, "Bad Request"%string)
    end in
  (r, Buffer.AppendStr ("HTTP/1.1 " ++ to_string (code_ r) ++ " " ++ status
                        ++ CRLF) buff).

Fixpoint find_last_of (c : ascii) (s : list ascii) : option nat :=
  match s with
  | [] => None
  | x :: tl =>
      match find_last_of c tl with
      | Some i => Some (S i)
      | None => if Ascii.eqb x c then Some O else None
      end
  end.

Definition GetFileType_ (r : HttpResponse) : string :=
  match find_last_of "." (bytes (path_ r)) with
  | None => "text/plain"
  | Some idx =>
      let suffix := str (drop idx (bytes (path_ r))) in
      match assoc String.eqb suffix SUFFIX_TYPE with
      | Some t => t
      | None => "text/plain"
      end
  end.

Definition AddHeader_ (rb : HttpResponse * Buffer.Buffer)
  : HttpResponse * Buffer.Buffer :=
  let '(r, buff) := rb in
  let buff := Buffer.AppendStr "Connection: " buff in
  let buff :=
    if isKeepAlive_ r then
      Buffer.AppendStr ("keep-alive: max=6, timeout=120" ++ CRLF)
        (Buffer.AppendStr ("keep-alive" ++ CRLF) buff)
    else Buffer.AppendStr ("close" ++ CRLF) buff in
  (r, Buffer.AppendStr ("Content-type: " ++ GetFileType_ r ++ CRLF) buff).

Definition error_body (r : HttpResponse) (message : string) : string :=
  let status := match assoc Z.eqb (code_ r) CODE_STATUS with
                | Some s => s
                | None => "Bad Request"%string
                end in
  ("<html><title>Error</title>"
   ++ "<body bgcolor=" ++ DQUOTE ++ "ffffff" ++ DQUOTE ++ ">"
   ++ to_string (code_ r) ++ " : " ++ status ++ String LF EmptyString
   ++ "<p>" ++ message ++ "</p>"
   ++ "<hr><em>TinyWebServer</em></body></html>")%string.

Definition ErrorContent (r : HttpResponse) (buff : Buffer.Buffer)
  (message : string) : Buffer.Buffer :=
  let body := error_body r message in
  Buffer.AppendStr body
    (Buffer.AppendStr ("Content-length: "
                       ++ to_string (Z.of_nat (String.length body))
                       ++ CRLF ++ CRLF) buff).

(** [*mmRet] for [int* mmRet]: the first four octets of the mapping as a
    little-endian [int] (a mapping is whole pages, zero past the end of
    the file); the address [MAP_FAILED] maps nothing. *)
Definition deref_int (mmRet : option (list ascii)) : Res Z :=
  match mmRet with
  | None => Crash (InvalidAddress MAP_FAILED)
  | Some m =>
      let byte (k : nat) := Z.of_nat (nat_of_ascii (nth k m zero)) in
      Ok (wrap_int (byte 0%nat + 2 ^ 8 * byte 1%nat + 2 ^ 16 * byte 2%nat
                    + 2 ^ 24 * byte 3%nat))
  end.

Definition AddContent_ (rb : HttpResponse * Buffer.Buffer)
  : Res (HttpResponse * Buffer.Buffer) :=
  let '(r, buff) := rb in
  match sys_open fs (srcDir_ r ++ path_ r) with
  | None => Ok (r, ErrorContent r buff "File NotFound!")
  | Some srcFd =>
      let mmRet := sys_mmap fs srcFd (st_size (mmFileStat_ r)) in
      v <- deref_int mmRet ;;
      if v =? -1 then Ok (r, ErrorContent r buff "File NotFound!")
      else
        Ok ({| code_ := code_ r; isKeepAlive_ := isKeepAlive_ r;
               path_ := path_ r; srcDir_ := srcDir_ r; mmFile_ := mmRet;
               mmFileStat_ := mmFileStat_ r |},
            Buffer.AppendStr ("Content-length: "
                              ++ to_string (st_size (mmFileStat_ r))
                              ++ CRLF ++ CRLF) buff)
  end.

(** The first statement of [MakeResponse]: the if-chain on the result
    of [stat]. *)
Definition stat_code (r : HttpResponse) : HttpResponse :=
  let '(found, r) := do_stat r in
  if negb found || S_ISDIR (st_mode (mmFileStat_ r)) then set_code 404 r
  else if Z.land (st_mode (mmFileStat_ r)) S_IROTH =? 0 then set_code 403 r
  else if code_ r =? -1 then set_code 200 r
  else r.

Definition MakeResponse (r : HttpResponse) (buff : Buffer.Buffer)
  : Res (HttpResponse * Buffer.Buffer) :=
  let r := stat_code r in
  let r := ErrorHtml_ r in
  AddContent_ (AddHeader_ (AddStateLine_ (r, buff))).

(** The status code as the specification words it: "If the file does
    not exist or is a directory, set status 404. If it exists but is not
    world-readable, set status 403. Otherwise, if status was unset, set
    200." *)
Definition spec_status_code (r : HttpResponse) : Z :=
  match sys_stat fs (srcDir_ r ++ path_ r) with
  | None => 404
  | Some st =>
      if S_ISDIR (st_mode st) then 404
      else if Z.land (st_mode st) S_IROTH =? 0 then 403
      else if code_ r =? -1 then 200
      else code_ r
  end.

End WithFileSys.

(** "For 400/403/404, rewrite `path` to the corresponding static error
    page". *)
Definition spec_error_page (code : Z) : option string :=
  if code =? 400 then Some "/400.html"%string
  else if code =? 403 then Some "/403.html"%string
  else if code =? 404 then Some "/404.html"%string
  else None.

End HttpResponse.

(** ** http/httpconn.{h,cpp} *)

Module HttpConn.

(** [struct iovec]. A base is an offset into the region it points into:
    the storage of the write buffer for [iov_[0]], the mapped file for
    [iov_[1]]. *)
Record iovec : Type := mkIovec {
  iov_base : Z;
  iov_len : Z
}.

(** [struct sockaddr_in]: address and port. *)
Definition sockaddr_in : Type := (Z * Z)%type.

Record HttpConn : Type := mkHttpConn {
  fd_ : Z;
  addr_ : sockaddr_in;
  isClose_ : bool;
  iovCnt_ : Z;
  iov_ : iovec * iovec;
  readBuff_ : Buffer.Buffer;
  writeBuff_ : Buffer.Buffer;
  request_ : HttpRequest.HttpRequest;
  response_ : HttpResponse.HttpResponse
}.

(** The static members of the class, and the descriptors the process
    has passed to [close(2)], in order. *)
Record Statics : Type := mkStatics {
  isET : bool;
  srcDir : string;
  userCount : Z;
  closed_fds : list Z
}.

Definition EAGAIN : Z := 11.

(** [HttpConn::HttpConn()]; the members the constructor leaves
    unset are read as zero. *)
Definition new_conn : HttpConn :=
  {| fd_ := -1; addr_ := (0, 0); isClose_ := true; iovCnt_ := 0;
     iov_ := (mkIovec 0 0, mkIovec 0 0);
     readBuff_ := Buffer.new_buffer; writeBuff_ := Buffer.new_buffer;
     request_ := HttpRequest.Init
                   (HttpRequest.mkHttpRequest HttpRequest.REQUEST_LINE
                      "" "" "" "" ∅ ∅);
     response_ := HttpResponse.new_response |}.

Definition init (fd : Z) (addr : sockaddr_in) (sc : Statics * HttpConn)
  : Res (Statics * HttpConn) :=
  let '(s, c) := sc in
  if negb (0 <? fd) then Crash AssertionFailed
  else
    Ok ({| isET := isET s; srcDir := srcDir s;
           userCount := wrap_int (userCount s + 1);
           closed_fds := closed_fds s |},
        {| fd_ := fd; addr_ := addr; isClose_ := false;
           iovCnt_ := iovCnt_ c; iov_ := iov_ c;
           readBuff_ := Buffer.RetrieveAll (readBuff_ c);
           writeBuff_ := Buffer.RetrieveAll (writeBuff_ c);
           request_ := request_ c; response_ := response_ c |}).

Definition set_response (r : HttpResponse.HttpResponse) (c : HttpConn)
  : HttpConn :=
  {| fd_ := fd_ c; addr_ := addr_ c; isClose_ := isClose_ c;
     iovCnt_ := iovCnt_ c; iov_ := iov_ c; readBuff_ := readBuff_ c;
     writeBuff_ := writeBuff_ c; request_ := request_ c; response_ := r |}.

Definition set_request (r : HttpRequest.HttpRequest) (c : HttpConn)
  : HttpConn :=
  {| fd_ := fd_ c; addr_ := addr_ c; isClose_ := isClose_ c;
     iovCnt_ := iovCnt_ c; iov_ := iov_ c; readBuff_ := readBuff_ c;
     writeBuff_ := writeBuff_ c; request_ := r; response_ := response_ c |}.

Definition set_readBuff (b : Buffer.Buffer) (c : HttpConn) : HttpConn :=
  {| fd_ := fd_ c; addr_ := addr_ c; isClose_ := isClose_ c;
     iovCnt_ := iovCnt_ c; iov_ := iov_ c; readBuff_ := b;
     writeBuff_ := writeBuff_ c; request_ := request_ c;
     response_ := response_ c |}.

Definition Close (sc : Statics * HttpConn) : Statics * HttpConn :=
  let '(s, c) := sc in
  let c := set_response (HttpResponse.UnmapFile (response_ c)) c in
  if negb (isClose_ c) then
    ({| isET := isET s; srcDir := srcDir s;
        userCount := wrap_int (userCount s - 1);
        closed_fds := closed_fds s ++ [fd_ c] |},
     {| fd_ := fd_ c; addr_ := addr_ c; isClose_ := true;
        iovCnt_ := iovCnt_ c; iov_ := iov_ c; readBuff_ := readBuff_ c;
        writeBuff_ := writeBuff_ c; request_ := request_ c;
        response_ := response_ c |})
  else (s, c).

Definition GetFd (c : HttpConn) : Z := fd_ c.

(** [int ToWriteBytes() { return iov_[0].iov_len + iov_[1].iov_len; }]:
    a [size_t] sum converted to [int]. *)
Definition ToWriteBytes (c : HttpConn) : Z :=
  wrap_int (wrap_size (iov_len (fst (iov_ c)) + iov_len (snd (iov_ c)))).

Definition IsKeepAlive (c : HttpConn) : bool :=
  HttpRequest.IsKeepAlive (request_ c).

(** The body of the loop of [write] once [writev] has returned
    [len > 0]: the second component says whether the body left the loop
    by [break]. *)
Definition write_body (len : Z) (c : HttpConn) : HttpConn * bool :=
  let iov0 := fst (iov_ c) in
  let iov1 := snd (iov_ c) in
  if wrap_size (iov_len iov0 + iov_len iov1) =? 0 then (c, true)
  else if iov_len iov0 <? wrap_size len then
    let iov1' :=
      {| iov_base := iov_base iov1 + wrap_size (len - iov_len iov0);
         iov_len := wrap_size (iov_len iov1
                               - wrap_size (len - iov_len iov0)) |} in
    if negb (iov_len iov0 =? 0) then
      ({| fd_ := fd_ c; addr_ := addr_ c; isClose_ := isClose_ c;
          iovCnt_ := iovCnt_ c;
          iov_ := ({| iov_base := iov_base iov0; iov_len := 0 |}, iov1');
          readBuff_ := readBuff_ c;
          writeBuff_ := Buffer.RetrieveAll (writeBuff_ c);
          request_ := request_ c; response_ := response_ c |}, false)
    else
      ({| fd_ := fd_ c; addr_ := addr_ c; isClose_ := isClose_ c;
          iovCnt_ := iovCnt_ c; iov_ := (iov0, iov1');
          readBuff_ := readBuff_ c; writeBuff_ := writeBuff_ c;
          request_ := request_ c; response_ := response_ c |}, false)
  else
    ({| fd_ := fd_ c; addr_ := addr_ c; isClose_ := isClose_ c;
        iovCnt_ := iovCnt_ c;
        iov_ := ({| iov_base := iov_base iov0 + len;
                    iov_len := wrap_size (iov_len iov0 - len) |}, iov1);
        readBuff_ := readBuff_ c;
        writeBuff_ := Buffer.Retrieve len (writeBuff_ c);
        request_ := request_ c; response_ := response_ c |}, false).

(** [write]: [rets] are the values the successive calls of [writev]
    return, each with the [errno] it leaves; when the list is used up
    the socket takes no more ([-1], [EAGAIN]). The result is the value
    returned, [*saveErrno], and the connection. *)
Fixpoint write (ET : bool) (rets : list (Z * Z)) (saveErrno : Z)
  (c : HttpConn) : Z * Z * HttpConn :=
  match rets with
  | [] => (-1, EAGAIN, c)
  | (len, errno) :: rets' =>
      if len <=? 0 then (len, errno, c)
      else
        let '(c', stop) := write_body len c in
        if stop then (len, saveErrno, c')
        else if ET || (10240 <? ToWriteBytes c')
             then write ET rets' saveErrno c'
             else (len, saveErrno, c')
  end.

(** The pending byte count as a [size_t] sum. *)
Definition pending (c : HttpConn) : Z :=
  iov_len (fst (iov_ c)) + iov_len (snd (iov_ c)).

(** The octets a list of [writev] results reports written. *)
Definition reported (rets : list (Z * Z)) : Z :=
  foldr (fun r acc => fst r + acc) 0 rets.

(** [iov_[0]] describes the readable region of the write buffer: as long
    as it, and starting where it starts when there is anything in it. *)
Definition iov0_describes_buffer (c : HttpConn) : Prop :=
  iov_len (fst (iov_ c)) = Buffer.ReadableBytes (writeBuff_ c)
  /\ (0 < iov_len (fst (iov_ c)) ->
      iov_base (fst (iov_ c)) = Buffer.Peek (writeBuff_ c)).

(** The octets [iov_[0]] points at. *)
Definition iov0_bytes (c : HttpConn) : list ascii :=
  take (Z.to_nat (iov_len (fst (iov_ c))))
    (drop (Z.to_nat (iov_base (fst (iov_ c))))
       (Buffer.buffer_ (writeBuff_ c))).

Section Process.

Variable DEFAULT_HTML : list string.
Variable UserVerify : string -> string -> bool -> bool.
Variable fs : HttpResponse.FileSys.

Definition process (s : Statics) (c : HttpConn) : Res (bool * HttpConn) :=
  let c := set_request (HttpRequest.Init (request_ c)) c in
  if Buffer.ReadableBytes (readBuff_ c) <=? 0 then Ok (false, c)
  else
    let '(ok, req, rbuf) :=
      HttpRequest.parse DEFAULT_HTML UserVerify (readBuff_ c) (request_ c) in
    resp <- (if ok
             then HttpResponse.Init (srcDir s) (HttpRequest.path req)
                    (HttpRequest.IsKeepAlive req) 200 (response_ c)
             else HttpResponse.Init (srcDir s) (HttpRequest.path req)
                    false 400 (response_ c)) ;;
    made <- HttpResponse.MakeResponse fs resp (writeBuff_ c) ;;
    let resp := fst made in
    let wbuf := snd made in
    let iov0 := {| iov_base := Buffer.Peek wbuf;
                   iov_len := Buffer.ReadableBytes wbuf |} in
    let with_file :=
      (0 <? HttpResponse.FileLen resp)
      && match HttpResponse.File resp with Some _ => true | None => false end in
    Ok (true,
        {| fd_ := fd_ c; addr_ := addr_ c; isClose_ := isClose_ c;
           iovCnt_ := if with_file then 2 else 1;
           iov_ := (iov0,
                    if with_file
                    then {| iov_base := 0;
                            iov_len := HttpResponse.FileLen resp |}
                    else snd (iov_ c));
           readBuff_ := rbuf; writeBuff_ := wbuf;
           request_ := req; response_ := resp |}).

End Process.

End HttpConn.

(** ** server/webserver.{h,cpp} *)

Module WebServer.

(** A call the reactor makes on its [HeapTimer] (the timer itself is
    [HeapTimer] above). The callback of [TimerAdd fd] is
    [CloseConn_(&users_[fd])]. *)
Inductive TimerCall : Type :=
| TimerAdd (fd timeout : Z)
| TimerAdjust (fd timeout : Z).

Definition EPOLLIN : Z := 1.

Record WebServer : Type := mkWebServer {
  timeoutMS_ : Z;
  connEvent_ : Z;
  users_ : gmap Z HttpConn.HttpConn;
  epoller_ : gmap Z Z;            (* descriptor -> the events it is armed for *)
  timer_ : list TimerCall;        (* the calls made on the timer, in order *)
  statics : HttpConn.Statics
}.

Definition set_users (u : gmap Z HttpConn.HttpConn) (s : HttpConn.Statics)
  (ws : WebServer) : WebServer :=
  {| timeoutMS_ := timeoutMS_ ws; connEvent_ := connEvent_ ws; users_ := u;
     epoller_ := epoller_ ws; timer_ := timer_ ws; statics := s |}.

(** [client] is the key of the connection in [users_] (the pointer is
    [&users_[client]]); a key with no connection is the null pointer. *)
Definition CloseConn_ (client : Z) (ws : WebServer) : Res WebServer :=
  match users_ ws !! client with
  | None => Crash AssertionFailed
  | Some conn =>
      let ep := delete (HttpConn.GetFd conn) (epoller_ ws) in
      let '(s, conn') := HttpConn.Close (statics ws, conn) in
      Ok {| timeoutMS_ := timeoutMS_ ws; connEvent_ := connEvent_ ws;
            users_ := <[client := conn']> (users_ ws);
            epoller_ := ep; timer_ := timer_ ws; statics := s |}
  end.

(** [users_[fd]] default-constructs the connection when the key is new. *)
Definition AddClient_ (fd : Z) (addr : HttpConn.sockaddr_in) (ws : WebServer)
  : Res WebServer :=
  if negb (0 <? fd) then Crash AssertionFailed
  else
    let conn := default HttpConn.new_conn (users_ ws !! fd) in
    sc <- HttpConn.init fd addr (statics ws, conn) ;;
    let tm := if 0 <? timeoutMS_ ws
              then timer_ ws ++ [TimerAdd fd (timeoutMS_ ws)]
              else timer_ ws in
    Ok {| timeoutMS_ := timeoutMS_ ws; connEvent_ := connEvent_ ws;
          users_ := <[fd := snd sc]> (users_ ws);
          epoller_ := <[fd := Z.lor EPOLLIN (connEvent_ ws)]> (epoller_ ws);
          timer_ := tm; statics := fst sc |}.

Inductive Op : Type :=
| OpAddClient (fd : Z) (addr : HttpConn.sockaddr_in)
| OpCloseConn (client : Z).

Definition step (o : Op) (ws : WebServer) : Res WebServer :=
  match o with
  | OpAddClient fd addr => AddClient_ fd addr ws
  | OpCloseConn client => CloseConn_ client ws
  end.

Fixpoint run (ops : list Op) (ws : WebServer) : Res WebServer :=
  match ops with
  | [] => Ok ws
  | o :: ops' => ws' <- step o ws ;; run ops' ws'
  end.

(** The reactor as its constructor leaves it. *)
Definition new_server (timeoutMS connEvent : Z) (src : string) (ET : bool)
  : WebServer :=
  {| timeoutMS_ := timeoutMS; connEvent_ := connEvent; users_ := ∅;
     epoller_ := ∅; timer_ := [];
     statics := HttpConn.mkStatics ET src 0 [] |}.

(** The connection for [fd] is open. *)
Definition is_open (fd : Z) (ws : WebServer) : bool :=
  match users_ ws !! fd with
  | Some conn => negb (HttpConn.isClose_ conn)
  | None => false
  end.

(** "key present <=> connection open" *)
Definition present_iff_open (ws : WebServer) : Prop :=
  forall fd : Z, is_Some (users_ ws !! fd) <-> is_open fd ws = true.

(** [AddClient_(fd, _)] is one of [ops]. *)
Definition added (fd : Z) (ops : list Op) : bool :=
  existsb (fun o => match o with
                    | OpAddClient fd' _ => fd' =? fd
                    | OpCloseConn _ => false
                    end) ops.

(** Whether the connection for [fd] is open after [ops], given whether
    it was before: the last operation on [fd] decides. *)
Fixpoint open_after (fd : Z) (ops : list Op) (before : bool) : bool :=
  match ops with
  | [] => before
  | OpAddClient fd' _ :: ops' =>
      open_after fd ops' (if fd' =? fd then true else before)
  | OpCloseConn client :: ops' =>
      open_after fd ops' (if client =? fd then false else before)
  end.

(** The operations can be made: a descriptor that [accept] returned is
    positive, and a client pointer points at a connection of the table. *)
Fixpoint valid_ops (present : gset Z) (ops : list Op) : bool :=
  match ops with
  | [] => true
  | OpAddClient fd _ :: ops' => (0 <? fd) && valid_ops ({[fd]} ∪ present) ops'
  | OpCloseConn client :: ops' =>
      bool_decide (client ∈ present) && valid_ops present ops'
  end.

(** The event bits of [<sys/epoll.h>]. *)
Definition EPOLLOUT : Z := 4.
Definition EPOLLERR : Z := 8.
Definition EPOLLHUP : Z := 16.
Definition EPOLLRDHUP : Z := 8192.
Definition EPOLLONESHOT : Z := 2 ^ 30.
Definition EPOLLET : Z := 2 ^ 31.


(** [InitEventMode_(trigMode)]: [listenEvent_], [connEvent_] and
    [HttpConn::isET]. *)
Definition InitEventMode_ (trigMode : Z) : Z * Z * bool :=
  let listenEvent := EPOLLRDHUP in
  let connEvent := Z.lor EPOLLONESHOT EPOLLRDHUP in
  let '(listenEvent, connEvent) :=
    if trigMode =? 0 then (listenEvent, connEvent)
    else if trigMode =? 1 then (listenEvent, Z.lor connEvent EPOLLET)
    else if trigMode =? 2 then (Z.lor listenEvent EPOLLET, connEvent)
    else (Z.lor listenEvent EPOLLET, Z.lor connEvent EPOLLET) in
  (listenEvent, connEvent, negb (Z.land connEvent EPOLLET =? 0)).

Definition set_statics (s : HttpConn.Statics) (ws : WebServer) : WebServer :=
  set_users (users_ ws) s ws.

(** [epoller_->ModFd(fd, events)]: [EPOLL_CTL_MOD] changes the events of
    a descriptor that is registered and fails for one that is not; a
    negative descriptor is not passed on. The callers do not look at
    the result. *)
Definition ModFd (fd events : Z) (ws : WebServer) : WebServer :=
  if fd <? 0 then ws
  else match epoller_ ws !! fd with
       | Some _ =>
           {| timeoutMS_ := timeoutMS_ ws; connEvent_ := connEvent_ ws;
              users_ := users_ ws; epoller_ := <[fd := events]> (epoller_ ws);
              timer_ := timer_ ws; statics := statics ws |}
       | None => ws
       end.



(** [OnWrite_(client)]; [rets] are the results of the calls of [writev]
    as in [HttpConn.write]. *)
Definition OnWrite_ (client : Z) (rets : list (Z * Z)) (ws : WebServer)
  : Res WebServer :=
  match users_ ws !! client with
  | None => Crash AssertionFailed
  | Some conn =>
      let '(len, writeErrno, conn') :=
        HttpConn.write (HttpConn.isET (statics ws)) rets 0 conn in
      let ret := wrap_int len in
      let ws1 := set_users (<[client := conn']> (users_ ws)) (statics ws) ws in
      if HttpConn.ToWriteBytes conn' =? 0 then
        if HttpConn.IsKeepAlive conn'
        then Ok (ModFd (HttpConn.GetFd conn')
                   (Z.lor (connEvent_ ws) EPOLLIN) ws1)
        else CloseConn_ client ws1
      else if (ret <? 0) && (writeErrno =? HttpConn.EAGAIN)
      then Ok (ModFd (HttpConn.GetFd conn')
                 (Z.lor (connEvent_ ws) EPOLLOUT) ws1)
      else CloseConn_ client ws1
  end.

(** The connections of the table that are open, counted. *)
Definition open_count (ws : WebServer) : Z :=
  Z.of_nat (size (filter (fun kc : Z * HttpConn.HttpConn =>
                            HttpConn.isClose_ (snd kc) = false)
                    (users_ ws))).

(** [HttpConn::userCount] is the number of open connections. *)
Definition counted (ws : WebServer) : Prop :=
  HttpConn.userCount (statics ws) = open_count ws.

(** Every [AddClient_] of the run is for a descriptor whose connection
    is not open: the kernel hands out a descriptor again only after it
    was closed. *)
Fixpoint adds_fresh (ops : list Op) (ws : WebServer) : Prop :=
  match ops with
  | [] => True
  | o :: ops' =>
      match o with
      | OpAddClient fd _ => is_open fd ws = false
      | OpCloseConn _ => True
      end
      /\ forall ws', step o ws = Ok ws' -> adds_fresh ops' ws'
  end.

End WebServer.

(** ** States and environments the properties are tried on *)

Definition server0 : WebServer.WebServer :=
  WebServer.new_server 60000 0 "/srv/resources/" false.

(** A timer holding one node for descriptor 5, due at 1000 ms. *)
Definition one_node_world : HeapTimer.World nat :=
  {| HeapTimer.timer :=
       {| HeapTimer.heap_ := [HeapTimer.mkTimerNode 5 (HeapTimer.MS 1000) 5%nat];
          HeapTimer.ref_ := {[ 5 := 0 ]} |};
     HeapTimer.fired := []; HeapTimer.reads := 0 |}.

(** [tick] reads the clock at 999 ms, [GetNextTick] again at 1005 ms. *)
Definition late_clock (k : nat) : Z :=
  match k with
  | O => HeapTimer.MS 999
  | S _ => HeapTimer.MS 1005
  end.

(** A second node added with a later deadline, the first one postponed
    and then removed, and a tick. *)
Definition postpone_run : list (HeapTimer.Op nat) :=
  [HeapTimer.OpAdd 7 2000 7%nat; HeapTimer.OpAdjust 5 3000;
   HeapTimer.OpDoWork 5; HeapTimer.OpTick].

(** Three nodes, due at 1000, 2000 and 3000 ms. *)
Definition three_node_world : HeapTimer.World nat :=
  {| HeapTimer.timer :=
       {| HeapTimer.heap_ :=
            [HeapTimer.mkTimerNode 5 (HeapTimer.MS 1000) 5%nat;
             HeapTimer.mkTimerNode 7 (HeapTimer.MS 2000) 7%nat;
             HeapTimer.mkTimerNode 9 (HeapTimer.MS 3000) 9%nat];
          HeapTimer.ref_ := {[ 5 := 0; 7 := 1; 9 := 2 ]} |};
     HeapTimer.fired := []; HeapTimer.reads := 1 |}.

(** The three nodes with the root postponed to 5000 ms: the root is
    later than the nodes below it. *)
Definition late_root_timer : HeapTimer.HeapTimer nat :=
  {| HeapTimer.heap_ :=
       [HeapTimer.mkTimerNode 5 (HeapTimer.MS 5000) 5%nat;
        HeapTimer.mkTimerNode 7 (HeapTimer.MS 2000) 7%nat;
        HeapTimer.mkTimerNode 9 (HeapTimer.MS 3000) 9%nat];
     HeapTimer.ref_ := {[ 5 := 0; 7 := 1; 9 := 2 ]} |}.

(** Two nodes, the root due at 1000 ms. *)
Definition two_node_world : HeapTimer.World nat :=
  {| HeapTimer.timer :=
       {| HeapTimer.heap_ :=
            [HeapTimer.mkTimerNode 5 (HeapTimer.MS 1000) 5%nat;
             HeapTimer.mkTimerNode 7 (HeapTimer.MS 2000) 7%nat];
          HeapTimer.ref_ := {[ 5 := 0; 7 := 1 ]} |};
     HeapTimer.fired := []; HeapTimer.reads := 1 |}.

(** A file system whose every path is an empty, world-readable regular
    file: [open] gives descriptor 3, and [mmap] of length 0 fails. *)
Definition empty_files : HttpResponse.FileSys :=
  {| HttpResponse.sys_stat := fun _ => Some (HttpResponse.mkStat 33188 0);
     HttpResponse.sys_open := fun _ => Some 3;
     HttpResponse.sys_mmap := fun _ len =>
       if len =? 0 then None else Some [] |}.

(** A file system whose every path is a world-readable file of four
    octets, all [0xFF]. *)
Definition all_ones_files : HttpResponse.FileSys :=
  {| HttpResponse.sys_stat := fun _ => Some (HttpResponse.mkStat 33188 4);
     HttpResponse.sys_open := fun _ => Some 3;
     HttpResponse.sys_mmap := fun _ _ => Some (repeat (ascii_of_nat 255) 4) |}.

Definition empty_file_response : HttpResponse.HttpResponse :=
  {| HttpResponse.code_ := 200; HttpResponse.isKeepAlive_ := false;
     HttpResponse.path_ := "/empty.html";
     HttpResponse.srcDir_ := "/srv/resources";
     HttpResponse.mmFile_ := None;
     HttpResponse.mmFileStat_ := HttpResponse.mkStat 33188 0 |}.

(** A resource directory that holds [index.html] and the three error
    pages, each a world-readable regular file of 13 octets, and nothing
    else. *)
Definition site_pages : list string :=
  ["/srv/resources/index.html"; "/srv/resources/400.html";
   "/srv/resources/403.html"; "/srv/resources/404.html"]%string.

Definition site_files : HttpResponse.FileSys :=
  {| HttpResponse.sys_stat := fun p =>
       if existsb (String.eqb p) site_pages
       then Some (HttpResponse.mkStat 33188 13) else None;
     HttpResponse.sys_open := fun p =>
       if existsb (String.eqb p) site_pages then Some 3 else None;
     HttpResponse.sys_mmap := fun _ len =>
       if len =? 0 then None else Some (bytes "<html></html>") |}.

(** A response initialised for [/index.html] with the code 500, and one
    for a page that does not exist. *)
Definition response_preset_500 : HttpResponse.HttpResponse :=
  {| HttpResponse.code_ := 500; HttpResponse.isKeepAlive_ := false;
     HttpResponse.path_ := "/index.html";
     HttpResponse.srcDir_ := "/srv/resources";
     HttpResponse.mmFile_ := None;
     HttpResponse.mmFileStat_ := HttpResponse.mkStat 0 0 |}.

Definition response_missing_page : HttpResponse.HttpResponse :=
  {| HttpResponse.code_ := 200; HttpResponse.isKeepAlive_ := false;
     HttpResponse.path_ := "/nowhere.html";
     HttpResponse.srcDir_ := "/srv/resources";
     HttpResponse.mmFile_ := None;
     HttpResponse.mmFileStat_ := HttpResponse.mkStat 0 0 |}.

(** A connection whose response is a header of 100 octets in the write
    buffer and a mapped file of 50 octets. *)
Definition conn_100_50 : HttpConn.HttpConn :=
  {| HttpConn.fd_ := 5; HttpConn.addr_ := (0, 0);
     HttpConn.isClose_ := false; HttpConn.iovCnt_ := 2;
     HttpConn.iov_ := (HttpConn.mkIovec 0 100, HttpConn.mkIovec 0 50);
     HttpConn.readBuff_ := Buffer.new_buffer;
     HttpConn.writeBuff_ :=
       {| Buffer.buffer_ := repeat zero 1024; Buffer.readPos_ := 0;
          Buffer.writePos_ := 100 |};
     HttpConn.request_ := HttpConn.request_ HttpConn.new_conn;
     HttpConn.response_ := HttpResponse.new_response |}.

(** The reactor, level-triggered, with that connection in its table. *)
Definition server_sending : WebServer.WebServer :=
  {| WebServer.timeoutMS_ := 60000; WebServer.connEvent_ := 0;
     WebServer.users_ := {[ 5 := conn_100_50 ]};
     WebServer.epoller_ := {[ 5 := WebServer.EPOLLOUT ]};
     WebServer.timer_ := [];
     WebServer.statics := HttpConn.mkStatics false "/srv/resources/" 1 [] |}.

(** A connection with nothing left of the header and 2^31 + 5 octets of
    a mapped file (a file a little over 2 GiB) still to send. *)
Definition conn_big_file : HttpConn.HttpConn :=
  {| HttpConn.fd_ := 5; HttpConn.addr_ := (0, 0);
     HttpConn.isClose_ := false; HttpConn.iovCnt_ := 2;
     HttpConn.iov_ := (HttpConn.mkIovec 0 0,
                       HttpConn.mkIovec 0 (2 ^ 31 + 5));
     HttpConn.readBuff_ := Buffer.new_buffer;
     HttpConn.writeBuff_ := Buffer.new_buffer;
     HttpConn.request_ := HttpConn.request_ HttpConn.new_conn;
     HttpConn.response_ := HttpResponse.new_response |}.

(** The pages the server ships, a user database that knows nobody, and
    a file system whose every path is a small world-readable file. *)
Definition default_html : list string :=
  ["/index"; "/register"; "/login"; "/welcome"; "/video"; "/picture"]%string.

Definition nobody (name pwd : string) (isLogin : bool) : bool := false.

Definition small_files : HttpResponse.FileSys :=
  {| HttpResponse.sys_stat := fun _ => Some (HttpResponse.mkStat 33188 2);
     HttpResponse.sys_open := fun _ => Some 3;
     HttpResponse.sys_mmap := fun _ _ => Some (bytes "ok") |}.

Definition statics0 : HttpConn.Statics :=
  HttpConn.mkStatics false "/srv/resources" 1 [].

(** A request for [/] that arrives in two reads. *)
Definition chunk1 : list ascii := bytes ("GET / HTTP/1.1" ++ CRLF).
Definition chunk2 : list ascii := bytes ("Host: x" ++ CRLF ++ CRLF).

Definition fresh_request : HttpRequest.HttpRequest :=
  HttpConn.request_ HttpConn.new_conn.

(** The connection after the first read. *)
Definition conn_after_read1 : HttpConn.HttpConn :=
  HttpConn.set_readBuff (Buffer.Append chunk1 Buffer.new_buffer)
    {| HttpConn.fd_ := 5; HttpConn.addr_ := (0, 0);
       HttpConn.isClose_ := false; HttpConn.iovCnt_ := 0;
       HttpConn.iov_ := (HttpConn.mkIovec 0 0, HttpConn.mkIovec 0 0);
       HttpConn.readBuff_ := Buffer.new_buffer;
       HttpConn.writeBuff_ := Buffer.new_buffer;
       HttpConn.request_ := fresh_request;
       HttpConn.response_ := HttpResponse.new_response |}.

(** [parse] on the first piece, and on both pieces at once. *)
Definition first_call : bool * HttpRequest.HttpRequest * Buffer.Buffer :=
  HttpRequest.parse default_html nobody
    (Buffer.Append chunk1 Buffer.new_buffer) fresh_request.

Definition whole_call : bool * HttpRequest.HttpRequest * Buffer.Buffer :=
  HttpRequest.parse default_html nobody
    (Buffer.Append chunk2 (Buffer.Append chunk1 Buffer.new_buffer))
    fresh_request.

(** The timer of a server with its first clients: two connections
    accepted, the second with the shorter timeout; the second postponed;
    a tick; and the second closed through [doWork]. *)
Definition first_clients : list (HeapTimer.Op nat) :=
  [HeapTimer.OpAdd 5 60000 5%nat; HeapTimer.OpAdd 7 2000 7%nat;
   HeapTimer.OpAdjust 7 3000; HeapTimer.OpTick; HeapTimer.OpDoWork 7].

(** Memory before the vector whose word, read as a deadline, is zero:
    not later than any deadline. *)
Definition zero_before_buffer
  : HeapTimer.World nat -> option HeapTimer.TimeStamp :=
  fun _ => Some 0.

(** * Properties *)

(** ** Machine integers *)

Lemma wrap_size_small (z : Z) : 0 <= z < 2 ^ 64 -> wrap_size z = z.
Proof. intros H. unfold wrap_size. now apply Z.mod_small. Qed.

Lemma wrap_size_neg (z : Z) : - 2 ^ 64 <= z < 0 -> wrap_size z = z + 2 ^ 64.
Proof.
  intros H. unfold wrap_size.
  symmetry. apply (Z.mod_unique z (2 ^ 64) (-1) (z + 2 ^ 64)); lia.
Qed.

Lemma wrap_int_small (z : Z) : - 2 ^ 31 <= z < 2 ^ 31 -> wrap_int z = z.
Proof.
  intros H. unfold wrap_int. rewrite Z.mod_small; lia.
Qed.

Lemma wrap_int_shift (z k : Z) : wrap_int (z + k * 2 ^ 64) = wrap_int z.
Proof.
  unfold wrap_int.
  replace (z + k * 2 ^ 64 + 2 ^ 31) with (z + 2 ^ 31 + (k * 2 ^ 32) * 2 ^ 32)
    by (change (2 ^ 64) with (2 ^ 32 * 2 ^ 32); ring).
  now rewrite Z_mod_plus_full.
Qed.

(** Converting a [long] to [size_t] and on to [int] gives the value back
    when it is in the range of [int]. *)
Lemma wrap_int_wrap_size (z : Z) :
  - 2 ^ 31 <= z < 2 ^ 31 -> wrap_int (wrap_size z) = z.
Proof.
  intros H. destruct (Z.neg_nonneg_cases z) as [Hz | Hz].
  - rewrite wrap_size_neg by lia.
    replace (z + 2 ^ 64) with (z + 1 * 2 ^ 64) by ring.
    rewrite wrap_int_shift. now apply wrap_int_small.
  - rewrite wrap_size_small by lia. now apply wrap_int_small.
Qed.

Lemma wrap_size_nonneg (z : Z) : 0 <= wrap_size z.
Proof. unfold wrap_size. apply Z.mod_pos_bound. lia. Qed.

(** ** HttpConn::Close *)

(** C9. [HttpConn::Close] marks the connection closed and decrements
    [userCount] when the connection was open, and leaves [userCount]
    alone when it was closed already; a second [Close] changes nothing
    at all, so neither [userCount] nor the closed flag. *)
Theorem Close_idempotent :
  forall (s : HttpConn.Statics) (c : HttpConn.HttpConn),
    let sc1 := HttpConn.Close (s, c) in
    HttpConn.isClose_ (snd sc1) = true
    /\ HttpConn.userCount (fst sc1)
       = (if HttpConn.isClose_ c then HttpConn.userCount s
          else wrap_int (HttpConn.userCount s - 1))
    /\ HttpConn.Close sc1 = sc1.
Proof.
  intros s c. unfold HttpConn.Close. cbn zeta.
  destruct c as [fd addr closed cnt iov rb wb req resp]. cbn.
  destruct closed; cbn.
  - repeat split.
    destruct resp as [code ka p sd mm st]; destruct mm; reflexivity.
  - repeat split.
    destruct resp as [code ka p sd mm st]; destruct mm; reflexivity.
Qed.

(** ** The reactor's user table *)

Lemma AddClient_ok (fd : Z) (addr : HttpConn.sockaddr_in)
  (ws : WebServer.WebServer) :
  0 < fd ->
  exists ws' conn,
    WebServer.AddClient_ fd addr ws = Ok ws'
    /\ WebServer.users_ ws' = <[fd := conn]> (WebServer.users_ ws)
    /\ HttpConn.isClose_ conn = false.
Proof.
  intros Hfd. unfold WebServer.AddClient_, HttpConn.init.
  destruct (Z.ltb_spec 0 fd) as [_ | ?]; [cbn | lia].
  eexists _, _. repeat split.
Qed.

Lemma Close_marks_closed (s : HttpConn.Statics) (c : HttpConn.HttpConn) :
  HttpConn.isClose_ (snd (HttpConn.Close (s, c))) = true.
Proof.
  unfold HttpConn.Close, HttpConn.set_response. cbn.
  destruct (HttpConn.isClose_ c) eqn:E; cbn; [| reflexivity].
  first [exact E | reflexivity].
Qed.

Lemma CloseConn_ok (client : Z) (conn : HttpConn.HttpConn)
  (ws : WebServer.WebServer) :
  WebServer.users_ ws !! client = Some conn ->
  exists ws' conn',
    WebServer.CloseConn_ client ws = Ok ws'
    /\ WebServer.users_ ws' = <[client := conn']> (WebServer.users_ ws)
    /\ HttpConn.isClose_ conn' = true.
Proof.
  intros Hc. unfold WebServer.CloseConn_. rewrite Hc.
  pose proof (Close_marks_closed (WebServer.statics ws) conn) as Hcl.
  destruct (HttpConn.Close (WebServer.statics ws, conn)) as [s conn'] eqn:E.
  eexists _, conn'. repeat split. exact Hcl.
Qed.

Lemma is_open_insert (fd k : Z) (conn : HttpConn.HttpConn)
  (ws ws' : WebServer.WebServer) :
  WebServer.users_ ws' = <[k := conn]> (WebServer.users_ ws) ->
  WebServer.is_open fd ws'
  = if k =? fd then negb (HttpConn.isClose_ conn) else WebServer.is_open fd ws.
Proof.
  intros Hu. unfold WebServer.is_open. rewrite Hu.
  destruct (Z.eqb_spec k fd) as [-> | Hne].
  - now rewrite lookup_insert_eq.
  - now rewrite lookup_insert_ne.
Qed.

Lemma present_insert (fd k : Z) (conn : HttpConn.HttpConn)
  (u : gmap Z HttpConn.HttpConn) :
  is_Some (<[k := conn]> u !! fd) <-> is_Some (u !! fd) \/ k = fd.
Proof.
  destruct (decide (k = fd)) as [-> | Hne].
  - rewrite lookup_insert_eq. split; eauto.
  - rewrite lookup_insert_ne by done. split; [eauto | intros [? | ?]; done].
Qed.

(** C6, as the code has it. Whenever the operations can be made (each
    descriptor positive, each client pointer into the table) they run to
    the end, and then: a key is in [users_] exactly when it was there
    before or [AddClient_] was called for it, so [CloseConn_] removes
    nothing; and the connection for a key is open exactly when the last
    operation on that key was [AddClient_]. *)
Theorem users_table_after_run :
  forall (ops : list WebServer.Op) (ws0 : WebServer.WebServer),
    WebServer.valid_ops (dom (WebServer.users_ ws0)) ops = true ->
    exists ws,
      WebServer.run ops ws0 = Ok ws
      /\ forall fd : Z,
           (is_Some (WebServer.users_ ws !! fd)
            <-> is_Some (WebServer.users_ ws0 !! fd)
                \/ WebServer.added fd ops = true)
           /\ WebServer.is_open fd ws
              = WebServer.open_after fd ops (WebServer.is_open fd ws0).
Proof.
  induction ops as [| o ops IH]; intros ws0 Hv.
  - exists ws0. split; [reflexivity |]. intros fd. cbn. split; [| reflexivity].
    split; [eauto | intros [? | ?]; [done | discriminate]].
  - destruct o as [fd0 addr | client]; cbn in Hv;
      apply andb_true_iff in Hv; destruct Hv as [Hh Hv].
    + apply Z.ltb_lt in Hh.
      destruct (AddClient_ok fd0 addr ws0 Hh) as (ws1 & conn & Hrun & Hu & Hop).
      destruct (IH ws1) as (ws & Hr & Hinv).
      { rewrite Hu, dom_insert_L. exact Hv. }
      exists ws. split; [cbn; rewrite Hrun; exact Hr |].
      intros fd. destruct (Hinv fd) as [Hp Ho]. split.
      * rewrite Hp, Hu, present_insert. cbn.
        rewrite orb_true_iff, Z.eqb_eq. tauto.
      * rewrite Ho. cbn. f_equal.
        rewrite (is_open_insert fd fd0 conn ws0 ws1 Hu), Hop. reflexivity.
    + apply bool_decide_eq_true in Hh. apply elem_of_dom in Hh as [conn Hc].
      destruct (CloseConn_ok client conn ws0 Hc)
        as (ws1 & conn' & Hrun & Hu & Hcl).
      destruct (IH ws1) as (ws & Hr & Hinv).
      { rewrite Hu, dom_insert_L.
        replace ({[client]} ∪ dom (WebServer.users_ ws0))
          with (dom (WebServer.users_ ws0)); [exact Hv |].
        apply elem_of_dom_2 in Hc. symmetry.
        apply subseteq_union_1_L, singleton_subseteq_l, Hc. }
      exists ws. split; [cbn; rewrite Hrun; exact Hr |].
      intros fd. destruct (Hinv fd) as [Hp Ho]. split.
      * rewrite Hp, Hu, present_insert. cbn.
        split; [intros [[? | ->] | ?]; eauto | tauto].
      * rewrite Ho. cbn. f_equal.
        rewrite (is_open_insert fd client conn' ws0 ws1 Hu), Hcl. reflexivity.
Qed.

Lemma users_table_after_run_witness :
  exists ws,
    WebServer.run [WebServer.OpAddClient 5 (0, 0); WebServer.OpCloseConn 5;
                   WebServer.OpAddClient 7 (0, 0)] server0 = Ok ws
    /\ forall fd : Z,
         (is_Some (WebServer.users_ ws !! fd)
          <-> is_Some (WebServer.users_ server0 !! fd)
              \/ WebServer.added fd
                   [WebServer.OpAddClient 5 (0, 0); WebServer.OpCloseConn 5;
                    WebServer.OpAddClient 7 (0, 0)] = true)
         /\ WebServer.is_open fd ws
            = WebServer.open_after fd
                [WebServer.OpAddClient 5 (0, 0); WebServer.OpCloseConn 5;
                 WebServer.OpAddClient 7 (0, 0)]
                (WebServer.is_open fd server0).
Proof.
  apply (users_table_after_run
           [WebServer.OpAddClient 5 (0, 0); WebServer.OpCloseConn 5;
            WebServer.OpAddClient 7 (0, 0)] server0).
  vm_compute. reflexivity.
Defined.

(** C6 as stated fails: after [AddClient_(5, _)] and
    [CloseConn_(&users_[5])] the key 5 is still in the table and its
    connection is closed. *)
Lemma closed_connection_stays_in_table :
  exists ws conn,
    WebServer.run [WebServer.OpAddClient 5 (0, 0); WebServer.OpCloseConn 5]
      server0 = Ok ws
    /\ WebServer.users_ ws !! 5 = Some conn
    /\ HttpConn.isClose_ conn = true
    /\ ~ WebServer.present_iff_open ws.
Proof.
  eexists _, _. split; [vm_compute; reflexivity |].
  split; [vm_compute; reflexivity |]. split; [reflexivity |].
  intros H. specialize (H 5). destruct H as [H _].
  vm_compute in H. specialize (H (ex_intro _ _ eq_refl)). discriminate H.
Qed.

(** ** The reactor's modes, listener and counters *)

(** X14. [InitEventMode_]: connections are edge-triggered for every
    [trigMode] but 0 and 2, the listener for every one but 0 and 1 (so a
    value outside 0..3 makes both edge-triggered); connections are
    always one-shot, both always report the peer's hang-up, and neither
    asks for readiness itself. *)
Theorem InitEventMode_modes (trigMode : Z) :
  let listenEvent := fst (fst (WebServer.InitEventMode_ trigMode)) in
  let connEvent := snd (fst (WebServer.InitEventMode_ trigMode)) in
  let isET := snd (WebServer.InitEventMode_ trigMode) in
  isET = negb ((trigMode =? 0) || (trigMode =? 2))
  /\ negb (Z.land listenEvent WebServer.EPOLLET =? 0)
     = negb ((trigMode =? 0) || (trigMode =? 1))
  /\ Z.land connEvent WebServer.EPOLLONESHOT = WebServer.EPOLLONESHOT
  /\ Z.land listenEvent WebServer.EPOLLONESHOT = 0
  /\ Z.land connEvent WebServer.EPOLLRDHUP = WebServer.EPOLLRDHUP
  /\ Z.land listenEvent WebServer.EPOLLRDHUP = WebServer.EPOLLRDHUP
  /\ Z.land connEvent (Z.lor WebServer.EPOLLIN WebServer.EPOLLOUT) = 0
  /\ Z.land listenEvent (Z.lor WebServer.EPOLLIN WebServer.EPOLLOUT) = 0.
Proof.
  cbn zeta. unfold WebServer.InitEventMode_.
  destruct (Z.eqb_spec trigMode 0) as [-> | H0];
    [vm_compute; repeat split |].
  destruct (Z.eqb_spec trigMode 1) as [-> | H1];
    [vm_compute; repeat split |].
  destruct (Z.eqb_spec trigMode 2) as [-> | H2];
    [vm_compute; repeat split |].
  vm_compute. repeat split.
Qed.

Lemma AddClient_statics (fd : Z) (addr : HttpConn.sockaddr_in)
  (ws ws' : WebServer.WebServer) :
  WebServer.AddClient_ fd addr ws = Ok ws' ->
  0 < fd
  /\ HttpConn.userCount (WebServer.statics ws')
     = wrap_int (HttpConn.userCount (WebServer.statics ws) + 1)
  /\ HttpConn.closed_fds (WebServer.statics ws')
     = HttpConn.closed_fds (WebServer.statics ws)
  /\ exists conn,
       WebServer.users_ ws' = <[fd := conn]> (WebServer.users_ ws)
       /\ HttpConn.isClose_ conn = false.
Proof.
  unfold WebServer.AddClient_, HttpConn.init.
  destruct (Z.ltb_spec 0 fd) as [Hfd | ?]; [cbn | discriminate].
  intros [= <-]. cbn. split; [exact Hfd |]. split; [reflexivity |].
  split; [reflexivity |]. eexists. split; reflexivity.
Qed.


Lemma size_pos_of_lookup {A : Type} (m : gmap Z A) (k : Z) (x : A) :
  m !! k = Some x -> (0 < size m)%nat.
Proof.
  intros Hl. destruct (decide (size m = 0%nat)) as [E | ?]; [| lia].
  apply map_size_empty_inv in E. rewrite E, lookup_empty in Hl.
  discriminate Hl.
Qed.

Lemma open_count_insert_open (k : Z) (conn : HttpConn.HttpConn)
  (ws ws' : WebServer.WebServer) :
  WebServer.users_ ws' = <[k := conn]> (WebServer.users_ ws) ->
  HttpConn.isClose_ conn = false -> WebServer.is_open k ws = false ->
  WebServer.open_count ws' = WebServer.open_count ws + 1.
Proof.
  intros Hu Hopen Hwas. unfold WebServer.open_count. rewrite Hu.
  rewrite map_filter_insert_True by exact Hopen.
  rewrite map_size_insert_None; [lia |].
  apply map_lookup_filter_None. unfold WebServer.is_open in Hwas.
  destruct (WebServer.users_ ws !! k) as [c |]; [right | left; reflexivity].
  intros x [= <-]. cbn. destruct (HttpConn.isClose_ c); [discriminate | discriminate Hwas].
Qed.

Lemma open_count_insert_closed (k : Z) (conn : HttpConn.HttpConn)
  (ws ws' : WebServer.WebServer) :
  WebServer.users_ ws' = <[k := conn]> (WebServer.users_ ws) ->
  HttpConn.isClose_ conn = true ->
  WebServer.open_count ws'
  = WebServer.open_count ws - (if WebServer.is_open k ws then 1 else 0).
Proof.
  intros Hu Hclosed. unfold WebServer.open_count. rewrite Hu.
  rewrite map_filter_insert_False by (cbn; rewrite Hclosed; discriminate).
  rewrite map_filter_delete, map_size_delete. unfold WebServer.is_open.
  destruct (WebServer.users_ ws !! k) as [c |] eqn:Ec.
  - destruct (HttpConn.isClose_ c) eqn:Eo; cbn [negb].
    + replace (filter _ (WebServer.users_ ws) !! k) with (@None HttpConn.HttpConn);
        [cbn; lia |].
      symmetry. apply map_lookup_filter_None. right. intros x Hx.
      rewrite Ec in Hx. injection Hx as <-. cbn. rewrite Eo. discriminate.
    + assert (Hin : filter (fun kc : Z * HttpConn.HttpConn =>
                             HttpConn.isClose_ (snd kc) = false)
                      (WebServer.users_ ws) !! k = Some c).
      { apply map_lookup_filter_Some. split; [exact Ec | exact Eo]. }
      rewrite Hin. pose proof (size_pos_of_lookup _ _ _ Hin). cbn. lia.
  - replace (filter _ (WebServer.users_ ws) !! k) with (@None HttpConn.HttpConn);
      [cbn; lia |].
    symmetry. apply map_lookup_filter_None. left. exact Ec.
Qed.

Lemma CloseConn_statics (client : Z) (ws ws' : WebServer.WebServer) :
  WebServer.CloseConn_ client ws = Ok ws' ->
  exists conn conn',
    WebServer.users_ ws !! client = Some conn
    /\ WebServer.users_ ws' = <[client := conn']> (WebServer.users_ ws)
    /\ HttpConn.isClose_ conn' = true
    /\ HttpConn.userCount (WebServer.statics ws')
       = (if HttpConn.isClose_ conn
          then HttpConn.userCount (WebServer.statics ws)
          else wrap_int (HttpConn.userCount (WebServer.statics ws) - 1))
    /\ HttpConn.closed_fds (WebServer.statics ws')
       = (if HttpConn.isClose_ conn
          then HttpConn.closed_fds (WebServer.statics ws)
          else HttpConn.closed_fds (WebServer.statics ws)
               ++ [HttpConn.fd_ conn]).
Proof.
  unfold WebServer.CloseConn_.
  destruct (WebServer.users_ ws !! client) as [conn |]; [| discriminate].
  unfold HttpConn.Close, HttpConn.set_response. cbn.
  destruct (HttpConn.isClose_ conn) eqn:Ec; cbn; intros [= <-]; cbn;
    eexists _, _; repeat split;
      first [reflexivity | rewrite Ec; reflexivity | exact Ec].
Qed.

Lemma open_count_le_size (ws : WebServer.WebServer) :
  0 <= WebServer.open_count ws <= Z.of_nat (size (WebServer.users_ ws)).
Proof.
  unfold WebServer.open_count. split; [lia |].
  apply inj_le, map_subseteq_size, map_filter_subseteq.
Qed.

Lemma step_counted (o : WebServer.Op) (ws ws' : WebServer.WebServer) :
  WebServer.counted ws ->
  Z.of_nat (size (WebServer.users_ ws)) + 1 < 2 ^ 31 ->
  match o with
  | WebServer.OpAddClient fd _ => WebServer.is_open fd ws = false
  | WebServer.OpCloseConn _ => True
  end ->
  WebServer.step o ws = Ok ws' ->
  WebServer.counted ws'
  /\ (size (WebServer.users_ ws') <= S (size (WebServer.users_ ws)))%nat.
Proof.
  unfold WebServer.counted. intros Hc Hsz Hfresh Hstep.
  pose proof (open_count_le_size ws) as Hle.
  destruct o as [fd addr | client]; cbn [WebServer.step] in Hstep.
  - destruct (AddClient_statics fd addr ws ws' Hstep)
      as (_ & Huc & _ & conn & Hu & Hopen).
    rewrite Huc, Hc, wrap_int_small by lia.
    rewrite (open_count_insert_open fd conn ws ws' Hu Hopen Hfresh).
    split; [reflexivity |]. rewrite Hu, map_size_insert.
    destruct (WebServer.users_ ws !! fd); cbn; lia.
  - destruct (CloseConn_statics client ws ws' Hstep)
      as (conn & conn' & Hl & Hu & Hcl & Huc & _).
    rewrite Huc, (open_count_insert_closed client conn' ws ws' Hu Hcl).
    unfold WebServer.is_open. rewrite Hl.
    split.
    + destruct (HttpConn.isClose_ conn) eqn:Ec; cbn [negb]; [lia |].
      rewrite Hc. apply wrap_int_small.
      assert (0 < WebServer.open_count ws); [| lia].
      unfold WebServer.open_count.
      assert (Hin : filter (fun kc : Z * HttpConn.HttpConn =>
                             HttpConn.isClose_ (snd kc) = false)
                      (WebServer.users_ ws) !! client = Some conn).
      { apply map_lookup_filter_Some. split; [exact Hl | exact Ec]. }
      pose proof (size_pos_of_lookup _ _ _ Hin). lia.
    + rewrite Hu, map_size_insert, Hl. cbn. lia.
Qed.

(** X16. [HttpConn::userCount] counts the open connections: when it does
    before a run of [AddClient_] and [CloseConn_] in which every
    descriptor accepted is one whose connection is not open, it does
    after the run; closing a connection twice does not count twice. *)
Theorem userCount_counts_open (ops : list WebServer.Op) :
  forall ws ws' : WebServer.WebServer,
    WebServer.counted ws ->
    Z.of_nat (size (WebServer.users_ ws)) + Z.of_nat (length ops) < 2 ^ 31 ->
    WebServer.adds_fresh ops ws ->
    WebServer.run ops ws = Ok ws' ->
    WebServer.counted ws'.
Proof.
  induction ops as [| o ops IH]; intros ws ws' Hc Hsz Hfresh Hrun.
  - injection Hrun as <-. exact Hc.
  - cbn [WebServer.run] in Hrun. cbn [length] in Hsz.
    destruct (WebServer.step o ws) as [ws1 | f] eqn:Estep; [| discriminate Hrun].
    cbn [bind] in Hrun. destruct Hfresh as [Ho Hrest].
    destruct (step_counted o ws ws1 Hc ltac:(lia) Ho Estep) as [Hc1 Hs1].
    apply (IH ws1 ws'); [exact Hc1 | lia | now apply Hrest | exact Hrun].
Qed.

(** ** The blocking queue *)

Section BlockQueueFacts.

Context {T : Type}.

Implicit Type q : BlockQueue.BlockQueue T.

(** The timed [pop] does what the header promises: woken on a closed
    queue, or on a timeout, it returns [false]. *)
Lemma pop_timed_wake_closed q (st : BlockQueue.cv_status) :
  BlockQueue.pop_timed_wake st (BlockQueue.Close q)
  = (BlockQueue.Close q, BlockQueue.Returned false None).
Proof. destruct st; reflexivity. Qed.

(** The untimed [pop] has one [return], and it returns [true]. *)
Lemma pop_returns_true q q' (ret : bool) (item : option T) :
  BlockQueue.pop q = (q', BlockQueue.Returned ret item) -> ret = true.
Proof.
  unfold BlockQueue.pop. destruct (BlockQueue.deq_ q); intros H.
  - discriminate H.
  - now inversion H.
Qed.

(** C2 on the code: the untimed [pop] called on a closed queue goes to
    sleep, and a consumer asleep in it stays asleep however often
    [Close]'s [notify_all] (or anything else) wakes it: the loop only
    tests [deq_.empty()], which [Close] has made true. It never returns
    [false]. *)
Theorem pop_on_closed_queue_blocks :
  forall q (n : nat),
    BlockQueue.pop (BlockQueue.Close q)
    = (BlockQueue.Close q, BlockQueue.Blocked)
    /\ BlockQueue.pop_woken n (BlockQueue.Close q)
       = (BlockQueue.Close q, BlockQueue.Blocked).
Proof.
  intros q n. split; [reflexivity |].
  induction n as [| n IH]; [reflexivity |]. cbn. exact IH.
Qed.

End BlockQueueFacts.

(** ** The blocking queue, as producers and consumers see it *)

Section BlockQueueOrderFacts.

Context {T : Type}.

Implicit Type q : BlockQueue.BlockQueue T.

Lemma push_back_all_spec (xs : list T) :
  forall q,
    BlockQueue.size q <= BlockQueue.capacity_ q ->
    let k := Z.to_nat (BlockQueue.capacity_ q - BlockQueue.size q) in
    BlockQueue.push_back_all xs q
    = ({| BlockQueue.deq_ := BlockQueue.deq_ q ++ take k xs;
          BlockQueue.isClose_ := BlockQueue.isClose_ q;
          BlockQueue.capacity_ := BlockQueue.capacity_ q |},
       drop k xs).
Proof.
  induction xs as [| x xs IH]; intros [d cl cap] Hle;
    unfold BlockQueue.size, vec_size in *; cbn [BlockQueue.deq_
      BlockQueue.isClose_ BlockQueue.capacity_] in *; cbn zeta.
  - cbn [BlockQueue.push_back_all]. rewrite take_nil, drop_nil, app_nil_r.
    reflexivity.
  - cbn [BlockQueue.push_back_all]. unfold BlockQueue.push_back, vec_size.
    cbn [BlockQueue.deq_ BlockQueue.isClose_ BlockQueue.capacity_].
    destruct (Z.leb_spec cap (Z.of_nat (length d))) as [Hfull | Hroom].
    + replace (Z.to_nat (cap - Z.of_nat (length d))) with O by lia.
      rewrite take_0, drop_0, app_nil_r. reflexivity.
    + rewrite IH;
        unfold BlockQueue.size, vec_size;
        cbn [BlockQueue.deq_ BlockQueue.isClose_ BlockQueue.capacity_];
        rewrite ?length_app; cbn [length]; [| lia].
      replace (Z.to_nat (cap - Z.of_nat (length d)))
        with (S (Z.to_nat (cap - Z.of_nat (length d + 1)))) by lia.
      cbn [take drop]. rewrite <- app_assoc. reflexivity.
Qed.

Lemma pop_all_spec (d : list T) (cl : bool) (cap : Z) :
  BlockQueue.pop_all (length d)
    {| BlockQueue.deq_ := d; BlockQueue.isClose_ := cl;
       BlockQueue.capacity_ := cap |}
  = (d, {| BlockQueue.deq_ := []; BlockQueue.isClose_ := cl;
           BlockQueue.capacity_ := cap |}).
Proof.
  induction d as [| x d IH]; [reflexivity |].
  cbn [length BlockQueue.pop_all]. unfold BlockQueue.pop.
  cbn [BlockQueue.deq_ BlockQueue.isClose_ BlockQueue.capacity_].
  now rewrite IH.
Qed.

(** X11. A producer pushing [xs] at the back of a queue within its capacity
    gets as far as the capacity allows and then has to wait, with the
    rest not pushed; a consumer then popping gets what the queue held
    followed by what was pushed, in the order pushed, and leaves the
    queue empty. Nothing is lost, repeated or reordered. *)
Theorem push_back_pop_fifo (xs : list T) q :
  BlockQueue.size q <= BlockQueue.capacity_ q ->
  let k := Z.to_nat (BlockQueue.capacity_ q - BlockQueue.size q) in
  let q1 := fst (BlockQueue.push_back_all xs q) in
  snd (BlockQueue.push_back_all xs q) = drop k xs
  /\ BlockQueue.pop_all (length (BlockQueue.deq_ q1)) q1
     = (BlockQueue.deq_ q ++ take k xs,
        {| BlockQueue.deq_ := []; BlockQueue.isClose_ := BlockQueue.isClose_ q;
           BlockQueue.capacity_ := BlockQueue.capacity_ q |})
  /\ BlockQueue.size q1 <= BlockQueue.capacity_ q.
Proof.
  intros Hle k q1. unfold q1. rewrite (push_back_all_spec xs q Hle). fold k.
  cbn [fst snd BlockQueue.deq_]. split; [reflexivity |].
  split; [apply pop_all_spec |].
  unfold BlockQueue.size, vec_size in *. cbn [BlockQueue.deq_].
  rewrite length_app, length_take. lia.
Qed.

Lemma step_within_capacity (o : BlockQueue.Op T) q :
  BlockQueue.size q <= BlockQueue.capacity_ q ->
  BlockQueue.size (BlockQueue.step o q) <= BlockQueue.capacity_ q
  /\ BlockQueue.capacity_ (BlockQueue.step o q) = BlockQueue.capacity_ q
  /\ (BlockQueue.isClose_ q = true ->
      BlockQueue.isClose_ (BlockQueue.step o q) = true).
Proof.
  destruct q as [d cl cap]. unfold BlockQueue.size, vec_size.
  cbn [BlockQueue.deq_ BlockQueue.isClose_ BlockQueue.capacity_]. intros Hle.
  destruct o as [x | x | | | st | | |]; cbn [BlockQueue.step].
  - unfold BlockQueue.push_back, vec_size. cbn.
    destruct (Z.leb_spec cap (Z.of_nat (length d))); cbn;
      rewrite ?length_app; cbn; auto with lia.
  - unfold BlockQueue.push_front, vec_size. cbn.
    destruct (Z.leb_spec cap (Z.of_nat (length d))); cbn; auto with lia.
  - unfold BlockQueue.pop. destruct d; cbn in *; auto with lia.
  - unfold BlockQueue.pop_timed. destruct d; cbn in *; auto with lia.
  - unfold BlockQueue.pop_timed_wake, BlockQueue.pop_timed.
    destruct st; cbn; [| auto with lia].
    destruct cl; cbn; [auto with lia |]. destruct d; cbn in *; auto with lia.
  - cbn. auto with lia.
  - cbn. auto with lia.
  - cbn. auto with lia.
Qed.

(** X12. Whatever calls are made on a queue that is within its capacity, in
    whatever order, it stays within its capacity, its capacity does not
    change, and once closed it is not opened again. *)
Theorem queue_stays_within_capacity (ops : list (BlockQueue.Op T)) q :
  BlockQueue.size q <= BlockQueue.capacity_ q ->
  BlockQueue.size (BlockQueue.run ops q) <= BlockQueue.capacity_ q
  /\ BlockQueue.capacity_ (BlockQueue.run ops q) = BlockQueue.capacity_ q
  /\ (BlockQueue.isClose_ q = true ->
      BlockQueue.isClose_ (BlockQueue.run ops q) = true).
Proof.
  revert q. induction ops as [| o ops IH]; intros q Hle; [auto with lia |].
  unfold BlockQueue.run. cbn [foldl]. fold (BlockQueue.run ops (BlockQueue.step o q)).
  destruct (step_within_capacity o q Hle) as (H1 & H2 & H3).
  destruct (IH (BlockQueue.step o q)) as (I1 & I2 & I3); [lia |].
  split; [lia |]. split; [congruence | auto].
Qed.

End BlockQueueOrderFacts.

(** ** The worker threads of the pool *)

Section ThreadPoolFacts.

Context {Task : Type}.

Implicit Type p : ThreadPool.Pool Task.

Lemma worker_run_queue (ts : list Task) (closed : bool) :
  forall fuel : nat,
    (length ts < fuel)%nat ->
    ThreadPool.worker_run fuel
      {| ThreadPool.isClosed := closed; ThreadPool.tasks := ts |}
    = (ts, {| ThreadPool.isClosed := closed; ThreadPool.tasks := [] |},
       Some (if closed then ThreadPool.Exit else ThreadPool.Wait)).
Proof.
  induction ts as [| t ts IH]; intros [| fuel] Hfuel; cbn [length] in Hfuel;
    try lia.
  - cbn. destruct closed; reflexivity.
  - cbn [ThreadPool.worker_run]. unfold ThreadPool.worker_turn.
    cbn [ThreadPool.tasks ThreadPool.isClosed]. rewrite IH by lia.
    reflexivity.
Qed.

Lemma tasks_after_AddTask (ts : list Task) p :
  foldl (fun p t => ThreadPool.AddTask t p) p ts
  = {| ThreadPool.isClosed := ThreadPool.isClosed p;
       ThreadPool.tasks := ThreadPool.tasks p ++ ts |}.
Proof.
  revert p. induction ts as [| t ts IH]; intros [cl q]; cbn [foldl].
  - cbn. now rewrite app_nil_r.
  - rewrite IH. unfold ThreadPool.AddTask. cbn. now rewrite <- app_assoc.
Qed.

(** X13. A worker alone with the pool, while the pool lives, runs the
    tasks queued, each once and in the order [AddTask] queued them:
    those the pool held first, then the new ones. With the queue empty
    it waits on [cond_] when the pool is open, and leaves its loop when
    [isClosed] is set. *)
Theorem worker_runs_tasks_in_order (ts : list Task) p :
  let queued := foldl (fun p t => ThreadPool.AddTask t p) p ts in
  ThreadPool.worker_run (S (length (ThreadPool.tasks p ++ ts))) queued
  = (ThreadPool.tasks p ++ ts,
     {| ThreadPool.isClosed := ThreadPool.isClosed p;
        ThreadPool.tasks := [] |},
     Some (if ThreadPool.isClosed p then ThreadPool.Exit
           else ThreadPool.Wait)).
Proof.
  cbn zeta. rewrite tasks_after_AddTask.
  apply worker_run_queue. lia.
Qed.

End ThreadPoolFacts.

Lemma push_back_pop_fifo_witness :
  snd (BlockQueue.push_back_all [3; 4; 5]
         (BlockQueue.mkBlockQueue [1; 2] false 4)) = [5]
  /\ BlockQueue.pop_all 4
       (fst (BlockQueue.push_back_all [3; 4; 5]
               (BlockQueue.mkBlockQueue [1; 2] false 4)))
     = ([1; 2; 3; 4], BlockQueue.mkBlockQueue [] false 4).
Proof.
  destruct (push_back_pop_fifo [3; 4; 5]
              (BlockQueue.mkBlockQueue [1; 2] false 4)) as (H1 & H2 & _).
  - vm_compute. discriminate.
  - split; [exact H1 | exact H2].
Defined.

Lemma queue_stays_within_capacity_witness :
  BlockQueue.size
    (BlockQueue.run
       [BlockQueue.OpPushBack 1; BlockQueue.OpPushFront 2;
        BlockQueue.OpPushBack 3; BlockQueue.OpClose; BlockQueue.OpPushBack 4;
        BlockQueue.OpPop]
       (BlockQueue.mkBlockQueue [] false 2)) <= 2.
Proof.
  refine (proj1 (queue_stays_within_capacity
                   [BlockQueue.OpPushBack 1; BlockQueue.OpPushFront 2;
                    BlockQueue.OpPushBack 3; BlockQueue.OpClose;
                    BlockQueue.OpPushBack 4; BlockQueue.OpPop]
                   (BlockQueue.mkBlockQueue [] false 2) _)).
  vm_compute. discriminate.
Defined.

(** ** The timer *)

Section HeapTimerFacts.

Context {CB : Type}.

Variable clock : nat -> Z.

Implicit Type t : HeapTimer.HeapTimer CB.
Implicit Type w : HeapTimer.World CB.

Lemma parent_of_root : wrap_size (0 - 1) / 2 = HeapTimer.PARENT_OF_ROOT.
Proof. reflexivity. Qed.

Lemma vec_at_past_end {A : Type} (v : list A) (i : Z) :
  vec_size v <= i -> vec_at v i = Crash (OutOfBounds i).
Proof.
  intros H. unfold vec_at, vec_size in *.
  destruct (i <? 0); [reflexivity |].
  destruct (Z.leb_spec (Z.of_nat (length v)) i); [reflexivity | lia].
Qed.

Lemma vec_at_inside {A : Type} (v : list A) (i : Z) :
  0 <= i < vec_size v -> exists x, vec_at v i = Ok x /\ v !! Z.to_nat i = Some x.
Proof.
  intros H. unfold vec_at, vec_size in *.
  destruct (Z.ltb_spec i 0); [lia |].
  destruct (Z.leb_spec (Z.of_nat (length v)) i); [lia |]. cbn.
  destruct (v !! Z.to_nat i) as [x |] eqn:E; [eauto |].
  apply lookup_ge_None in E. lia.
Qed.

(** [siftup_(0)]: [parent = (0 - 1) / 2] in [size_t] is 2^63 - 1, and
    the vector is indexed there. *)
Lemma siftup_at_root t :
  0 < HeapTimer.size t < 2 ^ 63 ->
  HeapTimer.siftup_ 0 t = Crash (OutOfBounds HeapTimer.PARENT_OF_ROOT).
Proof.
  intros [Hpos Hmax]. unfold HeapTimer.siftup_.
  destruct (Z.ltb_spec 0 (HeapTimer.size t)) as [_ | ?]; [| lia].
  cbn [negb]. change (Z.to_nat 0) with O. cbn [HeapTimer.siftup_loop].
  rewrite parent_of_root. change (0 <=? HeapTimer.PARENT_OF_ROOT) with true. cbn iota.
  rewrite vec_at_past_end; [reflexivity |].
  unfold HeapTimer.size, HeapTimer.PARENT_OF_ROOT in *. lia.
Qed.

(** [add] of a first node reaches that call: the node is pushed and
    [siftup_(0)] runs on the one-element heap. *)
Lemma add_first_node w (id0 timeOut : Z) (c : CB) :
  HeapTimer.heap_ (HeapTimer.timer w) = [] ->
  HeapTimer.ref_ (HeapTimer.timer w) !! id0 = None ->
  0 <= id0 ->
  HeapTimer.add clock id0 timeOut c w = Crash (OutOfBounds HeapTimer.PARENT_OF_ROOT).
Proof.
  destruct w as [[h rf] fi rd]. cbn. intros -> Hr Hid. unfold HeapTimer.add.
  destruct (Z.leb_spec 0 id0) as [_ | ?]; [| lia]. cbn [negb].
  cbn [HeapTimer.timer HeapTimer.ref_ HeapTimer.heap_]. rewrite Hr.
  change (HeapTimer.size {| HeapTimer.heap_ := []; HeapTimer.ref_ := rf |})
    with 0.
  rewrite siftup_at_root; [reflexivity | split; reflexivity].
Qed.

(** C10 on the code. [siftup_(0)], on a heap of any size a vector can
    have, indexes the vector at 2^63 - 1, outside it; and [add] of a
    first node into an empty heap makes exactly that call. *)
Theorem siftup_root_reads_out_of_bounds :
  forall t w (id0 timeOut : Z) (c : CB),
    0 < HeapTimer.size t < 2 ^ 63 ->
    HeapTimer.heap_ (HeapTimer.timer w) = [] ->
    HeapTimer.ref_ (HeapTimer.timer w) !! id0 = None ->
    0 <= id0 ->
    HeapTimer.siftup_ 0 t = Crash (OutOfBounds HeapTimer.PARENT_OF_ROOT)
    /\ HeapTimer.add clock id0 timeOut c w
       = Crash (OutOfBounds HeapTimer.PARENT_OF_ROOT).
Proof.
  intros t w id0 timeOut c Ht Hh Hr Hid. split.
  - now apply siftup_at_root.
  - now apply add_first_node.
Qed.

(** The test [res < 0] on a [size_t] is never true. *)
Lemma size_t_never_negative (z : Z) :
  (if wrap_size z <? 0 then 0 else wrap_size z) = wrap_size z.
Proof.
  destruct (Z.ltb_spec (wrap_size z) 0) as [H | _]; [| reflexivity].
  pose proof (wrap_size_nonneg z). lia.
Qed.

(** C3 on the code. When [tick] leaves a root whose deadline the clock
    has passed by the time [GetNextTick] reads it again ([d] whole
    milliseconds ago, [d] negative), the value returned is [d] itself:
    the clamp to 0 tests a [size_t] and never applies. *)
Theorem GetNextTick_negative :
  forall w w1 (front : HeapTimer.TimerNode CB)
         (rest : list (HeapTimer.TimerNode CB)),
    HeapTimer.tick clock w = Ok w1 ->
    HeapTimer.heap_ (HeapTimer.timer w1) = front :: rest ->
    let d := HeapTimer.duration_cast_MS
               (HeapTimer.expires front - clock (HeapTimer.reads w1)) in
    - 2 ^ 31 <= d < 0 ->
    exists w2, HeapTimer.GetNextTick clock w = Ok (d, w2) /\ d < 0.
Proof.
  intros w w1 front rest Ht Hh d Hd. unfold HeapTimer.GetNextTick.
  rewrite Ht. cbn [bind]. rewrite Hh. cbn zeta.
  rewrite size_t_never_negative. fold d.
  rewrite wrap_int_wrap_size by lia. eexists. split; [reflexivity | lia].
Qed.

End HeapTimerFacts.

Lemma GetNextTick_negative_witness :
  exists w2,
    HeapTimer.GetNextTick late_clock one_node_world = Ok (-5, w2) /\ -5 < 0.
Proof.
  apply (GetNextTick_negative late_clock one_node_world
           {| HeapTimer.timer := HeapTimer.timer one_node_world;
              HeapTimer.fired := []; HeapTimer.reads := 1 |}
           (HeapTimer.mkTimerNode 5 (HeapTimer.MS 1000) 5%nat) []).
  - reflexivity.
  - reflexivity.
  - vm_compute. split; [discriminate | reflexivity].
Defined.

Lemma siftup_root_reads_out_of_bounds_witness :
  HeapTimer.siftup_ 0 (HeapTimer.timer one_node_world)
  = Crash (OutOfBounds HeapTimer.PARENT_OF_ROOT)
  /\ HeapTimer.add late_clock 5 60000 5%nat HeapTimer.new_world
     = Crash (OutOfBounds HeapTimer.PARENT_OF_ROOT).
Proof.
  apply (siftup_root_reads_out_of_bounds late_clock
           (HeapTimer.timer one_node_world) HeapTimer.new_world 5 60000 5%nat).
  - vm_compute. split; reflexivity.
  - reflexivity.
  - reflexivity.
  - vm_compute. discriminate.
Defined.

(** The read outside the vector does not need an empty heap: a node
    with an earlier deadline added to a one-node heap sifts up to the
    root, and the loop goes round once more; and [tick] that pops an
    expired root of a two-node heap re-sifts the node it moved to the
    root. *)
Lemma add_earlier_deadline_reads_out_of_bounds :
  HeapTimer.add late_clock 7 0 7%nat one_node_world
  = Crash (OutOfBounds HeapTimer.PARENT_OF_ROOT).
Proof. vm_compute. reflexivity. Qed.

Lemma tick_two_nodes_reads_out_of_bounds :
  HeapTimer.tick late_clock two_node_world
  = Crash (OutOfBounds HeapTimer.PARENT_OF_ROOT).
Proof. vm_compute. reflexivity. Qed.

(** ** The timer's invariant

    The reads outside the vector above all come from a sift-up that
    reaches the root. The rest of the heap code keeps the heap order and
    the exact [ref_] map: wherever an operation returns, the invariant
    that held before it holds after it. *)

Section HeapInvariantFacts.

Import HeapTimer.

Context {CB : Type}.

Implicit Type t : HeapTimer CB.
Implicit Type h : list (TimerNode CB).

Ltac zdiv := unfold parent in *; Z.div_mod_to_equations; lia.

Lemma vec_at_Ok {A : Type} (v : list A) (i : Z) (x : A) :
  vec_at v i = Ok x <-> 0 <= i < vec_size v /\ v !! Z.to_nat i = Some x.
Proof.
  unfold vec_at, vec_size.
  destruct (Z.ltb_spec i 0); cbn.
  - split; [discriminate | lia].
  - destruct (Z.leb_spec (Z.of_nat (length v)) i); cbn.
    + split; [discriminate | lia].
    + destruct (v !! Z.to_nat i) as [y |] eqn:E.
      * split; [intros [= ->]; auto with lia | intros [_ [= ->]]; reflexivity].
      * split; [discriminate | intros [_ ?]; discriminate].
Qed.

Lemma vec_at_lookup {A : Type} (v : list A) (i : Z) :
  0 <= i < vec_size v -> exists x, v !! Z.to_nat i = Some x /\ vec_at v i = Ok x.
Proof.
  intros H. destruct (v !! Z.to_nat i) as [x |] eqn:E.
  - exists x. split; [reflexivity |]. apply vec_at_Ok. auto.
  - apply lookup_ge_None in E. unfold vec_size in H. lia.
Qed.

Lemma SwapNode_Ok t (i j : Z) :
  0 <= i < size t -> 0 <= j < size t ->
  exists ni nj,
    heap_ t !! Z.to_nat i = Some ni /\ heap_ t !! Z.to_nat j = Some nj
    /\ SwapNode_ i j t
       = Ok {| heap_ := swapped (heap_ t) i j ni nj;
               ref_ := <[id ni := j]> (<[id nj := i]> (ref_ t)) |}.
Proof.
  intros Hi Hj. unfold SwapNode_, size in *.
  destruct (vec_at_lookup (heap_ t) i Hi) as (ni & Li & Vi).
  destruct (vec_at_lookup (heap_ t) j Hj) as (nj & Lj & Vj).
  exists ni, nj. repeat split; try assumption.
  destruct (Z.ltb_spec i (vec_size (heap_ t))); [| lia].
  destruct (Z.ltb_spec j (vec_size (heap_ t))); [| lia].
  cbn. rewrite Vi. cbn. rewrite Vj. reflexivity.
Qed.

Lemma lookup_swapped h (i j k : Z) (ni nj : TimerNode CB) :
  0 <= i < vec_size h -> 0 <= j < vec_size h -> 0 <= k ->
  h !! Z.to_nat i = Some ni -> h !! Z.to_nat j = Some nj ->
  swapped h i j ni nj !! Z.to_nat k
  = if k =? j then Some ni else if k =? i then Some nj else h !! Z.to_nat k.
Proof.
  intros Hi Hj Hk Li Lj. unfold swapped, vec_size in *.
  destruct (Z.eqb_spec k j) as [-> | Hkj].
  - rewrite list_lookup_insert_eq; [reflexivity | rewrite length_insert; lia].
  - rewrite list_lookup_insert_ne by lia.
    destruct (Z.eqb_spec k i) as [-> | Hki].
    + rewrite list_lookup_insert_eq; [reflexivity | lia].
    + rewrite list_lookup_insert_ne by lia. reflexivity.
Qed.

Lemma length_swapped h (i j : Z) (ni nj : TimerNode CB) :
  vec_size (swapped h i j ni nj) = vec_size h.
Proof. unfold swapped, vec_size. now rewrite !length_insert. Qed.

Lemma deadline_swapped h (i j k : Z) (ni nj : TimerNode CB) :
  0 <= i < vec_size h -> 0 <= j < vec_size h -> 0 <= k ->
  h !! Z.to_nat i = Some ni -> h !! Z.to_nat j = Some nj ->
  deadline (swapped h i j ni nj) k
  = if k =? j then deadline h i else if k =? i then deadline h j
    else deadline h k.
Proof.
  intros Hi Hj Hk Li Lj. unfold deadline.
  rewrite (lookup_swapped h i j k ni nj) by assumption.
  destruct (k =? j); [now rewrite Li |].
  destruct (k =? i); [now rewrite Lj | reflexivity].
Qed.

Lemma ref_exact_swapped t (i j : Z) (ni nj : TimerNode CB) :
  0 <= i < size t -> 0 <= j < size t ->
  heap_ t !! Z.to_nat i = Some ni -> heap_ t !! Z.to_nat j = Some nj ->
  ref_exact t ->
  ref_exact {| heap_ := swapped (heap_ t) i j ni nj;
               ref_ := <[id ni := j]> (<[id nj := i]> (ref_ t)) |}.
Proof.
  intros Hi Hj Li Lj Hex k x. unfold size in *. cbn.
  rewrite length_swapped.
  assert (Hni : ref_ t !! id ni = Some i).
  { apply Hex. split; [exact Hi |]. now rewrite Li. }
  assert (Hnj : ref_ t !! id nj = Some j).
  { apply Hex. split; [exact Hj |]. now rewrite Lj. }
  split.
  - intros Hl.
    destruct (decide (id ni = k)) as [<- | Hk1].
    + rewrite lookup_insert_eq in Hl. injection Hl as <-.
      split; [exact Hj |].
      rewrite (lookup_swapped _ i j j ni nj) by (assumption || lia).
      now rewrite Z.eqb_refl.
    + rewrite lookup_insert_ne in Hl by done.
      destruct (decide (id nj = k)) as [<- | Hk2].
      * rewrite lookup_insert_eq in Hl. injection Hl as <-.
        split; [exact Hi |].
        rewrite (lookup_swapped _ i j i ni nj) by (assumption || lia).
        destruct (Z.eqb_spec i j) as [-> | _].
        -- rewrite Li in Lj. injection Lj as <-. reflexivity.
        -- now rewrite Z.eqb_refl.
      * rewrite lookup_insert_ne in Hl by done.
        apply Hex in Hl as [Hx Hlk]. split; [exact Hx |].
        rewrite (lookup_swapped _ i j x ni nj) by (assumption || lia).
        destruct (Z.eqb_spec x j) as [-> | _].
        { rewrite Lj in Hlk. cbn in Hlk. congruence. }
        destruct (Z.eqb_spec x i) as [-> | _].
        { rewrite Li in Hlk. cbn in Hlk. congruence. }
        exact Hlk.
  - intros [Hx Hlk].
    rewrite (lookup_swapped _ i j x ni nj) in Hlk by (assumption || lia).
    destruct (Z.eqb_spec x j) as [-> | Hxj].
    + cbn in Hlk. injection Hlk as <-. now rewrite lookup_insert_eq.
    + destruct (Z.eqb_spec x i) as [-> | Hxi].
      * cbn in Hlk. injection Hlk as <-.
        destruct (decide (id ni = id nj)) as [E | E].
        -- rewrite E in Hni. congruence.
        -- rewrite lookup_insert_ne by done. now rewrite lookup_insert_eq.
      * assert (Hr : ref_ t !! k = Some x) by (apply Hex; auto).
        rewrite lookup_insert_ne by congruence.
        rewrite lookup_insert_ne by congruence. exact Hr.
Qed.

Lemma deadline_lookup h (i : Z) (x : TimerNode CB) :
  h !! Z.to_nat i = Some x -> deadline h i = expires x.
Proof. intros H. unfold deadline. now rewrite H. Qed.

Lemma siftup_loop_spec (fuel : nat) :
  forall (i n : Z) t t',
    0 <= i < n -> n <= size t -> size t < SIZE_BOUND ->
    up_hole n i (heap_ t) -> ref_exact t ->
    siftup_loop fuel i (wrap_size (i - 1) / 2) t = Ok t' ->
    heap_ordered n (heap_ t') /\ size t' = size t /\ ref_exact t'
    /\ (forall j : Z, i < j -> heap_ t' !! Z.to_nat j = heap_ t !! Z.to_nat j).
Proof.
  induction fuel as [| fuel IH]; intros i n t t' Hi Hn Hsz Hhole Hex Hrun.
  { discriminate Hrun. }
  unfold SIZE_BOUND in *. cbn [siftup_loop] in Hrun.
  destruct (Z.eq_dec i 0) as [-> | Hi0].
  { (* the root: the parent index is out of the vector *)
    change (wrap_size (0 - 1) / 2) with PARENT_OF_ROOT in Hrun.
    change (0 <=? PARENT_OF_ROOT) with true in Hrun. cbn iota in Hrun.
    rewrite vec_at_past_end in Hrun; [discriminate Hrun |].
    unfold size, PARENT_OF_ROOT in *. lia. }
  assert (Hpar : wrap_size (i - 1) / 2 = parent i).
  { unfold parent. rewrite wrap_size_small by lia. reflexivity. }
  rewrite Hpar in Hrun.
  assert (Hp : 0 <= parent i < i) by zdiv.
  destruct (Z.leb_spec 0 (parent i)) as [_ | ?]; [| lia].
  destruct (vec_at_lookup (heap_ t) (parent i)) as (np & Lp & Vp);
    [unfold size in *; lia |].
  destruct (vec_at_lookup (heap_ t) i) as (ni & Li & Vi);
    [unfold size in *; lia |].
  rewrite Vp in Hrun. cbn [bind] in Hrun. rewrite Vi in Hrun. cbn [bind] in Hrun.
  destruct Hhole as [Hedges Hskip].
  destruct (Z.gtb_spec (expires np) (expires ni)) as [Hgt | Hle].
  - destruct (SwapNode_Ok t i (parent i)) as (ni' & np' & Li' & Lp' & Hsw);
      [lia | lia |].
    rewrite Li in Li'. injection Li' as <-.
    rewrite Lp in Lp'. injection Lp' as <-.
    rewrite Hsw in Hrun. cbn [bind] in Hrun.
    set (t1 := {| heap_ := swapped (heap_ t) i (parent i) ni np;
                  ref_ := <[id ni := parent i]> (<[id np := i]> (ref_ t)) |})
      in *.
    assert (Hsz1 : size t1 = size t) by apply length_swapped.
    assert (Hd : forall k, 0 <= k ->
                  deadline (heap_ t1) k
                  = if k =? parent i then deadline (heap_ t) i
                    else if k =? i then deadline (heap_ t) (parent i)
                    else deadline (heap_ t) k).
    { intros k Hk. apply deadline_swapped; unfold size in *; auto with lia. }
    rewrite (deadline_lookup _ _ _ Li), (deadline_lookup _ _ _ Lp) in Hd.
    assert (Hold : forall k, deadline (heap_ t) k = deadline (heap_ t) k)
      by reflexivity.
    apply (IH (parent i) n t1 t') in Hrun.
    + destruct Hrun as (Ho & Hs & Hr & Hf).
      split; [exact Ho |]. split; [lia |]. split; [exact Hr |].
      intros j Hj. rewrite Hf by lia.
      unfold t1. cbn [heap_].
      rewrite (lookup_swapped _ i (parent i) j ni np);
        unfold size in *; auto with lia.
      destruct (Z.eqb_spec j (parent i)); [lia |].
      destruct (Z.eqb_spec j i); [lia | reflexivity].
    + lia.
    + lia.
    + lia.
    + split.
      * intros j Hj Hjp.
        assert (Hpj : 0 <= parent j < j) by zdiv.
        rewrite (Hd j), (Hd (parent j)) by lia.
        destruct (Z.eqb_spec j (parent i)) as [? | _]; [lia |].
        destruct (Z.eqb_spec j i) as [-> | Hji].
        -- rewrite Z.eqb_refl. lia.
        -- destruct (Z.eqb_spec (parent j) (parent i)) as [Epp | Npp].
           ++ specialize (Hedges j Hj Hji). rewrite Epp in Hedges.
              rewrite (deadline_lookup _ _ _ Lp) in Hedges. lia.
           ++ destruct (Z.eqb_spec (parent j) i) as [Epi | Npi].
              ** specialize (Hskip j Hj Epi ltac:(lia)).
                 rewrite (deadline_lookup _ _ _ Lp) in Hskip. exact Hskip.
              ** apply Hedges; assumption.
      * intros c Hc Hcp Hpos.
        assert (Hpp : 0 <= parent (parent i) < parent i) by zdiv.
        rewrite (Hd c), (Hd (parent (parent i))) by lia.
        destruct (Z.eqb_spec (parent (parent i)) (parent i)); [lia |].
        destruct (Z.eqb_spec (parent (parent i)) i); [lia |].
        destruct (Z.eqb_spec c (parent i)); [zdiv |].
        pose proof (Hedges (parent i) ltac:(lia) ltac:(lia)) as Hpe.
        rewrite (deadline_lookup _ _ _ Lp) in Hpe.
        destruct (Z.eqb_spec c i) as [-> | Hci]; [exact Hpe |].
        pose proof (Hedges c Hc Hci) as Hce. rewrite Hcp in Hce.
        rewrite (deadline_lookup _ _ _ Lp) in Hce. lia.
    + apply ref_exact_swapped; (assumption || lia).
  - injection Hrun as <-. split; [| auto].
    intros j Hj. destruct (Z.eq_dec j i) as [-> | Hji].
    + rewrite (deadline_lookup _ _ _ Li), (deadline_lookup _ _ _ Lp). lia.
    + now apply Hedges.
Qed.

Lemma siftup_spec (i n : Z) t t' :
  0 <= i < n -> n <= size t -> size t < SIZE_BOUND ->
  up_hole n i (heap_ t) -> ref_exact t ->
  siftup_ i t = Ok t' ->
  heap_ordered n (heap_ t') /\ size t' = size t /\ ref_exact t'
  /\ (forall j : Z, i < j -> heap_ t' !! Z.to_nat j = heap_ t !! Z.to_nat j).
Proof.
  intros Hi Hn Hsz Hhole Hex. unfold siftup_.
  destruct (Z.ltb_spec i (size t)); [| lia]. cbn [negb].
  now apply siftup_loop_spec.
Qed.

(** The choice of the smaller child in [siftdown_]. *)
Lemma select_child h (child n : Z) :
  0 <= child < n -> n <= vec_size h -> vec_size h < SIZE_BOUND ->
  exists sel : Z,
    (if wrap_size (child + 1) <? n then
       bind (vec_at h (wrap_size (child + 1)))
         (fun r => bind (vec_at h child)
            (fun l => Ok (if expires r <? expires l
                          then wrap_size (child + 1) else child)))
     else Ok child) = Ok sel
    /\ (sel = child \/ sel = child + 1 /\ child + 1 < n)
    /\ deadline h sel <= deadline h child
    /\ (child + 1 < n -> deadline h sel <= deadline h (child + 1)).
Proof.
  intros Hc Hn Hsz. unfold SIZE_BOUND in *.
  rewrite (wrap_size_small (child + 1)) by lia.
  destruct (Z.ltb_spec (child + 1) n) as [Hr | Hr].
  - destruct (vec_at_lookup h (child + 1)) as (r & Lr & Vr); [lia |].
    destruct (vec_at_lookup h child) as (l & Ll & Vl); [lia |].
    rewrite Vr. cbn [bind]. rewrite Vl. cbn [bind].
    destruct (Z.ltb_spec (expires r) (expires l)) as [Hlt | Hge].
    + exists (child + 1). split; [reflexivity |]. split; [auto |].
      rewrite (deadline_lookup _ _ _ Lr), (deadline_lookup _ _ _ Ll). lia.
    + exists child. split; [reflexivity |]. split; [auto |].
      rewrite (deadline_lookup _ _ _ Lr), (deadline_lookup _ _ _ Ll). lia.
  - exists child. split; [reflexivity |]. split; [auto |]. lia.
Qed.

Lemma siftdown_loop_spec (fuel : nat) :
  forall (i index n : Z) t (m : bool) t',
    0 <= i <= index -> index < size t -> n <= size t ->
    size t < SIZE_BOUND ->
    hole n index (heap_ t) -> ref_exact t ->
    siftdown_loop fuel i index (wrap_size (2 * index + 1)) n t = Ok (m, t') ->
    size t' = size t /\ ref_exact t'
    /\ (forall j : Z, 0 <= j -> j < index \/ n <= j ->
                     heap_ t' !! Z.to_nat j = heap_ t !! Z.to_nat j)
    /\ (forall j : Z, 0 < j < n -> j <> index ->
                     deadline (heap_ t') (parent j) <= deadline (heap_ t') j)
    /\ (t' = t /\ m = (i <? index)
        \/ m = true
           /\ exists c : Z, 0 < c < n /\ parent c = index
                /\ deadline (heap_ t') index = deadline (heap_ t) c).
Proof.
  induction fuel as [| fuel IH];
    intros i index n t m t' Hi Hidx Hn Hsz Hhole Hex Hrun.
  { discriminate Hrun. }
  pose proof Hsz as Hsz'. unfold SIZE_BOUND in Hsz'.
  cbn [siftdown_loop] in Hrun.
  rewrite (wrap_size_small (2 * index + 1)) in Hrun by lia.
  destruct Hhole as [Hedges Hskip].
  assert (Hchildren : forall j, 0 < j -> parent j = index ->
                        j = 2 * index + 1 \/ j = 2 * index + 2) by (intros; zdiv).
  destruct (Z.ltb_spec (2 * index + 1) n) as [Hc | Hc].
  - destruct (select_child (heap_ t) (2 * index + 1) n)
      as (sel & Hsel & Hwhich & Hmin1 & Hmin2);
      [lia | exact Hn | exact Hsz |].
    rewrite Hsel in Hrun. cbn [bind] in Hrun.
    assert (Hselr : 2 * index + 1 <= sel < n /\ parent sel = index)
      by (split; [lia | zdiv]).
    destruct Hselr as [Hselr Hselp].
    destruct (vec_at_lookup (heap_ t) sel) as (nc & Lc & Vc);
      [unfold size in *; lia |].
    destruct (vec_at_lookup (heap_ t) index) as (nx & Lx & Vx);
      [unfold size in *; lia |].
    rewrite Vc in Hrun. cbn [bind] in Hrun. rewrite Vx in Hrun.
    cbn [bind] in Hrun.
    rewrite (deadline_lookup _ _ _ Lc) in Hmin1, Hmin2.
    destruct (Z.ltb_spec (expires nc) (expires nx)) as [Hlt | Hge].
    + destruct (SwapNode_Ok t index sel) as (nx' & nc' & Lx' & Lc' & Hsw);
        [lia | lia |].
      rewrite Lx in Lx'. injection Lx' as <-.
      rewrite Lc in Lc'. injection Lc' as <-.
      rewrite Hsw in Hrun. cbn [bind] in Hrun.
      set (t1 := {| heap_ := swapped (heap_ t) index sel nx nc;
                    ref_ := <[id nx := sel]> (<[id nc := index]> (ref_ t)) |})
        in *.
      assert (Hsz1 : size t1 = size t) by apply length_swapped.
      assert (Hd : forall k, 0 <= k ->
                    deadline (heap_ t1) k
                    = if k =? sel then expires nx
                      else if k =? index then expires nc
                      else deadline (heap_ t) k).
      { intros k Hk. unfold t1. cbn [heap_].
        rewrite (deadline_swapped _ index sel k nx nc);
          unfold size in *; auto with lia.
        now rewrite (deadline_lookup _ _ _ Lx), (deadline_lookup _ _ _ Lc). }
      assert (Hl : forall k, 0 <= k -> k <> sel -> k <> index ->
                    heap_ t1 !! Z.to_nat k = heap_ t !! Z.to_nat k).
      { intros k Hk Hks Hki. unfold t1. cbn [heap_].
        rewrite (lookup_swapped _ index sel k nx nc);
          unfold size in *; auto with lia.
        destruct (Z.eqb_spec k sel); [lia |].
        destruct (Z.eqb_spec k index); [lia | reflexivity]. }
      apply (IH i sel n t1 m t') in Hrun.
      * destruct Hrun as (Hs & Hr & Hf & He & Htop).
        assert (Hidx' : deadline (heap_ t') index = expires nc).
        { unfold deadline. rewrite Hf by lia.
          fold (deadline (heap_ t1) index). rewrite Hd by lia.
          destruct (Z.eqb_spec index sel); [lia |].
          now rewrite Z.eqb_refl. }
        split; [lia |]. split; [exact Hr |]. split; [| split].
        -- intros j Hj Hjr. rewrite Hf by lia. apply Hl; lia.
        -- intros j Hj Hji. destruct (Z.eq_dec j sel) as [-> | Hjs].
           ++ rewrite Hselp, Hidx'.
              destruct Htop as [[-> _] | (_ & c & Hc0 & Hcp & Hcd)].
              ** rewrite Hd by lia. rewrite Z.eqb_refl. lia.
              ** rewrite Hcd, Hd by lia.
                 destruct (Z.eqb_spec c sel); [zdiv |].
                 destruct (Z.eqb_spec c index); [zdiv |].
                 assert (Hpc : parent c <> index) by lia.
                 pose proof (Hedges c Hc0 ltac:(lia) Hpc) as Hce.
                 rewrite Hcp, (deadline_lookup _ _ _ Lc) in Hce. exact Hce.
           ++ apply He; assumption.
        -- right. split.
           ++ destruct Htop as [[_ ->] | [-> _]]; [| reflexivity].
              apply Z.ltb_lt. lia.
           ++ exists sel. split; [lia |]. split; [exact Hselp |].
              now rewrite Hidx', (deadline_lookup _ _ _ Lc).
      * lia.
      * lia.
      * lia.
      * lia.
      * split.
        -- intros j Hj Hjs Hjp.
           assert (Hpj : 0 <= parent j < j) by zdiv.
           rewrite (Hd j), (Hd (parent j)) by lia.
           destruct (Z.eqb_spec j sel); [lia |].
           destruct (Z.eqb_spec (parent j) sel); [lia |].
           destruct (Z.eqb_spec j index) as [-> | Hji].
           ++ destruct (Z.eqb_spec (parent index) index); [lia |].
              pose proof (Hskip sel ltac:(lia) Hselp ltac:(lia)) as Hsk.
              rewrite (deadline_lookup _ _ _ Lc) in Hsk. exact Hsk.
           ++ destruct (Z.eqb_spec (parent j) index) as [Epi | Npi].
              ** destruct (Hchildren j ltac:(lia) Epi) as [-> | ->];
                   [exact Hmin1 |].
                 replace (2 * index + 2) with (2 * index + 1 + 1) in * by lia.
                 apply Hmin2. lia.
              ** apply Hedges; assumption.
        -- intros c Hc0 Hcp Hpos.
           rewrite Hselp. rewrite (Hd c), (Hd index) by lia.
           destruct (Z.eqb_spec index sel); [lia |].
           rewrite Z.eqb_refl.
           destruct (Z.eqb_spec c sel); [zdiv |].
           destruct (Z.eqb_spec c index); [zdiv |].
           pose proof (Hedges c Hc0 ltac:(lia) ltac:(lia)) as Hce.
           rewrite Hcp, (deadline_lookup _ _ _ Lc) in Hce. exact Hce.
      * apply ref_exact_swapped; (assumption || lia).
    + injection Hrun as <- <-. split; [reflexivity |]. split; [exact Hex |].
      split; [reflexivity |]. split; [| auto].
      intros j Hj Hji.
      destruct (Z.eq_dec (parent j) index) as [Epi | Npi].
      * rewrite Epi, (deadline_lookup _ _ _ Lx).
        destruct (Hchildren j ltac:(lia) Epi) as [-> | ->]; [lia |].
        replace (2 * index + 2) with (2 * index + 1 + 1) in * by lia.
        specialize (Hmin2 ltac:(lia)). lia.
      * apply Hedges; assumption.
  - injection Hrun as <- <-. split; [reflexivity |]. split; [exact Hex |].
    split; [reflexivity |]. split; [| auto].
    intros j Hj Hji.
    destruct (Z.eq_dec (parent j) index) as [Epi | Npi].
    + destruct (Hchildren j ltac:(lia) Epi) as [-> | ->]; lia.
    + apply Hedges; assumption.
Qed.

Lemma bind_Ok {A B : Type} (m : Res A) (k : A -> Res B) (y : B) :
  bind m k = Ok y -> exists x, m = Ok x /\ k x = Ok y.
Proof. destruct m as [x | f]; cbn; [eauto | discriminate]. Qed.

(** [if(!siftdown_(k, n)) siftup_(k);] closes a hole at [k]. *)
Lemma resift_spec (k n : Z) t (r : bool * HeapTimer CB) t' :
  0 <= k < n -> n <= size t -> size t < SIZE_BOUND ->
  hole n k (heap_ t) -> ref_exact t ->
  siftdown_ k n t = Ok r ->
  (if negb (fst r) then siftup_ k (snd r) else Ok (snd r)) = Ok t' ->
  heap_ordered n (heap_ t') /\ size t' = size t /\ ref_exact t'
  /\ (forall j : Z, n <= j -> heap_ t' !! Z.to_nat j = heap_ t !! Z.to_nat j).
Proof.
  intros Hk Hn Hsz Hhole Hex Hdown Hup. unfold siftdown_ in Hdown.
  destruct (Z.ltb_spec k (size t)); [| lia]. cbn [negb] in Hdown.
  destruct (Z.leb_spec n (size t)); [| lia]. cbn [negb] in Hdown.
  destruct r as [m t1].
  apply siftdown_loop_spec in Hdown; try (assumption || lia).
  destruct Hdown as (Hs & Hr & Hf & He & Htop). cbn [fst snd] in Hup.
  destruct m; cbn [negb] in Hup.
  - injection Hup as <-.
    destruct Htop as [[_ Hm] | (_ & c & Hc & Hcp & Hcd)].
    { rewrite Z.ltb_irrefl in Hm. discriminate Hm. }
    split; [| split; [exact Hs | split; [exact Hr |]]].
    + intros j Hj. destruct (Z.eq_dec j k) as [-> | Hjk]; [| now apply He].
      rewrite Hcd. unfold deadline at 1.
      rewrite Hf by (unfold parent; Z.div_mod_to_equations; lia).
      fold (deadline (heap_ t) (parent k)). now apply Hhole.
    + intros j Hj. apply Hf; lia.
  - destruct Htop as [[-> _] | [Hm _]]; [| discriminate Hm].
    apply (siftup_spec k n) in Hup; try (assumption || lia).
    + destruct Hup as (Ho & Hs' & Hr' & Hf').
      split; [exact Ho |]. split; [exact Hs' |]. split; [exact Hr' |].
      intros j Hj. apply Hf'. lia.
    + split; [exact He | apply Hhole].
Qed.

Lemma pop_back_spec t t' :
  0 < size t -> heap_ordered (size t - 1) (heap_ t) -> ref_exact t ->
  match last (heap_ t) with
  | Some back => Ok {| heap_ := removelast (heap_ t);
                       ref_ := delete (id back) (ref_ t) |}
  | None => Crash (OutOfBounds (wrap_size (-1)))
  end = Ok t' ->
  inv t' /\ size t' = size t - 1.
Proof.
  intros Hpos Ho Hex. unfold size, vec_size in *.
  rewrite last_lookup.
  destruct (heap_ t !! Nat.pred (length (heap_ t))) as [back |] eqn:Lb.
  2:{ apply lookup_ge_None in Lb. lia. }
  intros [= <-]. unfold inv, size, vec_size. cbn [heap_ ref_].
  rewrite removelast_firstn_len, length_take.
  assert (Hlk : forall j, 0 <= j < Z.of_nat (length (heap_ t)) - 1 ->
                  take (Nat.pred (length (heap_ t))) (heap_ t) !! Z.to_nat j
                  = heap_ t !! Z.to_nat j).
  { intros j Hj. apply lookup_take_lt. lia. }
  split; [split |]; [| | lia].
  - intros j Hj.
    assert (Hp : 0 <= parent j < j) by zdiv.
    unfold deadline. rewrite !Hlk by lia. apply Ho. lia.
  - unfold ref_exact, size, vec_size. intros k x. cbn [heap_ ref_].
    rewrite length_take.
    assert (Hback : ref_ t !! id back
                    = Some (Z.of_nat (Nat.pred (length (heap_ t))))).
    { apply Hex. unfold size, vec_size. split; [lia |].
      rewrite Nat2Z.id, Lb. reflexivity. }
    split.
    + intros Hl. destruct (decide (id back = k)) as [<- | Hne].
      { rewrite lookup_delete_eq in Hl. discriminate Hl. }
      rewrite lookup_delete_ne in Hl by done.
      apply Hex in Hl as [Hx Hid]. unfold size, vec_size in Hx.
      assert (x <> Z.of_nat (Nat.pred (length (heap_ t)))).
      { intros ->. rewrite Nat2Z.id, Lb in Hid. cbn in Hid. congruence. }
      split; [lia |]. rewrite Hlk by lia. exact Hid.
    + intros [Hx Hid]. rewrite Hlk in Hid by lia.
      assert (Hr : ref_ t !! k = Some x).
      { apply Hex. unfold size, vec_size. split; [lia | exact Hid]. }
      rewrite lookup_delete_ne; [exact Hr |].
      intros <-. rewrite Hback in Hr. injection Hr as <-. lia.
Qed.

Lemma del_spec (index : Z) t t' :
  0 <= index -> inv t -> size t < SIZE_BOUND ->
  del_ index t = Ok t' ->
  inv t' /\ size t' = size t - 1.
Proof.
  intros Hidx [Ho Hex] Hsz Hrun. pose proof Hsz as Hsz'.
  unfold SIZE_BOUND in Hsz'. unfold del_ in Hrun.
  destruct (Z.ltb_spec index (size t)) as [Hlt | ?]; [| discriminate Hrun].
  cbn [negb] in Hrun. cbn zeta in Hrun.
  rewrite (wrap_size_small (size t - 1)) in Hrun by lia.
  destruct (Z.leb_spec index (size t - 1)); [| lia]. cbn [negb] in Hrun.
  apply bind_Ok in Hrun as (t2 & H2 & Hpop).
  assert (Hmid : heap_ordered (size t - 1) (heap_ t2) /\ size t2 = size t
                 /\ ref_exact t2).
  { destruct (Z.ltb_spec index (size t - 1)) as [Hin | Hlast].
    - destruct (SwapNode_Ok t index (size t - 1)) as (nx & nl & Lx & Ll & Hsw);
        [lia | lia |].
      rewrite Hsw in H2. cbn [bind] in H2.
      apply bind_Ok in H2 as (r & Hdown & Hup).
      set (t1 := {| heap_ := swapped (heap_ t) index (size t - 1) nx nl;
                    ref_ := <[id nx := size t - 1]>
                              (<[id nl := index]> (ref_ t)) |}) in *.
      assert (Hsz1 : size t1 = size t) by apply length_swapped.
      assert (Hd : forall k, 0 <= k < size t - 1 -> k <> index ->
                    deadline (heap_ t1) k = deadline (heap_ t) k).
      { intros k Hk Hki. unfold t1. cbn [heap_].
        rewrite (deadline_swapped _ index (size t - 1) k nx nl);
          unfold size in *; auto with lia.
        destruct (Z.eqb_spec k (vec_size (heap_ t) - 1)); [lia |].
        destruct (Z.eqb_spec k index); [lia | reflexivity]. }
      apply (resift_spec index (size t - 1) t1 r t2) in Hup;
        try (assumption || lia).
      + destruct Hup as (Ho2 & Hs2 & Hr2 & _). auto with lia.
      + split.
        * intros j Hj Hji Hjp.
          assert (Hp : 0 <= parent j < j) by zdiv.
          rewrite !Hd by lia. apply Ho. lia.
        * intros c Hc Hcp Hpos.
          assert (Hp : 0 <= parent index < index) by zdiv.
          rewrite !Hd by (unfold parent in *; Z.div_mod_to_equations; lia).
          pose proof (Ho c ltac:(lia)) as H1. pose proof (Ho index ltac:(lia)) as H3.
          rewrite Hcp in H1. lia.
      + apply ref_exact_swapped; (assumption || lia).
    - injection H2 as <-. split; [| auto].
      intros j Hj. apply Ho. lia. }
  destruct Hmid as (Ho2 & Hs2 & Hr2).
  apply pop_back_spec in Hpop; [| lia | now rewrite Hs2 | exact Hr2].
  destruct Hpop as [Hinv Hs']. split; [exact Hinv | lia].
Qed.

(** A node overwritten in place, its id kept, leaves a hole there. *)
Lemma overwrite_spec t (idx : Z) (node node' : TimerNode CB) :
  inv t -> 0 <= idx < size t ->
  heap_ t !! Z.to_nat idx = Some node -> id node' = id node ->
  let t1 := {| heap_ := <[Z.to_nat idx := node']> (heap_ t);
               ref_ := ref_ t |} in
  size t1 = size t /\ ref_exact t1 /\ hole (size t) idx (heap_ t1)
  /\ deadline (heap_ t1) idx = expires node'
  /\ (forall j : Z, 0 <= j -> j <> idx ->
                   deadline (heap_ t1) j = deadline (heap_ t) j).
Proof.
  intros [Ho Hex] Hidx Ln Hid t1.
  assert (Hs : size t1 = size t).
  { unfold size, vec_size, t1. cbn [heap_]. now rewrite length_insert. }
  assert (Hlk : forall j, 0 <= j ->
                  heap_ t1 !! Z.to_nat j
                  = if j =? idx then Some node' else heap_ t !! Z.to_nat j).
  { intros j Hj. unfold t1. cbn [heap_].
    destruct (Z.eqb_spec j idx) as [-> | Hne].
    - apply list_lookup_insert_eq. unfold size, vec_size in Hidx. lia.
    - apply list_lookup_insert_ne. lia. }
  assert (Hd : forall j, 0 <= j -> j <> idx ->
                 deadline (heap_ t1) j = deadline (heap_ t) j).
  { intros j Hj Hne. unfold deadline. rewrite Hlk by lia.
    destruct (Z.eqb_spec j idx); [lia | reflexivity]. }
  split; [exact Hs |]. split; [| split; [| split; [| exact Hd]]].
  - intros k x. rewrite Hs. change (ref_ t1) with (ref_ t). rewrite (Hex k x).
    split; intros [Hx Hl]; (split; [exact Hx |]).
    + rewrite Hlk by lia. destruct (Z.eqb_spec x idx) as [-> | _]; [| exact Hl].
      rewrite Ln in Hl. cbn in Hl |- *. congruence.
    + rewrite Hlk in Hl by lia.
      destruct (Z.eqb_spec x idx) as [-> | _]; [| exact Hl].
      rewrite Ln. cbn in Hl |- *. congruence.
  - split.
    + intros j Hj Hji Hjp.
      assert (Hp : 0 <= parent j < j) by zdiv.
      rewrite !Hd by lia. apply Ho. lia.
    + intros c Hc Hcp Hpos.
      assert (Hp : 0 <= parent idx < idx) by zdiv.
      rewrite !Hd by (unfold parent in *; Z.div_mod_to_equations; lia).
      pose proof (Ho c ltac:(lia)) as H1.
      pose proof (Ho idx ltac:(lia)) as H3. rewrite Hcp in H1. lia.
  - unfold deadline. rewrite Hlk by lia. now rewrite Z.eqb_refl.
Qed.

(** [siftdown_] alone closes a hole whose upper edge holds. *)
Lemma siftdown_spec (k n : Z) t (r : bool * HeapTimer CB) :
  0 <= k < n -> n <= size t -> size t < SIZE_BOUND ->
  hole n k (heap_ t) -> ref_exact t ->
  (0 < k -> deadline (heap_ t) (parent k) <= deadline (heap_ t) k) ->
  siftdown_ k n t = Ok r ->
  heap_ordered n (heap_ (snd r)) /\ size (snd r) = size t
  /\ ref_exact (snd r).
Proof.
  intros Hk Hn Hsz Hhole Hex Hup Hdown. unfold siftdown_ in Hdown.
  destruct (Z.ltb_spec k (size t)); [| lia]. cbn [negb] in Hdown.
  destruct (Z.leb_spec n (size t)); [| lia]. cbn [negb] in Hdown.
  destruct r as [m t1].
  apply siftdown_loop_spec in Hdown; try (assumption || lia).
  destruct Hdown as (Hs & Hr & Hf & He & Htop). cbn [snd].
  split; [| auto].
  intros j Hj. destruct (Z.eq_dec j k) as [-> | Hjk]; [| now apply He].
  destruct Htop as [[-> _] | (_ & c & Hc & Hcp & Hcd)]; [apply Hup; lia |].
  rewrite Hcd. unfold deadline at 1.
  rewrite Hf by (unfold parent; Z.div_mod_to_equations; lia).
  fold (deadline (heap_ t) (parent k)). now apply Hhole.
Qed.

Lemma ref_in_range t (id0 idx : Z) :
  ref_exact t -> ref_ t !! id0 = Some idx ->
  0 <= idx < size t
  /\ exists node, heap_ t !! Z.to_nat idx = Some node /\ id node = id0.
Proof.
  intros Hex Hl. apply Hex in Hl as [Hr Hid]. split; [exact Hr |].
  destruct (heap_ t !! Z.to_nat idx) as [node |]; [| discriminate Hid].
  exists node. split; [reflexivity |]. cbn in Hid. congruence.
Qed.

(** A node pushed under a fresh id leaves only the edge above it open. *)
Lemma push_spec t (node : TimerNode CB) :
  inv t -> ref_ t !! id node = None ->
  let t1 := {| heap_ := heap_ t ++ [node];
               ref_ := <[id node := size t]> (ref_ t) |} in
  size t1 = size t + 1 /\ ref_exact t1
  /\ up_hole (size t + 1) (size t) (heap_ t1).
Proof.
  intros [Ho Hex] Hnew t1.
  assert (Hs : size t1 = size t + 1).
  { unfold size, vec_size, t1. cbn [heap_]. rewrite length_app. cbn. lia. }
  assert (Hlk : forall j, 0 <= j < size t ->
                  heap_ t1 !! Z.to_nat j = heap_ t !! Z.to_nat j).
  { intros j Hj. unfold t1. cbn [heap_]. apply lookup_app_l.
    unfold size, vec_size in Hj. lia. }
  assert (Hlast : heap_ t1 !! Z.to_nat (size t) = Some node).
  { unfold t1, size, vec_size. cbn [heap_]. rewrite Nat2Z.id.
    rewrite lookup_app_r by lia. now rewrite Nat.sub_diag. }
  assert (Hd : forall j, 0 <= j < size t ->
                 deadline (heap_ t1) j = deadline (heap_ t) j).
  { intros j Hj. unfold deadline. now rewrite Hlk. }
  split; [exact Hs |]. split.
  - intros k x. rewrite Hs. change (ref_ t1) with (<[id node := size t]> (ref_ t)).
    destruct (Z.eq_dec x (size t)) as [-> | Hx].
    + rewrite Hlast. cbn [fmap option_fmap option_map].
      assert (Hsize : 0 <= size t) by (unfold size, vec_size; lia).
      split.
      * intros Hl. split; [lia |].
        destruct (decide (id node = k)) as [<- | Hne]; [reflexivity |].
        rewrite lookup_insert_ne in Hl by exact Hne.
        apply Hex in Hl. lia.
      * intros [_ Hk]. injection Hk as <-. apply lookup_insert_eq.
    + split.
      * intros Hl. destruct (decide (id node = k)) as [<- | Hne].
        { rewrite lookup_insert_eq in Hl. congruence. }
        rewrite lookup_insert_ne in Hl by exact Hne.
        apply Hex in Hl as [Hr Hl]. split; [lia |]. now rewrite Hlk.
      * intros [Hr Hl]. rewrite Hlk in Hl by lia.
        assert (Hin : ref_ t !! k = Some x) by (apply Hex; split; [lia | exact Hl]).
        rewrite lookup_insert_ne; [exact Hin |]. congruence.
  - split.
    + intros j Hj Hne. assert (Hp : 0 <= parent j < j) by zdiv.
      rewrite !Hd by lia. apply Ho. lia.
    + intros c Hc Hcp Hpos. assert (Hp : 0 <= parent c < c) by zdiv. lia.
Qed.

(** In an ordered heap the root holds the minimum deadline. *)
Lemma root_is_minimum (n : Z) h :
  heap_ordered n h ->
  forall i : Z, 0 <= i < n -> deadline h 0 <= deadline h i.
Proof.
  intros Ho i. induction (Z.lt_wf 0 i) as [i _ IH]. intros Hi.
  destruct (Z.eq_dec i 0) as [-> | Hne]; [lia |].
  assert (Hp : 0 <= parent i < i) by zdiv.
  transitivity (deadline h (parent i)); [apply IH; lia | apply Ho; lia].
Qed.

End HeapInvariantFacts.

(** The operations of the timer's interface. *)

Section HeapOperationFacts.

Import HeapTimer.

Context {CB : Type}.
Variable clock : nat -> Z.

Implicit Type t : HeapTimer CB.
Implicit Type w : World CB.

Ltac zdiv := unfold parent in *; Z.div_mod_to_equations; lia.

Lemma adjust_spec (id0 newExpires : Z) w w' :
  inv (timer w) -> size (timer w) < SIZE_BOUND ->
  extends clock id0 newExpires w ->
  adjust clock id0 newExpires w = Ok w' ->
  inv (timer w') /\ size (timer w') = size (timer w).
Proof.
  intros Hinv Hsz Hext Hrun. unfold adjust in Hrun. cbn zeta in Hrun.
  destruct (heap_ (timer w)) as [| n0 h0] eqn:Eh; [discriminate Hrun |].
  rewrite <- Eh in Hrun.
  destruct (ref_ (timer w) !! id0) as [idx |] eqn:Er; [| discriminate Hrun].
  destruct (ref_in_range _ _ _ (proj2 Hinv) Er) as (Hidx & node & Ln & Hid).
  apply bind_Ok in Hrun as (node' & Hv & Hrun).
  apply vec_at_Ok in Hv as [_ Hv]. rewrite Ln in Hv. injection Hv as <-.
  apply bind_Ok in Hrun as (r & Hdown & Hrun). injection Hrun as <-.
  cbn [timer].
  destruct (overwrite_spec (timer w) idx node
              (set_expires (clock (reads w) + MS newExpires) node)
              Hinv Hidx Ln eq_refl) as (Hs & Hr & Hh & Hdi & Hdo).
  rewrite Hs in Hdown.
  apply siftdown_spec in Hdown; try (assumption || lia).
  - destruct Hdown as (Ho & Hs' & Hr'). rewrite Hs in Hs'.
    split; [split |]; [| exact Hr' | exact Hs'].
    rewrite Hs'. exact Ho.
  - intros Hpos. rewrite Hdi.
    assert (Hp : 0 <= parent idx < idx) by zdiv.
    rewrite Hdo by lia. cbn [expires set_expires].
    pose proof (proj1 Hinv idx ltac:(lia)) as He.
    rewrite (deadline_lookup _ _ _ Ln) in He.
    specialize (Hext idx node Er Ln). lia.
Qed.

Lemma add_spec (id0 timeOut : Z) (c : CB) w w' :
  inv (timer w) -> size (timer w) + 1 < SIZE_BOUND ->
  add clock id0 timeOut c w = Ok w' ->
  inv (timer w') /\ size (timer w') <= size (timer w) + 1.
Proof.
  intros Hinv Hsz Hrun. pose proof Hsz as Hsz'. unfold SIZE_BOUND in Hsz'.
  unfold add in Hrun. cbn zeta in Hrun.
  destruct (0 <=? id0); [| discriminate Hrun]. cbn [negb] in Hrun.
  destruct (ref_ (timer w) !! id0) as [idx |] eqn:Er.
  - destruct (ref_in_range _ _ _ (proj2 Hinv) Er) as (Hidx & node & Ln & Hid).
    rewrite (wrap_int_small idx) in Hrun by lia.
    rewrite (wrap_size_small idx) in Hrun by lia.
    apply bind_Ok in Hrun as (node' & Hv & Hrun).
    apply vec_at_Ok in Hv as [_ Hv]. rewrite Ln in Hv. injection Hv as <-.
    apply bind_Ok in Hrun as (r & Hdown & Hrun).
    apply bind_Ok in Hrun as (t3 & Hup & Hrun). injection Hrun as <-.
    cbn [timer].
    destruct (overwrite_spec (timer w) idx node
                (set_cb c (set_expires (clock (reads w) + MS timeOut) node))
                Hinv Hidx Ln eq_refl) as (Hs & Hr & Hh & _).
    rewrite Hs in Hdown.
    eapply resift_spec in Hup; [| | | | | | exact Hdown];
      try (assumption || lia).
    destruct Hup as (Ho & Hs' & Hr' & _).
    split; [split; [| exact Hr'] | lia].
    rewrite Hs', Hs. exact Ho.
  - apply bind_Ok in Hrun as (t2 & Hup & Hrun). injection Hrun as <-.
    cbn [timer].
    destruct (push_spec (timer w)
                (mkTimerNode id0 (clock (reads w) + MS timeOut) c)
                Hinv Er) as (Hs & Hr & Hh).
    cbn [id] in Hs, Hr, Hh.
    assert (H0 : 0 <= size (timer w)) by (unfold size, vec_size; lia).
    apply (siftup_spec (size (timer w)) (size (timer w) + 1)) in Hup;
      try (assumption || lia).
    destruct Hup as (Ho & Hs' & Hr' & _).
    split; [split; [| exact Hr'] | lia].
    rewrite Hs', Hs. exact Ho.
Qed.

Lemma doWork_spec (id0 : Z) w w' :
  inv (timer w) -> size (timer w) < SIZE_BOUND ->
  doWork id0 w = Ok w' ->
  inv (timer w') /\ size (timer w') <= size (timer w).
Proof.
  intros Hinv Hsz Hrun. unfold doWork in Hrun. cbn zeta in Hrun.
  destruct (heap_ (timer w)) as [| n0 h0] eqn:Eh.
  { injection Hrun as <-. split; [exact Hinv | lia]. }
  rewrite <- Eh in Hrun.
  destruct (ref_ (timer w) !! id0) as [idx |] eqn:Er.
  2: { injection Hrun as <-. split; [exact Hinv | lia]. }
  destruct (ref_in_range _ _ _ (proj2 Hinv) Er) as (Hidx & _).
  apply bind_Ok in Hrun as (node & _ & Hrun).
  apply bind_Ok in Hrun as (t' & Hdel & Hrun). injection Hrun as <-.
  cbn [timer]. apply del_spec in Hdel; [| lia | exact Hinv | exact Hsz].
  destruct Hdel as [Hi Hs]. split; [exact Hi | lia].
Qed.

Lemma tick_loop_spec (fuel : nat) :
  forall w w',
    inv (timer w) -> size (timer w) < SIZE_BOUND ->
    tick_loop clock fuel w = Ok w' ->
    inv (timer w') /\ size (timer w') <= size (timer w).
Proof.
  induction fuel as [| fuel IH]; intros w w' Hinv Hsz Hrun;
    [discriminate Hrun |].
  cbn [tick_loop] in Hrun.
  destruct (heap_ (timer w)) as [| node h0] eqn:Eh.
  { injection Hrun as <-. split; [exact Hinv | lia]. }
  cbn zeta in Hrun.
  destruct (duration_cast_MS (expires node - clock (reads w)) >? 0).
  { injection Hrun as <-. cbn [timer]. split; [exact Hinv | lia]. }
  apply bind_Ok in Hrun as (t' & Hpop & Hrun).
  unfold pop in Hpop. rewrite Eh in Hpop.
  apply del_spec in Hpop; [| lia | exact Hinv | exact Hsz].
  destruct Hpop as [Hi Hs].
  apply IH in Hrun; cbn [timer]; [| exact Hi | lia].
  cbn [timer] in Hrun. destruct Hrun as [Hi' Hs']. split; [exact Hi' | lia].
Qed.

Lemma step_spec (o : Op CB) w w' :
  inv (timer w) -> size (timer w) + 1 < SIZE_BOUND ->
  match o with
  | OpAdjust id0 newExpires => extends clock id0 newExpires w
  | _ => True
  end ->
  step clock o w = Ok w' ->
  inv (timer w') /\ size (timer w') <= size (timer w) + 1.
Proof.
  intros Hinv Hsz Hext Hrun. destruct o as [id0 e c | id0 e | id0 |];
    cbn [step] in Hrun.
  - now apply add_spec in Hrun.
  - apply adjust_spec in Hrun; [| exact Hinv | lia | exact Hext].
    destruct Hrun as [Hi Hs]. split; [exact Hi | lia].
  - apply doWork_spec in Hrun; [| exact Hinv | lia].
    destruct Hrun as [Hi Hs]. split; [exact Hi | lia].
  - apply tick_loop_spec in Hrun; [| exact Hinv | lia].
    destruct Hrun as [Hi Hs]. split; [exact Hi | lia].
Qed.

(** Wherever a run of timer operations returns, the heap order and the
    exact [ref_] map that held before it hold after it. *)
Lemma run_preserves_inv (ops : list (Op CB)) :
  forall w w',
    inv (timer w) ->
    size (timer w) + Z.of_nat (length ops) < SIZE_BOUND ->
    adjusts_extend clock ops w ->
    run clock ops w = Ok w' ->
    inv (timer w').
Proof.
  induction ops as [| o ops IH]; intros w w' Hinv Hsz Hext Hrun.
  - injection Hrun as <-. exact Hinv.
  - cbn [run] in Hrun. apply bind_Ok in Hrun as (w1 & Hstep & Hrun).
    destruct Hext as [Ho Hrest]. cbn [length] in Hsz.
    pose proof Hstep as Hstep'.
    apply step_spec in Hstep'; [| exact Hinv | lia | exact Ho].
    destruct Hstep' as [Hi Hs].
    apply (IH w1 w'); [exact Hi | lia | now apply Hrest | exact Hrun].
Qed.

End HeapOperationFacts.

(** The invariant on a concrete run from the one-node timer. *)
Lemma one_node_world_inv : HeapTimer.inv (HeapTimer.timer one_node_world).
Proof.
  split.
  - intros i Hi. unfold HeapTimer.size, vec_size in Hi. cbn in Hi. lia.
  - intros k i. unfold HeapTimer.size, vec_size. cbn [one_node_world
      HeapTimer.timer HeapTimer.heap_ HeapTimer.ref_ length].
    split.
    + intros Hl. apply lookup_singleton_Some in Hl as [<- <-].
      split; [lia | reflexivity].
    + intros [Hi Hl]. assert (i = 0) as -> by lia. cbn in Hl.
      injection Hl as <-. apply lookup_singleton_eq.
Qed.

Lemma postpone_run_keeps_inv :
  exists w',
    HeapTimer.run late_clock postpone_run one_node_world = Ok w'
    /\ HeapTimer.fired w' = [5%nat]
    /\ HeapTimer.inv (HeapTimer.timer w').
Proof.
  eexists. split; [vm_compute; reflexivity |]. split; [reflexivity |].
  eapply (run_preserves_inv late_clock postpone_run one_node_world).
  - exact one_node_world_inv.
  - vm_compute. reflexivity.
  - split; [exact I |]. intros w1 H1. vm_compute in H1. injection H1 as <-.
    split.
    + intros idx node Hr Hl. vm_compute in Hr. injection Hr as <-.
      vm_compute in Hl. injection Hl as <-. vm_compute. discriminate.
    + intros w2 H2. vm_compute in H2. injection H2 as <-.
      split; [exact I |]. intros w3 H3. vm_compute in H3. injection H3 as <-.
      split; [exact I |]. intros w4 _. exact I.
  - vm_compute. reflexivity.
Qed.

(** ** The timer's invariant, tested

    The executable test of the invariant is sound. *)

Section InvCheck.

Import HeapTimer.
Context {CB : Type}.
Implicit Type t : HeapTimer CB.
Implicit Type h : list (TimerNode CB).

Lemma heap_ordered_b_sound h :
  heap_ordered_b h = true -> heap_ordered (vec_size h) h.
Proof.
  unfold heap_ordered_b, vec_size. rewrite forallb_forall.
  intros H i Hi. specialize (H (Z.to_nat i)).
  rewrite Z2Nat.id in H by lia. apply Z.leb_le, H, in_seq. lia.
Qed.

Lemma ref_exact_b_sound t : ref_exact_b t = true -> ref_exact t.
Proof.
  unfold ref_exact_b. rewrite andb_true_iff, !forallb_forall.
  intros [Hheap Hmap] k i. split.
  - intros Hl. apply elem_of_map_to_list in Hl.
    apply list_elem_of_In in Hl. specialize (Hmap (k, i) Hl). cbn in Hmap.
    rewrite !andb_true_iff in Hmap. destruct Hmap as [[H0 H1] H2].
    apply bool_decide_eq_true in H2. split; [lia | exact H2].
  - intros [Hi Hl]. specialize (Hheap (Z.to_nat i)).
    destruct (heap_ t !! Z.to_nat i) as [n |] eqn:E; [| discriminate Hl].
    cbn in Hl. injection Hl as <-.
    assert (Hin : In (Z.to_nat i) (seq 0 (length (heap_ t)))).
    { apply in_seq. unfold size, vec_size in Hi. lia. }
    apply Hheap, bool_decide_eq_true in Hin. rewrite Hin. f_equal. lia.
Qed.

Lemma inv_b_sound t : inv_b t = true -> inv t.
Proof.
  unfold inv_b. rewrite andb_true_iff. intros [Ho Hr]. split.
  - now apply heap_ordered_b_sound.
  - now apply ref_exact_b_sound.
Qed.

End InvCheck.

(** ** What the timer stores

    Beside the shape of the heap, the operations are followed here by
    the nodes they keep: which node the timer holds under each id. *)

Section HeapContentFacts.

Import HeapTimer.

Context {CB : Type}.
Implicit Type t : HeapTimer CB.
Implicit Type h : list (TimerNode CB).

Lemma SwapNode_inv t (i j : Z) t' :
  SwapNode_ i j t = Ok t' ->
  0 <= i < size t /\ 0 <= j < size t
  /\ exists ni nj,
       heap_ t !! Z.to_nat i = Some ni /\ heap_ t !! Z.to_nat j = Some nj
       /\ t' = {| heap_ := swapped (heap_ t) i j ni nj;
                  ref_ := <[id ni := j]> (<[id nj := i]> (ref_ t)) |}.
Proof.
  unfold SwapNode_. intros H.
  destruct (i <? size t); [| discriminate H].
  destruct (j <? size t); [| discriminate H]. cbn [negb] in H.
  apply bind_Ok in H as (ni & Hi & H). apply bind_Ok in H as (nj & Hj & H).
  apply vec_at_Ok in Hi as [Ri Li]. apply vec_at_Ok in Hj as [Rj Lj].
  injection H as <-. unfold size. eauto 10.
Qed.

Lemma swapped_elem h (i j : Z) (ni nj : TimerNode CB) :
  0 <= i < vec_size h -> 0 <= j < vec_size h ->
  h !! Z.to_nat i = Some ni -> h !! Z.to_nat j = Some nj ->
  forall n : TimerNode CB, n ∈ swapped h i j ni nj <-> n ∈ h.
Proof.
  intros Hi Hj Li Lj n. rewrite !list_elem_of_lookup. split.
  - intros [x Hx]. replace x with (Z.to_nat (Z.of_nat x)) in Hx by lia.
    rewrite (lookup_swapped h i j (Z.of_nat x) ni nj) in Hx
      by (assumption || lia).
    destruct (Z.of_nat x =? j); [injection Hx as <-; eauto |].
    destruct (Z.of_nat x =? i); [injection Hx as <-; eauto |].
    rewrite Nat2Z.id in Hx. eauto.
  - intros [x Hx].
    assert (Hswap : forall k : Z, 0 <= k ->
              swapped h i j ni nj !! Z.to_nat k
              = if k =? j then Some ni else if k =? i then Some nj
                else h !! Z.to_nat k).
    { intros k Hk. now apply lookup_swapped. }
    destruct (decide (x = Z.to_nat i)) as [-> | Hxi].
    + exists (Z.to_nat j). rewrite Hswap by lia. rewrite Z.eqb_refl. congruence.
    + destruct (decide (x = Z.to_nat j)) as [-> | Hxj].
      * destruct (Z.eq_dec i j) as [-> | Hij]; [lia |].
        exists (Z.to_nat i). rewrite Hswap by lia.
        destruct (Z.eqb_spec i j); [lia |]. rewrite Z.eqb_refl. congruence.
      * exists x. replace x with (Z.to_nat (Z.of_nat x)) by lia.
        rewrite Hswap by lia.
        destruct (Z.eqb_spec (Z.of_nat x) j); [lia |].
        destruct (Z.eqb_spec (Z.of_nat x) i); [lia |].
        now rewrite Nat2Z.id.
Qed.

Lemma SwapNode_size t (i j : Z) t' :
  SwapNode_ i j t = Ok t' -> size t' = size t.
Proof.
  intros H. apply SwapNode_inv in H as (_ & _ & ni & nj & _ & _ & ->).
  apply length_swapped.
Qed.

Lemma siftup_loop_size (fuel : nat) :
  forall (i p : Z) t t', siftup_loop fuel i p t = Ok t' -> size t' = size t.
Proof.
  induction fuel as [| fuel IH]; intros i p t t' H; [discriminate H |].
  cbn [siftup_loop] in H.
  destruct (0 <=? p); [| now injection H as <-].
  apply bind_Ok in H as (np & _ & H). apply bind_Ok in H as (ni & _ & H).
  destruct (expires np >? expires ni); [| now injection H as <-].
  apply bind_Ok in H as (t1 & Hsw & H).
  rewrite (IH _ _ _ _ H). eapply SwapNode_size, Hsw.
Qed.

Lemma siftup_size (i : Z) t t' : siftup_ i t = Ok t' -> size t' = size t.
Proof.
  unfold siftup_. destruct (negb (i <? size t)); [discriminate |].
  apply siftup_loop_size.
Qed.

Lemma siftdown_loop_size (fuel : nat) :
  forall (i index child n : Z) t r,
    siftdown_loop fuel i index child n t = Ok r -> size (snd r) = size t.
Proof.
  induction fuel as [| fuel IH]; intros i index child n t r H;
    [discriminate H |].
  cbn [siftdown_loop] in H.
  destruct (child <? n); [| now injection H as <-].
  apply bind_Ok in H as (child' & _ & H).
  apply bind_Ok in H as (nc & _ & H). apply bind_Ok in H as (nx & _ & H).
  destruct (expires nc <? expires nx); [| now injection H as <-].
  apply bind_Ok in H as (t1 & Hsw & H).
  rewrite (IH _ _ _ _ _ _ H). eapply SwapNode_size, Hsw.
Qed.

Lemma siftdown_size (i n : Z) t r :
  siftdown_ i n t = Ok r -> size (snd r) = size t.
Proof.
  unfold siftdown_. destruct (negb (i <? size t)); [discriminate |].
  destruct (negb (n <=? size t)); [discriminate |].
  apply siftdown_loop_size.
Qed.

Lemma same_nodes_refl t : same_nodes t t.
Proof. intros n. reflexivity. Qed.

Lemma same_nodes_trans t1 t2 t3 :
  same_nodes t1 t2 -> same_nodes t2 t3 -> same_nodes t1 t3.
Proof. intros H12 H23 n. rewrite (H23 n). apply H12. Qed.

Lemma SwapNode_same_nodes t (i j : Z) t' :
  SwapNode_ i j t = Ok t' -> same_nodes t t'.
Proof.
  intros H. apply SwapNode_inv in H as (Hi & Hj & ni & nj & Li & Lj & ->).
  intros n. cbn [heap_]. now apply swapped_elem.
Qed.

Lemma siftup_loop_same_nodes (fuel : nat) :
  forall (i p : Z) t t', siftup_loop fuel i p t = Ok t' -> same_nodes t t'.
Proof.
  induction fuel as [| fuel IH]; intros i p t t' H; [discriminate H |].
  cbn [siftup_loop] in H.
  destruct (0 <=? p); [| injection H as <-; apply same_nodes_refl].
  apply bind_Ok in H as (np & _ & H). apply bind_Ok in H as (ni & _ & H).
  destruct (expires np >? expires ni);
    [| injection H as <-; apply same_nodes_refl].
  apply bind_Ok in H as (t1 & Hsw & H).
  eapply same_nodes_trans; [eapply SwapNode_same_nodes, Hsw | eapply IH, H].
Qed.

Lemma siftup_same_nodes (i : Z) t t' :
  siftup_ i t = Ok t' -> same_nodes t t'.
Proof.
  unfold siftup_. destruct (negb (i <? size t)); [discriminate |].
  apply siftup_loop_same_nodes.
Qed.

Lemma siftdown_loop_same_nodes (fuel : nat) :
  forall (i index child n : Z) t r,
    siftdown_loop fuel i index child n t = Ok r -> same_nodes t (snd r).
Proof.
  induction fuel as [| fuel IH]; intros i index child n t r H;
    [discriminate H |].
  cbn [siftdown_loop] in H.
  destruct (child <? n); [| injection H as <-; apply same_nodes_refl].
  apply bind_Ok in H as (child' & _ & H).
  apply bind_Ok in H as (nc & _ & H). apply bind_Ok in H as (nx & _ & H).
  destruct (expires nc <? expires nx);
    [| injection H as <-; apply same_nodes_refl].
  apply bind_Ok in H as (t1 & Hsw & H).
  eapply same_nodes_trans; [eapply SwapNode_same_nodes, Hsw | eapply IH, H].
Qed.

Lemma siftdown_same_nodes (i n : Z) t r :
  siftdown_ i n t = Ok r -> same_nodes t (snd r).
Proof.
  unfold siftdown_. destruct (negb (i <? size t)); [discriminate |].
  destruct (negb (n <=? size t)); [discriminate |].
  apply siftdown_loop_same_nodes.
Qed.

(** Under an exact [ref_], the node held for an id is the stored node
    with that id. *)
Lemma node_of_elem t (k : Z) (n : TimerNode CB) :
  ref_exact t -> node_of t k = Some n <-> n ∈ heap_ t /\ id n = k.
Proof.
  intros Hex. unfold node_of. split.
  - intros H. destruct (ref_ t !! k) as [i |] eqn:Er; [| discriminate H].
    cbn in H. apply Hex in Er as [_ Hid]. rewrite H in Hid. cbn in Hid.
    split; [| congruence]. apply list_elem_of_lookup. eauto.
  - intros [Hin Hid]. apply list_elem_of_lookup in Hin as [x Hx].
    assert (Hr : ref_ t !! k = Some (Z.of_nat x)).
    { apply Hex. rewrite Nat2Z.id, Hx. cbn. split; [| congruence].
      apply lookup_lt_Some in Hx. unfold size, vec_size. lia. }
    rewrite Hr. cbn. now rewrite Nat2Z.id.
Qed.

Lemma node_of_same t t' (k : Z) :
  ref_exact t -> ref_exact t' -> same_nodes t t' ->
  node_of t' k = node_of t k.
Proof.
  intros Hex Hex' Hsame. apply option_eq. intros n.
  rewrite !node_of_elem by assumption. now rewrite (Hsame n).
Qed.


(** [siftdown_] on a position of the heap comes back: every index it
    uses is inside the vector. *)
Lemma siftdown_loop_total (fuel : nat) :
  forall (i index n : Z) t,
    0 <= index < n -> n <= size t -> size t < SIZE_BOUND ->
    (Z.to_nat (n - index) < fuel)%nat ->
    exists r, siftdown_loop fuel i index (wrap_size (2 * index + 1)) n t = Ok r.
Proof.
  induction fuel as [| fuel IH]; intros i index n t Hidx Hn Hsz Hfuel; [lia |].
  pose proof Hsz as Hsz'. unfold SIZE_BOUND in Hsz'.
  cbn [siftdown_loop].
  rewrite (wrap_size_small (2 * index + 1)) by lia.
  destruct (Z.ltb_spec (2 * index + 1) n) as [Hc | Hc]; [| eauto].
  destruct (select_child (heap_ t) (2 * index + 1) n) as (sel & -> & Hsel & _);
    [lia | exact Hn | exact Hsz |]. cbn [bind].
  assert (Hs : 0 <= sel < n /\ index < sel) by (destruct Hsel; lia).
  destruct (vec_at_lookup (heap_ t) sel) as (nc & _ & ->);
    [unfold size in Hn; lia |].
  destruct (vec_at_lookup (heap_ t) index) as (nx & _ & ->);
    [unfold size in Hn; lia |]. cbn [bind].
  destruct (expires nc <? expires nx); [| eauto].
  destruct (SwapNode_Ok t index sel) as (a & b & _ & _ & ->); [lia | lia |].
  cbn [bind]. apply IH; try lia.
  - unfold size. cbn [heap_]. rewrite length_swapped. exact Hn.
  - unfold size. cbn [heap_]. rewrite length_swapped. exact Hsz.
Qed.


Lemma siftup_loop_below_root (fuel : nat) :
  forall (i : Z) t t',
    0 <= i < size t -> size t < 2 ^ 63 ->
    siftup_loop fuel i (wrap_size (i - 1) / 2) t = Ok t' ->
    0 < i /\ heap_ t' !! 0%nat = heap_ t !! 0%nat.
Proof.
  induction fuel as [| fuel IH]; intros i t t' Hi Hsz H; [discriminate H |].
  cbn [siftup_loop] in H.
  destruct (Z.eq_dec i 0) as [-> | Hne].
  { change (wrap_size (0 - 1) / 2) with PARENT_OF_ROOT in H.
    change (0 <=? PARENT_OF_ROOT) with true in H. cbn iota in H.
    rewrite vec_at_past_end in H; [discriminate H |].
    unfold size, PARENT_OF_ROOT in *. lia. }
  rewrite (wrap_size_small (i - 1)) in H by lia.
  assert (Hp : 0 <= (i - 1) / 2 < i) by (Z.div_mod_to_equations; lia).
  destruct (Z.leb_spec 0 ((i - 1) / 2)); [| lia].
  apply bind_Ok in H as (np & _ & H). apply bind_Ok in H as (ni & _ & H).
  destruct (expires np >? expires ni); [| injection H as <-; split; [lia | done]].
  apply bind_Ok in H as (t1 & Hsw & H).
  apply SwapNode_inv in Hsw as (Ri & Rp & a & b & La & Lb & ->).
  apply IH in H;
    [| unfold size; cbn [heap_]; rewrite length_swapped; unfold size in *; lia
     | unfold size; cbn [heap_]; now rewrite length_swapped].
  destruct H as [Hpos ->]. split; [lia |]. cbn [heap_].
  change 0%nat with (Z.to_nat 0).
  rewrite (lookup_swapped (heap_ t) i ((i - 1) / 2) 0 a b);
    try (assumption || lia).
  destruct (Z.eqb_spec 0 ((i - 1) / 2)); [lia |].
  destruct (Z.eqb_spec 0 i); [lia | reflexivity].
Qed.

(** What [pop_back] and [ref_.erase(heap_.back().id)] leave of the nodes
    held. *)
Lemma pop_back_node_of t (back : TimerNode CB) :
  ref_exact t -> last (heap_ t) = Some back ->
  let t' := {| heap_ := removelast (heap_ t);
               ref_ := delete (id back) (ref_ t) |} in
  node_of t' (id back) = None
  /\ forall k : Z, k <> id back -> node_of t' k = node_of t k.
Proof.
  intros Hex Hlast t'. unfold node_of, t'. cbn [heap_ ref_]. split.
  - now rewrite lookup_delete_eq.
  - intros k Hk. rewrite lookup_delete_ne by congruence.
    destruct (ref_ t !! k) as [x |] eqn:Er; [| reflexivity]. cbn.
    apply Hex in Er as [Hx Hid]. unfold size, vec_size in Hx.
    rewrite last_lookup in Hlast.
    assert (Hne : Z.to_nat x <> Nat.pred (length (heap_ t))).
    { intros E. rewrite E, Hlast in Hid. cbn in Hid. congruence. }
    rewrite removelast_firstn_len. apply lookup_take_lt. lia.
Qed.

(** The state [del_] reaches before it pops the back of the vector. *)
Lemma del_mid (index : Z) t t' :
  0 <= index -> inv t -> size t < SIZE_BOUND ->
  del_ index t = Ok t' ->
  index < size t
  /\ exists t2,
       heap_ordered (size t - 1) (heap_ t2) /\ size t2 = size t
       /\ ref_exact t2 /\ same_nodes t t2
       /\ last (heap_ t2) = heap_ t !! Z.to_nat index
       /\ match last (heap_ t2) with
          | Some back => Ok {| heap_ := removelast (heap_ t2);
                               ref_ := delete (id back) (ref_ t2) |}
          | None => Crash (OutOfBounds (wrap_size (-1)))
          end = Ok t'.
Proof.
  intros Hidx [Ho Hex] Hsz Hrun. pose proof Hsz as Hsz'.
  unfold SIZE_BOUND in Hsz'. unfold del_ in Hrun.
  destruct (Z.ltb_spec index (size t)) as [Hlt | ?]; [| discriminate Hrun].
  cbn [negb] in Hrun. cbn zeta in Hrun. split; [exact Hlt |].
  rewrite (wrap_size_small (size t - 1)) in Hrun by lia.
  destruct (Z.leb_spec index (size t - 1)); [| lia]. cbn [negb] in Hrun.
  apply bind_Ok in Hrun as (t2 & H2 & Hpop). exists t2.
  assert (Hlastpos : forall u : HeapTimer CB, size u = size t ->
            last (heap_ u) = heap_ u !! Z.to_nat (size t - 1)).
  { intros u Hu. rewrite last_lookup. f_equal.
    unfold size, vec_size in *. lia. }
  destruct (Z.ltb_spec index (size t - 1)) as [Hin | Hlast].
  - destruct (SwapNode_Ok t index (size t - 1)) as (nx & nl & Lx & Ll & Hsw);
      [lia | lia |].
    rewrite Hsw in H2. cbn [bind] in H2.
    apply bind_Ok in H2 as (r & Hdown & Hup).
    set (t1 := {| heap_ := swapped (heap_ t) index (size t - 1) nx nl;
                  ref_ := <[id nx := size t - 1]>
                            (<[id nl := index]> (ref_ t)) |}) in *.
    assert (Hsz1 : size t1 = size t) by apply length_swapped.
    assert (Hd : forall k, 0 <= k < size t - 1 -> k <> index ->
                  deadline (heap_ t1) k = deadline (heap_ t) k).
    { intros k Hk Hki. unfold t1. cbn [heap_].
      rewrite (deadline_swapped _ index (size t - 1) k nx nl);
        unfold size in *; auto with lia.
      destruct (Z.eqb_spec k (vec_size (heap_ t) - 1)); [lia |].
      destruct (Z.eqb_spec k index); [lia | reflexivity]. }
    assert (Hsame1 : same_nodes t t1).
    { intros n. unfold t1. cbn [heap_]. apply swapped_elem;
        unfold size in *; (assumption || lia). }
    assert (Hsame2 : same_nodes t1 t2).
    { apply siftdown_same_nodes in Hdown.
      destruct (negb (fst r)); [| injection Hup as <-; exact Hdown].
      apply siftup_same_nodes in Hup.
      eapply same_nodes_trans; [exact Hdown | exact Hup]. }
    apply (resift_spec index (size t - 1) t1 r t2) in Hup;
      try (assumption || lia).
    + destruct Hup as (Ho2 & Hs2 & Hr2 & Hf2).
      split; [exact Ho2 |]. split; [lia |]. split; [exact Hr2 |].
      split; [eapply same_nodes_trans; eassumption |].
      split; [| exact Hpop].
      rewrite Hlastpos by lia. rewrite Hf2 by lia. unfold t1. cbn [heap_].
      rewrite (lookup_swapped (heap_ t) index (size t - 1) (size t - 1) nx nl);
        unfold size in *; try (assumption || lia).
      rewrite Z.eqb_refl. now rewrite Lx.
    + split.
      * intros j Hj Hji Hjp.
        assert (Hp : 0 <= parent j < j)
          by (unfold parent; Z.div_mod_to_equations; lia).
        rewrite !Hd by lia. apply Ho. lia.
      * intros c Hc Hcp Hpos.
        assert (Hp : 0 <= parent index < index)
          by (unfold parent; Z.div_mod_to_equations; lia).
        rewrite !Hd by (unfold parent in *; Z.div_mod_to_equations; lia).
        pose proof (Ho c ltac:(lia)) as H1.
        pose proof (Ho index ltac:(lia)) as H3.
        rewrite Hcp in H1. lia.
    + apply ref_exact_swapped; (assumption || lia).
  - injection H2 as <-.
    split; [intros j Hj; apply Ho; lia |]. split; [reflexivity |].
    split; [exact Hex |]. split; [apply same_nodes_refl |].
    split; [| exact Hpop].
    rewrite Hlastpos by reflexivity. f_equal. lia.
Qed.


(** With every edge above [i] in order, the root is not later than any
    node before [i]. *)
Lemma up_hole_root_min (n i : Z) h :
  up_hole n i h ->
  forall j : Z, 0 <= j < i -> j < n -> deadline h 0 <= deadline h j.
Proof.
  intros [Hedges _] j. induction (Z.lt_wf 0 j) as [j _ IH]. intros Hj Hn.
  destruct (Z.eq_dec j 0) as [-> | Hne]; [lia |].
  assert (Hp : 0 <= parent j < j)
    by (unfold parent; Z.div_mod_to_equations; lia).
  transitivity (deadline h (parent j)); [apply IH; lia |].
  apply Hedges; lia.
Qed.

(** How [siftup_] ends: it returns when the node meets a node above it
    that is not later, which (the nodes above being in order) is when the
    root is not later; a node earlier than the root is carried up to the
    root, and the next turn of the loop indexes the vector at the parent
    of the root. *)
Lemma siftup_loop_outcome (fuel : nat) :
  forall (i : Z) t,
    0 <= i < size t -> size t < SIZE_BOUND -> (Z.to_nat i < fuel)%nat ->
    (forall j : Z, 0 <= j < i -> deadline (heap_ t) 0 <= deadline (heap_ t) j) ->
    if (0 <? i) && (deadline (heap_ t) 0 <=? deadline (heap_ t) i)
    then exists t', siftup_loop fuel i (wrap_size (i - 1) / 2) t = Ok t'
    else siftup_loop fuel i (wrap_size (i - 1) / 2) t
         = Crash (OutOfBounds PARENT_OF_ROOT).
Proof.
  induction fuel as [| fuel IH]; intros i t Hi Hsz Hfuel Hmin; [lia |].
  pose proof Hsz as Hsz'. unfold SIZE_BOUND in Hsz'. cbn [siftup_loop].
  destruct (Z.eq_dec i 0) as [-> | Hi0].
  { change (wrap_size (0 - 1) / 2) with PARENT_OF_ROOT.
    change (0 <=? PARENT_OF_ROOT) with true. cbn iota.
    rewrite vec_at_past_end; [reflexivity |].
    unfold size, PARENT_OF_ROOT in *. lia. }
  destruct (Z.ltb_spec 0 i) as [_ | ?]; [| lia]. cbn [andb].
  assert (Hpar : wrap_size (i - 1) / 2 = parent i).
  { unfold parent. rewrite wrap_size_small by lia. reflexivity. }
  rewrite Hpar.
  assert (Hp : 0 <= parent i < i)
    by (unfold parent; Z.div_mod_to_equations; lia).
  destruct (Z.leb_spec 0 (parent i)) as [_ | ?]; [| lia].
  destruct (vec_at_lookup (heap_ t) (parent i)) as (np & Lp & ->);
    [unfold size in *; lia |].
  destruct (vec_at_lookup (heap_ t) i) as (ni & Li & ->);
    [unfold size in *; lia |]. cbn [bind].
  rewrite (deadline_lookup _ _ _ Li).
  pose proof (Hmin (parent i) ltac:(lia)) as Hroot.
  rewrite (deadline_lookup _ _ _ Lp) in Hroot.
  destruct (Z.gtb_spec (expires np) (expires ni)) as [Hgt | Hle].
  - destruct (SwapNode_Ok t i (parent i)) as (ni' & np' & Li' & Lp' & ->);
      [lia | lia |].
    rewrite Li in Li'. injection Li' as <-.
    rewrite Lp in Lp'. injection Lp' as <-. cbn [bind].
    set (t1 := {| heap_ := swapped (heap_ t) i (parent i) ni np;
                  ref_ := <[id ni := parent i]> (<[id np := i]> (ref_ t)) |}).
    assert (Hsz1 : size t1 = size t) by apply length_swapped.
    assert (Hd : forall k, 0 <= k ->
                  deadline (heap_ t1) k
                  = if k =? parent i then expires ni
                    else if k =? i then expires np
                    else deadline (heap_ t) k).
    { intros k Hk. unfold t1. cbn [heap_].
      rewrite (deadline_swapped _ i (parent i) k ni np);
        unfold size in *; auto with lia.
      now rewrite (deadline_lookup _ _ _ Li), (deadline_lookup _ _ _ Lp). }
    specialize (IH (parent i) t1 ltac:(lia) ltac:(lia) ltac:(lia)).
    assert (Hmin1 : forall j : Z, 0 <= j < parent i ->
                      deadline (heap_ t1) 0 <= deadline (heap_ t1) j).
    { intros j Hj. rewrite (Hd 0), (Hd j) by lia.
      destruct (Z.eqb_spec 0 (parent i)); [lia |].
      destruct (Z.eqb_spec 0 i); [lia |].
      destruct (Z.eqb_spec j (parent i)); [lia |].
      destruct (Z.eqb_spec j i); [lia |]. apply Hmin. lia. }
    specialize (IH Hmin1). rewrite (Hd 0), (Hd (parent i)) in IH by lia.
    rewrite Z.eqb_refl in IH.
    destruct (Z.eqb_spec 0 (parent i)) as [E0 | N0].
    + (* the parent is the root *)
      rewrite <- E0 in *. cbn [Z.ltb andb] in IH.
      change (0 <? 0) with false in IH. cbn [andb] in IH.
      rewrite (deadline_lookup _ _ _ Lp).
      destruct (Z.leb_spec (expires np) (expires ni)); [lia | exact IH].
    + destruct (Z.eqb_spec 0 i); [lia |].
      destruct (Z.ltb_spec 0 (parent i)) as [_ | ?]; [| lia].
      cbn [andb] in IH. exact IH.
  - destruct (Z.leb_spec (deadline (heap_ t) 0) (expires ni)); [eauto | lia].
Qed.

Lemma siftup_outcome (i : Z) t :
  0 <= i < size t -> size t < SIZE_BOUND ->
  (forall j : Z, 0 <= j < i -> deadline (heap_ t) 0 <= deadline (heap_ t) j) ->
  if (0 <? i) && (deadline (heap_ t) 0 <=? deadline (heap_ t) i)
  then exists t', siftup_ i t = Ok t'
  else siftup_ i t = Crash (OutOfBounds PARENT_OF_ROOT).
Proof.
  intros Hi Hsz Hmin. unfold siftup_.
  destruct (Z.ltb_spec i (size t)); [| lia]. cbn [negb].
  apply siftup_loop_outcome; (assumption || lia).
Qed.


(** X1. [SwapNode_] on two positions of the heap exchanges the nodes and
    moves their [ref_] entries with them. *)
Theorem SwapNode_keeps_ref_exact t (i j : Z) :
  ref_exact t -> 0 <= i < size t -> 0 <= j < size t ->
  exists t',
    SwapNode_ i j t = Ok t' /\ ref_exact t' /\ size t' = size t
    /\ same_nodes t t'
    /\ heap_ t' !! Z.to_nat i = heap_ t !! Z.to_nat j
    /\ heap_ t' !! Z.to_nat j = heap_ t !! Z.to_nat i.
Proof.
  intros Hex Hi Hj.
  destruct (SwapNode_Ok t i j Hi Hj) as (ni & nj & Li & Lj & Hsw).
  eexists. split; [exact Hsw |].
  split; [now apply ref_exact_swapped |].
  split; [apply length_swapped |].
  split; [eapply SwapNode_same_nodes, Hsw |]. cbn [heap_].
  rewrite (lookup_swapped (heap_ t) i j i ni nj),
    (lookup_swapped (heap_ t) i j j ni nj);
    unfold size in *; try (assumption || lia).
  rewrite !Z.eqb_refl. destruct (Z.eqb_spec i j) as [-> | _].
  - rewrite Li in Lj. injection Lj as ->. now rewrite Li.
  - now rewrite Li, Lj.
Qed.

Lemma siftdown_returns (k n : Z) t :
  0 <= k < n -> n <= size t -> size t < SIZE_BOUND -> ref_exact t ->
  hole n k (heap_ t) ->
  (0 < k -> deadline (heap_ t) (parent k) <= deadline (heap_ t) k) ->
  exists r,
    siftdown_ k n t = Ok r
    /\ heap_ordered n (heap_ (snd r)) /\ size (snd r) = size t
    /\ ref_exact (snd r) /\ same_nodes t (snd r)
    /\ (fst r = false -> snd r = t).
Proof.
  intros Hk Hn Hsz Hex Hhole Hup.
  assert (Htot : exists r, siftdown_ k n t = Ok r).
  { unfold siftdown_.
    destruct (Z.ltb_spec k (size t)); [| lia]. cbn [negb].
    destruct (Z.leb_spec n (size t)); [| lia]. cbn [negb].
    apply siftdown_loop_total; try (assumption || lia).
    unfold size, vec_size in *. lia. }
  destruct Htot as [r Hr]. exists r. split; [exact Hr |].
  destruct (siftdown_spec k n t r Hk Hn Hsz Hhole Hex Hup Hr) as (Ho & Hs & Hx).
  split; [exact Ho |]. split; [exact Hs |]. split; [exact Hx |].
  split; [eapply siftdown_same_nodes, Hr |].
  intros Hfalse. unfold siftdown_ in Hr.
  destruct (Z.ltb_spec k (size t)); [| lia]. cbn [negb] in Hr.
  destruct (Z.leb_spec n (size t)); [| lia]. cbn [negb] in Hr.
  destruct r as [m t']. cbn [fst snd] in *. subst m.
  apply siftdown_loop_spec in Hr; try (assumption || lia).
  destruct Hr as (_ & _ & _ & _ & [[-> _] | [Hm _]]);
    [reflexivity | discriminate Hm].
Qed.

(** X2. [siftdown_] on a position whose node may be later than the nodes
    below it, the rest of the first [n] nodes being in order: it comes
    back with the first [n] nodes in order, the same nodes stored and
    [ref_] exact; and when it reports that nothing moved, nothing has. *)
Theorem siftdown_closes_hole (k n : Z) t :
  0 <= k < n -> n <= size t -> size t < SIZE_BOUND -> ref_exact t ->
  hole n k (heap_ t) ->
  (0 < k -> deadline (heap_ t) (parent k) <= deadline (heap_ t) k) ->
  exists r,
    siftdown_ k n t = Ok r
    /\ heap_ordered n (heap_ (snd r)) /\ size (snd r) = size t
    /\ ref_exact (snd r) /\ same_nodes t (snd r)
    /\ (fst r = false -> snd r = t).
Proof. exact (siftdown_returns k n t). Qed.


(** The node to delete exchanged with the last one: a hole at [index]
    among the nodes before the last. *)
Lemma swap_with_last t (index : Z) :
  inv t -> size t < SIZE_BOUND -> 0 <= index < size t - 1 ->
  exists t1,
    SwapNode_ index (size t - 1) t = Ok t1
    /\ size t1 = size t /\ ref_exact t1
    /\ hole (size t - 1) index (heap_ t1)
    /\ (forall k : Z, 0 <= k < size t - 1 -> k <> index ->
                     deadline (heap_ t1) k = deadline (heap_ t) k)
    /\ deadline (heap_ t1) index = deadline (heap_ t) (size t - 1).
Proof.
  intros [Ho Hex] Hsz Hidx.
  destruct (SwapNode_Ok t index (size t - 1)) as (nx & nl & Lx & Ll & Hsw);
    [lia | lia |].
  eexists. split; [exact Hsw |].
  set (t1 := {| heap_ := swapped (heap_ t) index (size t - 1) nx nl;
                ref_ := <[id nx := size t - 1]>
                          (<[id nl := index]> (ref_ t)) |}).
  assert (Hd : forall k, 0 <= k ->
                deadline (heap_ t1) k
                = if k =? size t - 1 then deadline (heap_ t) index
                  else if k =? index then deadline (heap_ t) (size t - 1)
                  else deadline (heap_ t) k).
  { intros k Hk. unfold t1. cbn [heap_].
    apply deadline_swapped; unfold size in *; auto with lia. }
  assert (Hd' : forall k, 0 <= k < size t - 1 -> k <> index ->
                  deadline (heap_ t1) k = deadline (heap_ t) k).
  { intros k Hk Hki. rewrite Hd by lia.
    destruct (Z.eqb_spec k (size t - 1)); [lia |].
    destruct (Z.eqb_spec k index); [lia | reflexivity]. }
  split; [apply length_swapped |].
  split; [apply ref_exact_swapped; (assumption || lia) |].
  split; [| split; [exact Hd' |]].
  - split.
    + intros j Hj Hji Hjp.
      assert (Hp : 0 <= parent j < j)
        by (unfold parent; Z.div_mod_to_equations; lia).
      rewrite !Hd' by lia. apply Ho. lia.
    + intros c Hc Hcp Hpos.
      assert (Hp : 0 <= parent index < index)
        by (unfold parent; Z.div_mod_to_equations; lia).
      rewrite !Hd' by (unfold parent in *; Z.div_mod_to_equations; lia).
      pose proof (Ho c ltac:(lia)) as H1.
      pose proof (Ho index ltac:(lia)) as H3.
      rewrite Hcp in H1. lia.
  - rewrite Hd by lia. destruct (Z.eqb_spec index (size t - 1)); [lia |].
    now rewrite Z.eqb_refl.
Qed.

(** [del_] comes back when the node is not the root, or is the last
    one. *)
Lemma del_total (index : Z) t :
  inv t -> size t < SIZE_BOUND -> 0 <= index < size t ->
  0 < index \/ index = size t - 1 ->
  exists t', del_ index t = Ok t'.
Proof.
  intros Hinv Hsz Hidx Hcase. pose proof Hsz as Hsz'.
  unfold SIZE_BOUND in Hsz'. unfold del_.
  destruct (Z.ltb_spec index (size t)); [| lia]. cbn [negb]. cbn zeta.
  rewrite (wrap_size_small (size t - 1)) by lia.
  destruct (Z.leb_spec index (size t - 1)); [| lia]. cbn [negb].
  assert (Hpop : forall t2 : HeapTimer CB, size t2 = size t ->
            exists t',
              match last (heap_ t2) with
              | Some back => Ok {| heap_ := removelast (heap_ t2);
                                   ref_ := delete (id back) (ref_ t2) |}
              | None => Crash (OutOfBounds (wrap_size (-1)))
              end = Ok t').
  { intros t2 Hs2. rewrite last_lookup.
    destruct (heap_ t2 !! Nat.pred (length (heap_ t2))) eqn:E; [eauto |].
    apply lookup_ge_None in E. unfold size, vec_size in *. lia. }
  destruct (Z.ltb_spec index (size t - 1)) as [Hin | Hlast].
  2:{ cbn [bind]. now apply Hpop. }
  destruct (swap_with_last t index Hinv Hsz ltac:(lia))
    as (t1 & -> & Hs1 & Hx1 & Hh1 & Hd1 & Hdi). cbn [bind].
  assert (Hroot : forall j : Z, 0 <= j < size t ->
                    deadline (heap_ t) 0 <= deadline (heap_ t) j).
  { apply root_is_minimum, Hinv. }
  assert (Hdown : exists r, siftdown_ index (size t - 1) t1 = Ok r).
  { unfold siftdown_.
    destruct (Z.ltb_spec index (size t1)); [| lia]. cbn [negb].
    destruct (Z.leb_spec (size t - 1) (size t1)); [| lia]. cbn [negb].
    apply siftdown_loop_total; try lia.
    unfold size, vec_size in *. lia. }
  destruct Hdown as [[m t2] Hdown]. rewrite Hdown. cbn [bind fst snd].
  assert (Hs2 : size t2 = size t).
  { unfold siftdown_ in Hdown.
    destruct (Z.ltb_spec index (size t1)); [| lia]. cbn [negb] in Hdown.
    destruct (Z.leb_spec (size t - 1) (size t1)); [| lia]. cbn [negb] in Hdown.
    apply siftdown_loop_spec in Hdown; (assumption || lia). }
  destruct m; cbn [negb].
  { cbn [bind]. now apply Hpop. }
  assert (Hsame : t2 = t1).
  { unfold siftdown_ in Hdown.
    destruct (Z.ltb_spec index (size t1)); [| lia]. cbn [negb] in Hdown.
    destruct (Z.leb_spec (size t - 1) (size t1)); [| lia]. cbn [negb] in Hdown.
    apply siftdown_loop_spec in Hdown; try (assumption || lia).
    destruct Hdown as (_ & _ & _ & _ & [[-> _] | [Hm _]]);
      [reflexivity | discriminate Hm]. }
  subst t2.
  pose proof (siftup_outcome index t1 ltac:(lia) ltac:(lia)) as Hout.
  assert (Hpos : 0 < index) by lia.
  assert (Hmin1 : forall j : Z, 0 <= j < index ->
                    deadline (heap_ t1) 0 <= deadline (heap_ t1) j).
  { intros j Hj. rewrite (Hd1 0), (Hd1 j) by lia. apply Hroot. lia. }
  specialize (Hout Hmin1). rewrite Hdi, (Hd1 0) in Hout by lia.
  destruct (Z.ltb_spec 0 index); [| lia].
  destruct (Z.leb_spec (deadline (heap_ t) 0) (deadline (heap_ t) (size t - 1)))
    as [_ | Hbad].
  2:{ pose proof (Hroot (size t - 1) ltac:(lia)). lia. }
  cbn [andb] in Hout. destruct Hout as [t3 Hup3]. rewrite Hup3. cbn [bind].
  apply Hpop. apply siftup_size in Hup3. lia.
Qed.


(** Wherever [del_] returns, it has removed the node at [index] and no
    other. *)
Lemma del_content (index : Z) t t' (node : TimerNode CB) :
  0 <= index -> inv t -> size t < SIZE_BOUND ->
  heap_ t !! Z.to_nat index = Some node ->
  del_ index t = Ok t' ->
  inv t' /\ size t' = size t - 1
  /\ node_of t' (id node) = None
  /\ (forall k : Z, k <> id node -> node_of t' k = node_of t k)
  /\ (forall n : TimerNode CB, n ∈ heap_ t' -> n ∈ heap_ t).
Proof.
  intros Hidx Hinv Hsz Hnode Hrun.
  destruct (del_spec index t t' Hidx Hinv Hsz Hrun) as [Hinv' Hs'].
  split; [exact Hinv' |]. split; [exact Hs' |].
  destruct (del_mid index t t' Hidx Hinv Hsz Hrun)
    as (_ & t2 & _ & _ & Hx2 & Hsame & Hlast & Hpop).
  rewrite Hnode in Hlast. rewrite Hlast in Hpop. injection Hpop as <-.
  destruct (pop_back_node_of t2 node Hx2 Hlast) as [Hgone Hkept].
  split; [exact Hgone |]. split.
  - intros k Hk. rewrite Hkept by exact Hk.
    apply node_of_same; [apply Hinv | exact Hx2 | exact Hsame].
  - intros n Hin. cbn [heap_] in Hin. apply Hsame.
    rewrite removelast_firstn_len in Hin.
    eapply list_elem_of_lookup in Hin as [x Hx].
    apply list_elem_of_lookup. exists x.
    apply lookup_take_Some in Hx. apply Hx.
Qed.

Lemma del_below_root (index : Z) t (node : TimerNode CB) :
  inv t -> size t < SIZE_BOUND -> 0 <= index ->
  heap_ t !! Z.to_nat index = Some node ->
  0 < index \/ index = size t - 1 ->
  exists t',
    del_ index t = Ok t'
    /\ inv t' /\ size t' = size t - 1
    /\ node_of t' (id node) = None
    /\ forall k : Z, k <> id node -> node_of t' k = node_of t k.
Proof.
  intros Hinv Hsz Hidx Hnode Hcase.
  assert (Hlt : index < size t).
  { apply lookup_lt_Some in Hnode. unfold size, vec_size. lia. }
  destruct (del_total index t Hinv Hsz ltac:(lia) Hcase) as [t' Hrun].
  exists t'. split; [exact Hrun |].
  destruct (del_content index t t' node Hidx Hinv Hsz Hnode Hrun)
    as (H1 & H2 & H3 & H4 & _). auto.
Qed.

(** X4. [del_] of a node that is not the root, or is the last one of the
    vector, returns; the timer then holds every node it held but that
    one, in heap order and with [ref_] exact. *)
Theorem del_removes_node (index : Z) t (node : TimerNode CB) :
  inv t -> size t < SIZE_BOUND -> 0 <= index ->
  heap_ t !! Z.to_nat index = Some node ->
  0 < index \/ index = size t - 1 ->
  exists t',
    del_ index t = Ok t'
    /\ inv t' /\ size t' = size t - 1
    /\ node_of t' (id node) = None
    /\ forall k : Z, k <> id node -> node_of t' k = node_of t k.
Proof. exact (del_below_root index t node). Qed.


Lemma overwrite_node_of t (idx : Z) (node node' : TimerNode CB) :
  ref_exact t -> 0 <= idx < size t ->
  heap_ t !! Z.to_nat idx = Some node -> id node' = id node ->
  let t1 := {| heap_ := <[Z.to_nat idx := node']> (heap_ t);
               ref_ := ref_ t |} in
  node_of t1 (id node) = Some node'
  /\ forall k : Z, k <> id node -> node_of t1 k = node_of t k.
Proof.
  intros Hex Hidx Ln Hid t1. unfold node_of, t1. cbn [heap_ ref_].
  assert (Hr : ref_ t !! id node = Some idx).
  { apply Hex. split; [exact Hidx |]. now rewrite Ln. }
  split.
  - rewrite Hr. cbn. apply list_lookup_insert_eq.
    unfold size, vec_size in Hidx. lia.
  - intros k Hk. destruct (ref_ t !! k) as [x |] eqn:Er; [| reflexivity]. cbn.
    apply list_lookup_insert_ne. intros E.
    apply Hex in Er as [Hx Hl]. rewrite <- E, Ln in Hl. cbn in Hl. congruence.
Qed.

Lemma push_node_of t (node : TimerNode CB) :
  ref_exact t -> ref_ t !! id node = None ->
  let t1 := {| heap_ := heap_ t ++ [node];
               ref_ := <[id node := size t]> (ref_ t) |} in
  node_of t1 (id node) = Some node
  /\ forall k : Z, k <> id node -> node_of t1 k = node_of t k.
Proof.
  intros Hex Hnew t1. unfold node_of, t1. cbn [heap_ ref_]. split.
  - rewrite lookup_insert_eq. cbn. unfold size, vec_size.
    rewrite Nat2Z.id, lookup_app_r by lia. now rewrite Nat.sub_diag.
  - intros k Hk. rewrite lookup_insert_ne by congruence.
    destruct (ref_ t !! k) as [x |] eqn:Er; [| reflexivity]. cbn.
    apply Hex in Er as [Hx _]. apply lookup_app_l.
    unfold size, vec_size in Hx. lia.
Qed.

(** [del_] either returns or stops at the parent of the root. *)
Lemma del_outcome (index : Z) t :
  inv t -> size t < SIZE_BOUND -> 0 <= index < size t ->
  (exists t', del_ index t = Ok t')
  \/ del_ index t = Crash (OutOfBounds PARENT_OF_ROOT).
Proof.
  intros Hinv Hsz Hidx.
  destruct (decide (0 < index \/ index = size t - 1)) as [Hcase | Hroot].
  { left. now apply del_total. }
  assert (index = 0) as -> by lia. assert (Hlast : 0 < size t - 1) by lia.
  pose proof Hsz as Hsz'. unfold SIZE_BOUND in Hsz'. unfold del_.
  destruct (Z.ltb_spec 0 (size t)); [| lia]. cbn [negb]. cbn zeta.
  rewrite (wrap_size_small (size t - 1)) by lia.
  destruct (Z.leb_spec 0 (size t - 1)); [| lia]. cbn [negb].
  destruct (Z.ltb_spec 0 (size t - 1)); [| lia].
  destruct (swap_with_last t 0 Hinv Hsz ltac:(lia))
    as (t1 & -> & Hs1 & Hx1 & Hh1 & _). cbn [bind].
  assert (Hdown : exists r, siftdown_ 0 (size t - 1) t1 = Ok r).
  { unfold siftdown_.
    destruct (Z.ltb_spec 0 (size t1)); [| lia]. cbn [negb].
    destruct (Z.leb_spec (size t - 1) (size t1)); [| lia]. cbn [negb].
    apply siftdown_loop_total; try lia.
    unfold size, vec_size in *. lia. }
  destruct Hdown as [[m t2] Hdown]. rewrite Hdown. cbn [bind fst snd].
  pose proof (siftdown_size _ _ _ _ Hdown) as Hs2. cbn [snd] in Hs2.
  destruct m; cbn [negb].
  - left. cbn [bind]. rewrite last_lookup.
    destruct (heap_ t2 !! Nat.pred (length (heap_ t2))) eqn:E; [eauto |].
    apply lookup_ge_None in E. unfold size, vec_size in *. lia.
  - right.
    assert (Hsame : t2 = t1).
    { unfold siftdown_ in Hdown.
      destruct (Z.ltb_spec 0 (size t1)); [| lia]. cbn [negb] in Hdown.
      destruct (Z.leb_spec (size t - 1) (size t1)); [| lia].
      cbn [negb] in Hdown.
      apply siftdown_loop_spec in Hdown; try (assumption || lia).
      destruct Hdown as (_ & _ & _ & _ & [[-> _] | [Hm _]]);
        [reflexivity | discriminate Hm]. }
    subst t2. rewrite siftup_at_root; [reflexivity | lia].
Qed.


End HeapContentFacts.

(** ** The operations of the timer, by what they store *)

Section HeapStoreFacts.

Import HeapTimer.

Context {CB : Type}.
Variable clock : nat -> Z.

Implicit Type t : HeapTimer CB.
Implicit Type w : World CB.

Lemma adjust_unfold (id0 newExpires idx : Z) w (node : TimerNode CB) :
  ref_ (timer w) !! id0 = Some idx -> 0 <= idx ->
  heap_ (timer w) !! Z.to_nat idx = Some node ->
  adjust clock id0 newExpires w
  = (let t1 := {| heap_ := <[Z.to_nat idx :=
                             set_expires (clock (reads w) + MS newExpires) node]>
                             (heap_ (timer w));
                  ref_ := ref_ (timer w) |} in
     r <- siftdown_ idx (size t1) t1 ;;
     Ok {| timer := snd r; fired := fired w; reads := S (reads w) |}).
Proof.
  intros Er Hidx Ln. unfold adjust. cbn zeta. rewrite Er.
  assert (Hv : vec_at (heap_ (timer w)) idx = Ok node).
  { apply vec_at_Ok. split; [| exact Ln].
    apply lookup_lt_Some in Ln. unfold vec_size. lia. }
  rewrite Hv. cbn [bind].
  destruct (heap_ (timer w)); [discriminate Ln | reflexivity].
Qed.

Lemma doWork_unfold (id0 idx : Z) w (node : TimerNode CB) :
  ref_ (timer w) !! id0 = Some idx -> 0 <= idx ->
  heap_ (timer w) !! Z.to_nat idx = Some node ->
  doWork id0 w
  = (t' <- del_ idx (timer w) ;;
     Ok {| timer := t'; fired := fired w ++ [cb node]; reads := reads w |}).
Proof.
  intros Er Hidx Ln. unfold doWork. cbn zeta. rewrite Er.
  assert (Hv : vec_at (heap_ (timer w)) idx = Ok node).
  { apply vec_at_Ok. split; [| exact Ln].
    apply lookup_lt_Some in Ln. unfold vec_size. lia. }
  rewrite Hv. cbn [bind].
  destruct (heap_ (timer w)); [discriminate Ln | reflexivity].
Qed.

(** X5. Wherever [add] returns, the timer holds for the id a node with the
    new deadline and callback, every other id keeps its node, and the
    heap is in order with [ref_] exact. *)
Theorem add_stores_node (id0 timeOut : Z) (c : CB) w w' :
  inv (timer w) -> size (timer w) + 1 < SIZE_BOUND ->
  add clock id0 timeOut c w = Ok w' ->
  inv (timer w')
  /\ node_of (timer w') id0
     = Some (mkTimerNode id0 (clock (reads w) + MS timeOut) c)
  /\ (forall k : Z, k <> id0 -> node_of (timer w') k = node_of (timer w) k)
  /\ size (timer w')
     = (if decide (is_Some (ref_ (timer w) !! id0))
        then size (timer w) else size (timer w) + 1)
  /\ fired w' = fired w.
Proof.
  intros Hinv Hsz Hrun.
  destruct (add_spec clock id0 timeOut c w w' Hinv Hsz Hrun) as [Hinv' _].
  split; [exact Hinv' |].
  pose proof Hsz as Hsz'. unfold SIZE_BOUND in Hsz'.
  unfold add in Hrun. cbn zeta in Hrun.
  destruct (0 <=? id0); [| discriminate Hrun]. cbn [negb] in Hrun.
  destruct (ref_ (timer w) !! id0) as [idx |] eqn:Er.
  - destruct (ref_in_range _ _ _ (proj2 Hinv) Er) as (Hidx & node & Ln & Hid).
    rewrite (wrap_int_small idx) in Hrun by lia.
    rewrite (wrap_size_small idx) in Hrun by lia.
    apply bind_Ok in Hrun as (node' & Hv & Hrun).
    apply vec_at_Ok in Hv as [_ Hv]. rewrite Ln in Hv. injection Hv as <-.
    apply bind_Ok in Hrun as (r & Hdown & Hrun).
    apply bind_Ok in Hrun as (t3 & Hup & Hrun). injection Hrun as <-.
    cbn [timer fired] in *.
    set (node' := set_cb c (set_expires (clock (reads w) + MS timeOut) node))
      in *.
    destruct (overwrite_spec (timer w) idx node node' Hinv Hidx Ln eq_refl)
      as (Hs & Hr & _).
    destruct (overwrite_node_of (timer w) idx node node' (proj2 Hinv) Hidx Ln
                eq_refl) as [Hmine Hothers].
    set (t1 := {| heap_ := <[Z.to_nat idx := node']> (heap_ (timer w));
                  ref_ := ref_ (timer w) |}) in *.
    assert (Hsame : same_nodes t1 t3).
    { apply siftdown_same_nodes in Hdown.
      destruct (negb (fst r)); [| injection Hup as <-; exact Hdown].
      apply siftup_same_nodes in Hup.
      eapply same_nodes_trans; [exact Hdown | exact Hup]. }
    assert (Hsize : size t3 = size (timer w)).
    { apply siftdown_size in Hdown.
      destruct (negb (fst r)).
      - apply siftup_size in Hup. lia.
      - injection Hup as <-. lia. }
    assert (Hnode' : node' = mkTimerNode id0 (clock (reads w) + MS timeOut) c).
    { unfold node', set_cb, set_expires. cbn. now rewrite Hid. }
    rewrite <- Hnode'. rewrite <- Hid in *.
    split; [| split; [| split; [| reflexivity]]].
    + rewrite (node_of_same t1 t3) by (assumption || apply Hinv').
      exact Hmine.
    + intros k Hk. rewrite (node_of_same t1 t3) by (assumption || apply Hinv').
      now apply Hothers.
    + destruct (decide (is_Some (Some idx))) as [_ | Hno]; [exact Hsize |].
      exfalso. apply Hno. eauto.
  - apply bind_Ok in Hrun as (t2 & Hup & Hrun). injection Hrun as <-.
    cbn [timer fired] in *.
    set (node := mkTimerNode id0 (clock (reads w) + MS timeOut) c) in *.
    destruct (push_spec (timer w) node Hinv Er) as (Hs & Hr & _).
    destruct (push_node_of (timer w) node (proj2 Hinv) Er) as [Hmine Hothers].
    cbn [id node] in *.
    set (t1 := {| heap_ := heap_ (timer w) ++ [node];
                  ref_ := <[id0 := size (timer w)]> (ref_ (timer w)) |}) in *.
    pose proof (siftup_same_nodes _ _ _ Hup) as Hsame.
    pose proof (siftup_size _ _ _ Hup) as Hsize.
    split; [| split; [| split; [| reflexivity]]].
    + rewrite (node_of_same t1 t2) by (assumption || apply Hinv').
      exact Hmine.
    + intros k Hk. rewrite (node_of_same t1 t2) by (assumption || apply Hinv').
      now apply Hothers.
    + destruct (decide (is_Some (@None Z))) as [[x Hx] | _];
        [discriminate Hx | lia].
Qed.


(** X7. [adjust] of an id the timer holds, with a deadline not earlier than
    the one it has: the call returns, the id has the new deadline and
    its callback, every other id keeps its node, and the heap is in
    order with [ref_] exact. *)
Theorem adjust_extends_deadline (id0 newExpires : Z) w (node : TimerNode CB) :
  inv (timer w) -> size (timer w) < SIZE_BOUND ->
  node_of (timer w) id0 = Some node ->
  expires node <= clock (reads w) + MS newExpires ->
  exists w',
    adjust clock id0 newExpires w = Ok w'
    /\ inv (timer w') /\ size (timer w') = size (timer w)
    /\ node_of (timer w') id0
       = Some (mkTimerNode id0 (clock (reads w) + MS newExpires) (cb node))
    /\ (forall k : Z, k <> id0 -> node_of (timer w') k = node_of (timer w) k)
    /\ fired w' = fired w.
Proof.
  intros Hinv Hsz Hnode Hext.
  unfold node_of in Hnode.
  destruct (ref_ (timer w) !! id0) as [idx |] eqn:Er; [| discriminate Hnode].
  cbn in Hnode.
  destruct (ref_in_range _ _ _ (proj2 Hinv) Er) as (Hidx & node0 & Ln & Hid).
  rewrite Hnode in Ln. injection Ln as <-.
  set (e := clock (reads w) + MS newExpires) in *.
  set (node' := set_expires e node).
  destruct (overwrite_spec (timer w) idx node node' Hinv Hidx Hnode eq_refl)
    as (Hs & Hr & Hh & Hdi & Hdo).
  destruct (overwrite_node_of (timer w) idx node node' (proj2 Hinv) Hidx Hnode
              eq_refl) as [Hmine Hothers].
  set (t1 := {| heap_ := <[Z.to_nat idx := node']> (heap_ (timer w));
                ref_ := ref_ (timer w) |}) in *.
  destruct (siftdown_returns idx (size t1) t1)
    as (r & Hdown & Ho & Hs' & Hr' & Hsame & _);
    try (assumption || lia).
  { now rewrite Hs. }
  { intros Hpos. rewrite Hdi.
    assert (Hp : 0 <= parent idx < idx)
      by (unfold parent; Z.div_mod_to_equations; lia).
    rewrite Hdo by lia. cbn [expires node' set_expires].
    pose proof (proj1 Hinv idx ltac:(lia)) as He.
    rewrite (deadline_lookup _ _ _ Hnode) in He. lia. }
  exists {| timer := snd r; fired := fired w; reads := S (reads w) |}.
  split.
  { rewrite (adjust_unfold id0 newExpires idx w node Er ltac:(lia) Hnode).
    cbn zeta. fold e. fold node'. fold t1. rewrite Hdown. reflexivity. }
  cbn [timer fired].
  assert (Hinv' : inv (snd r)).
  { split; [| exact Hr']. rewrite Hs'. exact Ho. }
  split; [exact Hinv' |]. split; [lia |].
  assert (Hnode' : node' = mkTimerNode id0 e (cb node)).
  { unfold node', set_expires. now rewrite Hid. }
  rewrite <- Hnode'. rewrite <- Hid in *.
  split; [| split; [| reflexivity]].
  - rewrite (node_of_same t1 (snd r)) by assumption. exact Hmine.
  - intros k Hk. rewrite (node_of_same t1 (snd r)) by assumption.
    now apply Hothers.
Qed.

(** X8. [doWork] of an id whose node is not the root, or is the last one of
    the vector: the call returns, the node's callback has run once, the
    id is gone, every other id keeps its node, and the heap is in order
    with [ref_] exact. *)
Theorem doWork_fires_and_removes (id0 idx : Z) w (node : TimerNode CB) :
  inv (timer w) -> size (timer w) < SIZE_BOUND ->
  ref_ (timer w) !! id0 = Some idx ->
  heap_ (timer w) !! Z.to_nat idx = Some node ->
  0 < idx \/ idx = size (timer w) - 1 ->
  exists w',
    doWork id0 w = Ok w'
    /\ fired w' = fired w ++ [cb node]
    /\ inv (timer w') /\ size (timer w') = size (timer w) - 1
    /\ node_of (timer w') id0 = None
    /\ forall k : Z, k <> id0 -> node_of (timer w') k = node_of (timer w) k.
Proof.
  intros Hinv Hsz Er Ln Hcase.
  destruct (ref_in_range _ _ _ (proj2 Hinv) Er) as (Hidx & node0 & Ln0 & Hid).
  rewrite Ln in Ln0. injection Ln0 as <-.
  destruct (del_below_root idx (timer w) node Hinv Hsz ltac:(lia) Ln
              Hcase) as (t' & Hdel & Hinv' & Hs' & Hgone & Hkept).
  exists {| timer := t'; fired := fired w ++ [cb node]; reads := reads w |}.
  split.
  { rewrite (doWork_unfold id0 idx w node Er ltac:(lia) Ln).
    rewrite Hdel. reflexivity. }
  cbn [timer fired]. rewrite <- Hid. auto.
Qed.


Lemma tick_loop_outcome (fuel : nat) :
  forall w,
    inv (timer w) -> size (timer w) < SIZE_BOUND ->
    (Z.to_nat (size (timer w)) < fuel)%nat ->
    tick_loop clock fuel w = Crash (OutOfBounds PARENT_OF_ROOT)
    \/ exists w' (gone : list (TimerNode CB)),
         tick_loop clock fuel w = Ok w'
         /\ inv (timer w')
         /\ fired w' = fired w ++ map cb gone
         /\ size (timer w') = size (timer w) - Z.of_nat (length gone)
         /\ (forall (j : nat) (n : TimerNode CB),
               gone !! j = Some n ->
               n ∈ heap_ (timer w)
               /\ duration_cast_MS (expires n - clock (reads w + j)%nat) <= 0)
         /\ (forall n : TimerNode CB,
               n ∈ heap_ (timer w') -> n ∈ heap_ (timer w))
         /\ match heap_ (timer w') with
            | [] => True
            | root :: _ =>
                reads w' = S (reads w + length gone)
                /\ 0 < duration_cast_MS
                         (expires root - clock (reads w + length gone)%nat)
            end.
Proof.
  induction fuel as [| fuel IH]; intros w Hinv Hsz Hfuel; [lia |].
  cbn [tick_loop].
  destruct (heap_ (timer w)) as [| node rest] eqn:Eh.
  { right. exists w, []. rewrite Eh. cbn [length map].
    rewrite app_nil_r, Z.sub_0_r.
    split; [reflexivity |]. split; [exact Hinv |].
    split; [reflexivity |]. split; [reflexivity |].
    split; [intros j n Hj; discriminate Hj |]. split; [auto | exact I]. }
  cbn zeta.
  destruct (Z.gtb_spec (duration_cast_MS (expires node - clock (reads w))) 0)
    as [Hlater | Hdue].
  { right. eexists _, []. split; [reflexivity |]. cbn [timer fired reads].
    rewrite Eh. cbn [length map]. rewrite app_nil_r, Z.sub_0_r, Nat.add_0_r.
    split; [exact Hinv |]. split; [reflexivity |]. split; [reflexivity |].
    split; [intros j n Hj; discriminate Hj |]. split; [auto |].
    split; [reflexivity | lia]. }
  assert (Hpos : 0 < size (timer w)).
  { unfold size, vec_size. rewrite Eh. cbn [length]. lia. }
  assert (Hpop : pop (timer w) = del_ 0 (timer w)).
  { unfold pop. now rewrite Eh. }
  rewrite Hpop.
  destruct (del_outcome 0 (timer w) Hinv Hsz ltac:(lia)) as [[t' Hdel] | Hcrash].
  2:{ left. rewrite Hcrash. reflexivity. }
  rewrite Hdel. cbn [bind].
  assert (Hnode : heap_ (timer w) !! Z.to_nat 0 = Some node)
    by (now rewrite Eh).
  destruct (del_content 0 (timer w) t' node ltac:(lia) Hinv Hsz Hnode Hdel)
    as (Hinv' & Hs' & _ & _ & Hsub).
  set (w1 := {| timer := t'; fired := fired w ++ [cb node];
                reads := S (reads w) |}).
  destruct (IH w1) as [Hc | (w' & gone & Hrun & Hi & Hf & Hsize & Hgone & Hin
                              & Hroot)];
    try (cbn [timer w1]; (assumption || lia)).
  { left. exact Hc. }
  right. exists w', (node :: gone). split; [exact Hrun |].
  cbn [timer fired reads w1] in *. split; [exact Hi |].
  split; [rewrite Hf, <- app_assoc; reflexivity |].
  split; [cbn [length]; lia |]. split; [| split].
  - intros [| j] n Hj.
    + injection Hj as <-. rewrite Nat.add_0_r. split; [| lia].
      rewrite <- Eh. apply list_elem_of_lookup. exists (Z.to_nat 0). exact Hnode.
    + destruct (Hgone j n Hj) as [Hn Hd]. split; [rewrite <- Eh; now apply Hsub |].
      replace (reads w + S j)%nat with (S (reads w) + j)%nat by lia. exact Hd.
  - intros n Hn. rewrite <- Eh. now apply Hsub, Hin.
  - destruct (heap_ (timer w')) as [| root tl]; [exact I |].
    cbn [length].
    replace (reads w + S (length gone))%nat
      with (S (reads w) + length gone)%nat by lia.
    exact Hroot.
Qed.

(** X9. [tick] either stops at the parent of the root (re-sifting the node
    that took the root's place) or returns; when it returns, it has run
    the callbacks of nodes the timer held, each due at the clock reading
    taken for it, it holds no node it did not hold, the heap is in order
    with [ref_] exact, and the root left, if any, was not yet due at the
    last clock reading. *)
Theorem tick_fires_due_nodes w :
  inv (timer w) -> size (timer w) < SIZE_BOUND ->
  tick clock w = Crash (OutOfBounds PARENT_OF_ROOT)
  \/ exists w' (gone : list (TimerNode CB)),
       tick clock w = Ok w'
       /\ inv (timer w')
       /\ fired w' = fired w ++ map cb gone
       /\ size (timer w') = size (timer w) - Z.of_nat (length gone)
       /\ (forall (j : nat) (n : TimerNode CB),
             gone !! j = Some n ->
             n ∈ heap_ (timer w)
             /\ duration_cast_MS (expires n - clock (reads w + j)%nat) <= 0)
       /\ (forall n : TimerNode CB,
             n ∈ heap_ (timer w') -> n ∈ heap_ (timer w))
       /\ match heap_ (timer w') with
          | [] => True
          | root :: _ =>
              reads w' = S (reads w + length gone)
              /\ 0 < duration_cast_MS
                       (expires root - clock (reads w + length gone)%nat)
          end.
Proof.
  intros Hinv Hsz. unfold tick. apply tick_loop_outcome; try assumption.
  unfold size, vec_size. lia.
Qed.

(** X10. Wherever a run of [add], [adjust], [doWork] and [tick] in which
    every [adjust] extends its node's deadline returns, the heap is in
    order with [ref_] exact, and the root holds the earliest deadline. *)
Theorem run_keeps_root_minimum (ops : list (Op CB)) w w' :
  inv (timer w) ->
  size (timer w) + Z.of_nat (length ops) < SIZE_BOUND ->
  adjusts_extend clock ops w ->
  run clock ops w = Ok w' ->
  inv (timer w')
  /\ forall i : Z, 0 <= i < size (timer w') ->
       deadline (heap_ (timer w')) 0 <= deadline (heap_ (timer w')) i.
Proof.
  intros Hinv Hsz Hext Hrun.
  pose proof (run_preserves_inv clock ops w w' Hinv Hsz Hext Hrun) as Hinv'.
  split; [exact Hinv' |]. apply root_is_minimum, Hinv'.
Qed.

End HeapStoreFacts.

Lemma three_node_world_inv : HeapTimer.inv (HeapTimer.timer three_node_world).
Proof. apply inv_b_sound. vm_compute. reflexivity. Qed.

Lemma late_root_timer_hole :
  HeapTimer.hole 3 0 (HeapTimer.heap_ late_root_timer).
Proof.
  split.
  - intros j Hj Hne Hp. exfalso. apply Hp. unfold HeapTimer.parent.
    assert (j = 1 \/ j = 2) as [-> | ->] by lia; reflexivity.
  - intros c Hc Hp Hpos. lia.
Qed.

Lemma three_node_up_hole :
  HeapTimer.up_hole 3 2 (HeapTimer.heap_ (HeapTimer.timer three_node_world)).
Proof.
  split.
  - intros j Hj Hne. assert (j = 1) as -> by lia. vm_compute. discriminate.
  - intros c Hc Hp Hpos. unfold HeapTimer.parent in Hp.
    assert (c = 1 \/ c = 2) as [-> | ->] by lia; vm_compute in Hp; lia.
Qed.

Lemma SwapNode_keeps_ref_exact_witness :
  exists t',
    HeapTimer.SwapNode_ 0 2 (HeapTimer.timer three_node_world) = Ok t'
    /\ HeapTimer.ref_exact t'.
Proof.
  destruct (SwapNode_keeps_ref_exact (HeapTimer.timer three_node_world) 0 2)
    as (t' & Hrun & Hr & _).
  - apply three_node_world_inv.
  - vm_compute. split; [discriminate | reflexivity].
  - vm_compute. split; [discriminate | reflexivity].
  - exists t'. split; assumption.
Defined.

Lemma siftdown_closes_hole_witness :
  exists r,
    HeapTimer.siftdown_ 0 3 late_root_timer = Ok r
    /\ HeapTimer.heap_ordered 3 (HeapTimer.heap_ (snd r)).
Proof.
  destruct (siftdown_closes_hole 0 3 late_root_timer)
    as (r & Hrun & Ho & _).
  - lia.
  - vm_compute. discriminate.
  - vm_compute. reflexivity.
  - apply ref_exact_b_sound. vm_compute. reflexivity.
  - exact late_root_timer_hole.
  - lia.
  - exists r. split; assumption.
Defined.

Lemma del_removes_node_witness :
  exists t',
    HeapTimer.del_ 1 (HeapTimer.timer three_node_world) = Ok t'
    /\ HeapTimer.node_of t' 7 = None
    /\ HeapTimer.size t' = 2.
Proof.
  destruct (del_removes_node 1 (HeapTimer.timer three_node_world)
              (HeapTimer.mkTimerNode 7 (HeapTimer.MS 2000) 7%nat))
    as (t' & Hrun & _ & Hs & Hgone & _).
  - exact three_node_world_inv.
  - vm_compute. reflexivity.
  - lia.
  - reflexivity.
  - left. lia.
  - exists t'. split; [exact Hrun |]. split; [exact Hgone | exact Hs].
Defined.

Lemma add_stores_node_witness :
  exists w',
    HeapTimer.add late_clock 7 2000 7%nat one_node_world = Ok w'
    /\ HeapTimer.node_of (HeapTimer.timer w') 7
       = Some (HeapTimer.mkTimerNode 7 (HeapTimer.MS 999 + HeapTimer.MS 2000)
                 7%nat).
Proof.
  eexists. split; [vm_compute; reflexivity |].
  refine (proj1 (proj2 (add_stores_node late_clock 7 2000 7%nat one_node_world
                          _ one_node_world_inv _ _))).
  - vm_compute. reflexivity.
  - vm_compute. reflexivity.
Defined.

Lemma adjust_extends_deadline_witness :
  exists w',
    HeapTimer.adjust late_clock 5 3000 three_node_world = Ok w'
    /\ HeapTimer.node_of (HeapTimer.timer w') 5
       = Some (HeapTimer.mkTimerNode 5 (HeapTimer.MS 1005 + HeapTimer.MS 3000)
                 5%nat).
Proof.
  destruct (adjust_extends_deadline late_clock 5 3000 three_node_world
              (HeapTimer.mkTimerNode 5 (HeapTimer.MS 1000) 5%nat))
    as (w' & Hrun & _ & _ & Hnode & _).
  - exact three_node_world_inv.
  - vm_compute. reflexivity.
  - reflexivity.
  - vm_compute. discriminate.
  - exists w'. split; [exact Hrun | exact Hnode].
Defined.

Lemma doWork_fires_and_removes_witness :
  exists w',
    HeapTimer.doWork 7 three_node_world = Ok w'
    /\ HeapTimer.fired w' = [7%nat]
    /\ HeapTimer.node_of (HeapTimer.timer w') 7 = None.
Proof.
  destruct (doWork_fires_and_removes 7 1 three_node_world
              (HeapTimer.mkTimerNode 7 (HeapTimer.MS 2000) 7%nat))
    as (w' & Hrun & Hf & _ & _ & Hgone & _).
  - exact three_node_world_inv.
  - vm_compute. reflexivity.
  - reflexivity.
  - reflexivity.
  - left. lia.
  - exists w'. split; [exact Hrun |]. split; [exact Hf | exact Hgone].
Defined.

Lemma tick_fires_due_nodes_witness :
  exists w',
    HeapTimer.tick (fun _ => HeapTimer.MS 1005) one_node_world = Ok w'
    /\ HeapTimer.fired w' = [5%nat]
    /\ HeapTimer.heap_ (HeapTimer.timer w') = [].
Proof.
  destruct (tick_fires_due_nodes (fun _ => HeapTimer.MS 1005) one_node_world)
    as [Hcrash | (w' & gone & Hrun & _)].
  - exact one_node_world_inv.
  - vm_compute. reflexivity.
  - vm_compute in Hcrash. discriminate Hcrash.
  - exists w'. vm_compute in Hrun. injection Hrun as <-.
    split; [vm_compute; reflexivity |]. split; reflexivity.
Defined.

Lemma run_keeps_root_minimum_witness :
  exists w',
    HeapTimer.run late_clock postpone_run one_node_world = Ok w'
    /\ HeapTimer.inv (HeapTimer.timer w').
Proof.
  eexists. split; [vm_compute; reflexivity |].
  refine (proj1 (run_keeps_root_minimum late_clock postpone_run one_node_world
                   _ one_node_world_inv _ _ _)).
  - vm_compute. reflexivity.
  - split; [exact I |]. intros w1 H1. vm_compute in H1. injection H1 as <-.
    split.
    + intros idx node Hr Hl. vm_compute in Hr. injection Hr as <-.
      vm_compute in Hl. injection Hl as <-. vm_compute. discriminate.
    + intros w2 H2. vm_compute in H2. injection H2 as <-.
      split; [exact I |]. intros w3 H3. vm_compute in H3. injection H3 as <-.
      split; [exact I |]. intros w4 _. exact I.
  - vm_compute. reflexivity.
Defined.

(** ** The timer past the read before the vector

    What [siftup_] does when it has carried a node to the root depends on
    what it reads before the vector's buffer: it returns when the value
    found is not later than the node's deadline, and otherwise calls
    [SwapNode_] with an index outside the vector, whose assertion fails.
    Whatever is found there, the timer is in heap order with [ref_]
    exact wherever an operation returns. *)

Section StrayReadFacts.

Import HeapTimer.

Context {CB : Type}.

Implicit Type t : HeapTimer CB.
Implicit Type h : list (TimerNode CB).
Implicit Type stray : option TimeStamp.

Lemma expires_at_inside stray h (i : Z) (x : TimerNode CB) :
  0 <= i < vec_size h -> h !! Z.to_nat i = Some x ->
  StrayRead.expires_at stray h i = Ok (expires x).
Proof.
  intros Hi Hx. unfold StrayRead.expires_at.
  destruct (vec_at_lookup h i Hi) as (y & Hy & ->).
  rewrite Hx in Hy. now injection Hy as <-.
Qed.

Lemma expires_at_outside stray h (i : Z) :
  vec_size h <= i ->
  StrayRead.expires_at stray h i
  = match stray with
    | Some e => Ok e
    | None => Crash (OutOfBounds i)
    end.
Proof.
  intros Hi. unfold StrayRead.expires_at.
  now rewrite vec_at_past_end.
Qed.

Lemma SwapNode_outside t (i j : Z) :
  size t <= j -> SwapNode_ i j t = Crash AssertionFailed.
Proof.
  intros Hj. unfold SwapNode_.
  destruct (i <? size t); [| reflexivity]. cbn [negb].
  destruct (Z.ltb_spec j (size t)); [lia | reflexivity].
Qed.

(** The turn of the loop of [siftup_] at the root. *)
Lemma siftup_loop_at_root stray (fuel : nat) t (root : TimerNode CB) :
  0 < size t < 2 ^ 63 -> heap_ t !! 0%nat = Some root ->
  StrayRead.siftup_loop stray (S fuel) 0 (wrap_size (0 - 1) / 2) t
  = match stray with
    | None => Crash (OutOfBounds PARENT_OF_ROOT)
    | Some e => if e >? expires root then Crash AssertionFailed else Ok t
    end.
Proof.
  intros Hsz Hroot. cbn [StrayRead.siftup_loop].
  change (wrap_size (0 - 1) / 2) with PARENT_OF_ROOT.
  change (0 <=? PARENT_OF_ROOT) with true. cbn iota.
  rewrite expires_at_outside
    by (unfold size, PARENT_OF_ROOT in *; lia).
  destruct stray as [e |]; [| reflexivity]. cbn [bind].
  destruct (vec_at_lookup (heap_ t) 0) as (x & Hx & ->);
    [unfold size in *; lia |].
  change (Z.to_nat 0) with 0%nat in Hx. rewrite Hroot in Hx.
  injection Hx as <-. cbn [bind].
  destruct (e >? expires root); [| reflexivity].
  rewrite SwapNode_outside; [reflexivity |].
  unfold PARENT_OF_ROOT. lia.
Qed.

Ltac zdiv := unfold parent in *; Z.div_mod_to_equations; lia.

Lemma siftup_loop_stray_spec stray (fuel : nat) :
  forall (i n : Z) t t',
    0 <= i < n -> n <= size t -> size t < SIZE_BOUND ->
    up_hole n i (heap_ t) -> ref_exact t ->
    StrayRead.siftup_loop stray fuel i (wrap_size (i - 1) / 2) t = Ok t' ->
    heap_ordered n (heap_ t') /\ size t' = size t /\ ref_exact t'
    /\ (forall j : Z, i < j -> heap_ t' !! Z.to_nat j = heap_ t !! Z.to_nat j).
Proof.
  induction fuel as [| fuel IH]; intros i n t t' Hi Hn Hsz Hhole Hex Hrun.
  { discriminate Hrun. }
  unfold SIZE_BOUND in *.
  destruct (Z.eq_dec i 0) as [-> | Hi0].
  { (* the root: the parent index is out of the vector *)
    destruct (vec_at_lookup (heap_ t) 0) as (root & Lr & _);
      [unfold size in *; lia |].
    rewrite (siftup_loop_at_root stray fuel t root) in Hrun;
      [| lia | exact Lr].
    destruct stray as [e |]; [| discriminate Hrun].
    destruct (e >? expires root); [discriminate Hrun |].
    injection Hrun as <-. split; [| auto].
    intros j Hj. apply Hhole; lia. }
  cbn [StrayRead.siftup_loop] in Hrun.
  assert (Hpar : wrap_size (i - 1) / 2 = parent i).
  { unfold parent. rewrite wrap_size_small by lia. reflexivity. }
  rewrite Hpar in Hrun.
  assert (Hp : 0 <= parent i < i) by zdiv.
  destruct (Z.leb_spec 0 (parent i)) as [_ | ?]; [| lia].
  destruct (vec_at_lookup (heap_ t) (parent i)) as (np & Lp & Vp);
    [unfold size in *; lia |].
  destruct (vec_at_lookup (heap_ t) i) as (ni & Li & Vi);
    [unfold size in *; lia |].
  rewrite (expires_at_inside stray _ _ np) in Hrun;
    [| unfold size in *; lia | exact Lp].
  cbn [bind] in Hrun. rewrite Vi in Hrun. cbn [bind] in Hrun.
  destruct Hhole as [Hedges Hskip].
  destruct (Z.gtb_spec (expires np) (expires ni)) as [Hgt | Hle].
  - destruct (SwapNode_Ok t i (parent i)) as (ni' & np' & Li' & Lp' & Hsw);
      [lia | lia |].
    rewrite Li in Li'. injection Li' as <-.
    rewrite Lp in Lp'. injection Lp' as <-.
    rewrite Hsw in Hrun. cbn [bind] in Hrun.
    set (t1 := {| heap_ := swapped (heap_ t) i (parent i) ni np;
                  ref_ := <[id ni := parent i]> (<[id np := i]> (ref_ t)) |})
      in *.
    assert (Hsz1 : size t1 = size t) by apply length_swapped.
    assert (Hd : forall k, 0 <= k ->
                  deadline (heap_ t1) k
                  = if k =? parent i then deadline (heap_ t) i
                    else if k =? i then deadline (heap_ t) (parent i)
                    else deadline (heap_ t) k).
    { intros k Hk. apply deadline_swapped; unfold size in *; auto with lia. }
    rewrite (deadline_lookup _ _ _ Li), (deadline_lookup _ _ _ Lp) in Hd.
    apply (IH (parent i) n t1 t') in Hrun.
    + destruct Hrun as (Ho & Hs & Hr & Hf).
      split; [exact Ho |]. split; [lia |]. split; [exact Hr |].
      intros j Hj. rewrite Hf by lia.
      unfold t1. cbn [heap_].
      rewrite (lookup_swapped _ i (parent i) j ni np);
        unfold size in *; auto with lia.
      destruct (Z.eqb_spec j (parent i)); [lia |].
      destruct (Z.eqb_spec j i); [lia | reflexivity].
    + lia.
    + lia.
    + lia.
    + split.
      * intros j Hj Hjp.
        assert (Hpj : 0 <= parent j < j) by zdiv.
        rewrite (Hd j), (Hd (parent j)) by lia.
        destruct (Z.eqb_spec j (parent i)) as [? | _]; [lia |].
        destruct (Z.eqb_spec j i) as [-> | Hji].
        -- rewrite Z.eqb_refl. lia.
        -- destruct (Z.eqb_spec (parent j) (parent i)) as [Epp | Npp].
           ++ specialize (Hedges j Hj Hji). rewrite Epp in Hedges.
              rewrite (deadline_lookup _ _ _ Lp) in Hedges. lia.
           ++ destruct (Z.eqb_spec (parent j) i) as [Epi | Npi].
              ** specialize (Hskip j Hj Epi ltac:(lia)).
                 rewrite (deadline_lookup _ _ _ Lp) in Hskip. exact Hskip.
              ** apply Hedges; assumption.
      * intros c Hc Hcp Hpos.
        assert (Hpp : 0 <= parent (parent i) < parent i) by zdiv.
        rewrite (Hd c), (Hd (parent (parent i))) by lia.
        destruct (Z.eqb_spec (parent (parent i)) (parent i)); [lia |].
        destruct (Z.eqb_spec (parent (parent i)) i); [lia |].
        destruct (Z.eqb_spec c (parent i)); [zdiv |].
        pose proof (Hedges (parent i) ltac:(lia) ltac:(lia)) as Hpe.
        rewrite (deadline_lookup _ _ _ Lp) in Hpe.
        destruct (Z.eqb_spec c i) as [-> | Hci]; [exact Hpe |].
        pose proof (Hedges c Hc Hci) as Hce. rewrite Hcp in Hce.
        rewrite (deadline_lookup _ _ _ Lp) in Hce. lia.
    + apply ref_exact_swapped; (assumption || lia).
  - injection Hrun as <-. split; [| auto].
    intros j Hj. destruct (Z.eq_dec j i) as [-> | Hji].
    + rewrite (deadline_lookup _ _ _ Li), (deadline_lookup _ _ _ Lp). lia.
    + now apply Hedges.
Qed.

Lemma siftup_stray_spec stray (i n : Z) t t' :
  0 <= i < n -> n <= size t -> size t < SIZE_BOUND ->
  up_hole n i (heap_ t) -> ref_exact t ->
  StrayRead.siftup_ stray i t = Ok t' ->
  heap_ordered n (heap_ t') /\ size t' = size t /\ ref_exact t'
  /\ (forall j : Z, i < j -> heap_ t' !! Z.to_nat j = heap_ t !! Z.to_nat j).
Proof.
  intros Hi Hn Hsz Hhole Hex. unfold StrayRead.siftup_.
  destruct (Z.ltb_spec i (size t)); [| lia]. cbn [negb].
  now apply siftup_loop_stray_spec.
Qed.


(** [if(!siftdown_(k, n)) siftup_(k);] closes a hole at [k]. *)
Lemma resift_stray_spec stray (k n : Z) t (r : bool * HeapTimer CB) t' :
  0 <= k < n -> n <= size t -> size t < SIZE_BOUND ->
  hole n k (heap_ t) -> ref_exact t ->
  siftdown_ k n t = Ok r ->
  (if negb (fst r) then StrayRead.siftup_ stray k (snd r) else Ok (snd r))
  = Ok t' ->
  heap_ordered n (heap_ t') /\ size t' = size t /\ ref_exact t'
  /\ (forall j : Z, n <= j -> heap_ t' !! Z.to_nat j = heap_ t !! Z.to_nat j).
Proof.
  intros Hk Hn Hsz Hhole Hex Hdown Hup.
  destruct (negb (fst r)) eqn:Em.
  - (* nothing went down: the node may have to go up *)
    pose proof Hdown as Hd0. unfold siftdown_ in Hd0.
    destruct (Z.ltb_spec k (size t)); [| lia]. cbn [negb] in Hd0.
    destruct (Z.leb_spec n (size t)); [| lia]. cbn [negb] in Hd0.
    destruct r as [m t1]. cbn [fst snd] in *.
    apply siftdown_loop_spec in Hd0; try (assumption || lia).
    destruct Hd0 as (Hs & Hr & Hf & He & Htop).
    destruct m; [discriminate Em |].
    destruct Htop as [[-> _] | [Hm _]]; [| discriminate Hm].
    apply (siftup_stray_spec stray k n) in Hup; try (assumption || lia).
    + destruct Hup as (Ho & Hs' & Hr' & Hf').
      split; [exact Ho |]. split; [exact Hs' |]. split; [exact Hr' |].
      intros j Hj. apply Hf'. lia.
    + split; [exact He | apply Hhole].
  - (* the node went down: [siftup_] is not called *)
    apply (resift_spec k n t r t'); try assumption.
    destruct (negb (fst r)); [discriminate Em | exact Hup].
Qed.

Lemma del_stray_spec stray (index : Z) t t' :
  0 <= index -> inv t -> size t < SIZE_BOUND ->
  StrayRead.del_ stray index t = Ok t' ->
  inv t' /\ size t' = size t - 1.
Proof.
  intros Hidx [Ho Hex] Hsz Hrun. pose proof Hsz as Hsz'.
  unfold SIZE_BOUND in Hsz'. unfold StrayRead.del_ in Hrun.
  destruct (Z.ltb_spec index (size t)) as [Hlt | ?]; [| discriminate Hrun].
  cbn [negb] in Hrun. cbn zeta in Hrun.
  rewrite (wrap_size_small (size t - 1)) in Hrun by lia.
  destruct (Z.leb_spec index (size t - 1)); [| lia]. cbn [negb] in Hrun.
  apply bind_Ok in Hrun as (t2 & H2 & Hpop).
  assert (Hmid : heap_ordered (size t - 1) (heap_ t2) /\ size t2 = size t
                 /\ ref_exact t2).
  { destruct (Z.ltb_spec index (size t - 1)) as [Hin | Hlast].
    - destruct (SwapNode_Ok t index (size t - 1)) as (nx & nl & Lx & Ll & Hsw);
        [lia | lia |].
      rewrite Hsw in H2. cbn [bind] in H2.
      apply bind_Ok in H2 as (r & Hdown & Hup).
      set (t1 := {| heap_ := swapped (heap_ t) index (size t - 1) nx nl;
                    ref_ := <[id nx := size t - 1]>
                              (<[id nl := index]> (ref_ t)) |}) in *.
      assert (Hsz1 : size t1 = size t) by apply length_swapped.
      assert (Hd : forall k, 0 <= k < size t - 1 -> k <> index ->
                    deadline (heap_ t1) k = deadline (heap_ t) k).
      { intros k Hk Hki. unfold t1. cbn [heap_].
        rewrite (deadline_swapped _ index (size t - 1) k nx nl);
          unfold size in *; auto with lia.
        destruct (Z.eqb_spec k (vec_size (heap_ t) - 1)); [lia |].
        destruct (Z.eqb_spec k index); [lia | reflexivity]. }
      apply (resift_stray_spec stray index (size t - 1) t1 r t2) in Hup;
        try (assumption || lia).
      + destruct Hup as (Ho2 & Hs2 & Hr2 & _). auto with lia.
      + split.
        * intros j Hj Hji Hjp.
          assert (Hp : 0 <= parent j < j) by zdiv.
          rewrite !Hd by lia. apply Ho. lia.
        * intros c Hc Hcp Hpos.
          assert (Hp : 0 <= parent index < index) by zdiv.
          rewrite !Hd by (unfold parent in *; Z.div_mod_to_equations; lia).
          pose proof (Ho c ltac:(lia)) as H1.
          pose proof (Ho index ltac:(lia)) as H3.
          rewrite Hcp in H1. lia.
      + apply ref_exact_swapped; (assumption || lia).
    - injection H2 as <-. split; [| auto].
      intros j Hj. apply Ho. lia. }
  destruct Hmid as (Ho2 & Hs2 & Hr2).
  apply pop_back_spec in Hpop; [| lia | now rewrite Hs2 | exact Hr2].
  destruct Hpop as [Hinv Hs']. split; [exact Hinv | lia].
Qed.


Lemma siftup_loop_stray_same_nodes stray (fuel : nat) :
  forall (i p : Z) t t',
    StrayRead.siftup_loop stray fuel i p t = Ok t' -> same_nodes t t'.
Proof.
  induction fuel as [| fuel IH]; intros i p t t' H; [discriminate H |].
  cbn [StrayRead.siftup_loop] in H.
  destruct (0 <=? p); [| injection H as <-; apply same_nodes_refl].
  apply bind_Ok in H as (ep & _ & H). apply bind_Ok in H as (ni & _ & H).
  destruct (ep >? expires ni);
    [| injection H as <-; apply same_nodes_refl].
  apply bind_Ok in H as (t1 & Hsw & H).
  eapply same_nodes_trans; [eapply SwapNode_same_nodes, Hsw | eapply IH, H].
Qed.

(** A sift-up that returns in [HeapTimer] has read nothing outside the
    vector: it returns the same, whatever lies there. *)
Lemma siftup_loop_inside stray (fuel : nat) :
  forall (i p : Z) t t',
    siftup_loop fuel i p t = Ok t' ->
    StrayRead.siftup_loop stray fuel i p t = Ok t'.
Proof.
  induction fuel as [| fuel IH]; intros i p t t' H; [discriminate H |].
  cbn [siftup_loop] in H. cbn [StrayRead.siftup_loop].
  destruct (0 <=? p); [| exact H].
  apply bind_Ok in H as (np & Hp & H). apply bind_Ok in H as (ni & Hi & H).
  unfold StrayRead.expires_at. rewrite Hp, Hi. cbn [bind].
  destruct (expires np >? expires ni); [| exact H].
  apply bind_Ok in H as (t1 & Hsw & H). rewrite Hsw. cbn [bind].
  now apply IH.
Qed.

Lemma siftup_inside stray (i : Z) t t' :
  siftup_ i t = Ok t' -> StrayRead.siftup_ stray i t = Ok t'.
Proof.
  unfold siftup_, StrayRead.siftup_.
  destruct (negb (i <? size t)); [discriminate |].
  apply siftup_loop_inside.
Qed.

(** With a read that faults, the functions are those of [HeapTimer]. *)
Lemma siftup_loop_faulting (fuel : nat) :
  forall (i p : Z) t,
    StrayRead.siftup_loop None fuel i p t = siftup_loop fuel i p t.
Proof.
  induction fuel as [| fuel IH]; intros i p t; [reflexivity |].
  cbn [siftup_loop StrayRead.siftup_loop].
  destruct (0 <=? p); [| reflexivity].
  unfold StrayRead.expires_at.
  destruct (vec_at (heap_ t) p) as [np | f]; [| reflexivity]. cbn [bind].
  destruct (vec_at (heap_ t) i) as [ni | f]; [| reflexivity]. cbn [bind].
  destruct (expires np >? expires ni); [| reflexivity].
  destruct (SwapNode_ i p t) as [t1 | f]; [| reflexivity]. cbn [bind].
  apply IH.
Qed.

Lemma del_faulting (index : Z) t :
  StrayRead.del_ None index t = del_ index t.
Proof.
  unfold StrayRead.del_, del_, StrayRead.siftup_, siftup_.
  destruct (negb (index <? size t)); [reflexivity |]. cbn zeta.
  destruct (negb (index <=? wrap_size (size t - 1))); [reflexivity |].
  destruct (index <? wrap_size (size t - 1)); [| reflexivity].
  destruct (SwapNode_ index (wrap_size (size t - 1)) t) as [t1 | f];
    [| reflexivity]. cbn [bind].
  destruct (siftdown_ index (wrap_size (size t - 1)) t1) as [r | f];
    [| reflexivity]. cbn [bind].
  destruct (negb (fst r)); [| reflexivity].
  destruct (negb (index <? size (snd r))); [reflexivity |].
  now rewrite siftup_loop_faulting.
Qed.

(** How [siftup_] ends, given what lies before the vector. A node that
    the root is not later than stops below the root. Any other node is
    carried to the root, and the read before the vector decides: the
    loop is left when the value found is not later than the node, and
    [SwapNode_] is called with the index [(0 - 1) / 2] otherwise. *)
Lemma siftup_loop_stray_outcome stray (fuel : nat) :
  forall (i : Z) t,
    0 <= i < size t -> size t < SIZE_BOUND -> (Z.to_nat i < fuel)%nat ->
    (forall j : Z, 0 <= j < i -> deadline (heap_ t) 0 <= deadline (heap_ t) j) ->
    let loop := StrayRead.siftup_loop stray fuel i (wrap_size (i - 1) / 2) t in
    if (0 <? i) && (deadline (heap_ t) 0 <=? deadline (heap_ t) i)
    then exists t', loop = Ok t'
    else match stray with
         | None => loop = Crash (OutOfBounds PARENT_OF_ROOT)
         | Some e =>
             if e >? deadline (heap_ t) i then loop = Crash AssertionFailed
             else exists t',
                    loop = Ok t'
                    /\ heap_ t' !! 0%nat = heap_ t !! Z.to_nat i
         end.
Proof.
  induction fuel as [| fuel IH]; intros i t Hi Hsz Hfuel Hmin; [lia |].
  pose proof Hsz as Hsz'. unfold SIZE_BOUND in Hsz'. cbn zeta.
  destruct (Z.eq_dec i 0) as [-> | Hi0].
  { destruct (vec_at_lookup (heap_ t) 0) as (root & Lr & _);
      [unfold size in *; lia |].
    rewrite (siftup_loop_at_root stray fuel t root); [| lia | exact Lr].
    change (0 <? 0) with false. cbn [andb].
    rewrite (deadline_lookup _ _ _ Lr).
    destruct stray as [e |]; [| reflexivity].
    destruct (e >? expires root); [reflexivity |].
    exists t. split; reflexivity. }
  cbn [StrayRead.siftup_loop].
  destruct (Z.ltb_spec 0 i) as [_ | ?]; [| lia]. cbn [andb].
  assert (Hpar : wrap_size (i - 1) / 2 = parent i).
  { unfold parent. rewrite wrap_size_small by lia. reflexivity. }
  rewrite Hpar.
  assert (Hp : 0 <= parent i < i)
    by (unfold parent; Z.div_mod_to_equations; lia).
  destruct (Z.leb_spec 0 (parent i)) as [_ | ?]; [| lia].
  destruct (vec_at_lookup (heap_ t) (parent i)) as (np & Lp & Vp);
    [unfold size in *; lia |].
  destruct (vec_at_lookup (heap_ t) i) as (ni & Li & ->);
    [unfold size in *; lia |].
  rewrite (expires_at_inside stray _ _ np);
    [| unfold size in *; lia | exact Lp].
  cbn [bind].
  rewrite (deadline_lookup _ _ _ Li).
  pose proof (Hmin (parent i) ltac:(lia)) as Hroot.
  rewrite (deadline_lookup _ _ _ Lp) in Hroot.
  destruct (Z.gtb_spec (expires np) (expires ni)) as [Hgt | Hle].
  - destruct (SwapNode_Ok t i (parent i)) as (ni' & np' & Li' & Lp' & ->);
      [lia | lia |].
    rewrite Li in Li'. injection Li' as <-.
    rewrite Lp in Lp'. injection Lp' as <-. cbn [bind].
    set (t1 := {| heap_ := swapped (heap_ t) i (parent i) ni np;
                  ref_ := <[id ni := parent i]> (<[id np := i]> (ref_ t)) |}).
    assert (Hsz1 : size t1 = size t) by apply length_swapped.
    assert (Hd : forall k, 0 <= k ->
                  deadline (heap_ t1) k
                  = if k =? parent i then expires ni
                    else if k =? i then expires np
                    else deadline (heap_ t) k).
    { intros k Hk. unfold t1. cbn [heap_].
      rewrite (deadline_swapped _ i (parent i) k ni np);
        unfold size in *; auto with lia.
      now rewrite (deadline_lookup _ _ _ Li), (deadline_lookup _ _ _ Lp). }
    specialize (IH (parent i) t1 ltac:(lia) ltac:(lia) ltac:(lia)).
    assert (Hmin1 : forall j : Z, 0 <= j < parent i ->
                      deadline (heap_ t1) 0 <= deadline (heap_ t1) j).
    { intros j Hj. rewrite (Hd 0), (Hd j) by lia.
      destruct (Z.eqb_spec 0 (parent i)); [lia |].
      destruct (Z.eqb_spec 0 i); [lia |].
      destruct (Z.eqb_spec j (parent i)); [lia |].
      destruct (Z.eqb_spec j i); [lia |]. apply Hmin. lia. }
    specialize (IH Hmin1). cbn zeta in IH.
    rewrite (Hd 0), (Hd (parent i)) in IH by lia.
    rewrite Z.eqb_refl in IH.
    assert (Hcarry : heap_ t1 !! Z.to_nat (parent i) = heap_ t !! Z.to_nat i).
    { unfold t1. cbn [heap_].
      rewrite (lookup_swapped (heap_ t) i (parent i) (parent i) ni np);
        unfold size in *; try (assumption || lia).
      rewrite Z.eqb_refl. now rewrite Li. }
    rewrite Hcarry in IH.
    destruct (Z.eqb_spec 0 (parent i)) as [E0 | N0].
    + (* the parent is the root *)
      rewrite <- E0 in *. change (0 <? 0) with false in IH. cbn [andb] in IH.
      rewrite (deadline_lookup _ _ _ Lp).
      destruct (Z.leb_spec (expires np) (expires ni)); [lia | exact IH].
    + destruct (Z.eqb_spec 0 i); [lia |].
      destruct (Z.ltb_spec 0 (parent i)) as [_ | ?]; [| lia].
      cbn [andb] in IH. exact IH.
  - destruct (Z.leb_spec (deadline (heap_ t) 0) (expires ni)); [eauto | lia].
Qed.


Lemma siftup_stray_same_nodes stray (i : Z) t t' :
  StrayRead.siftup_ stray i t = Ok t' -> same_nodes t t'.
Proof.
  unfold StrayRead.siftup_. destruct (negb (i <? size t)); [discriminate |].
  apply siftup_loop_stray_same_nodes.
Qed.

Lemma siftup_stray_cases stray (i n : Z) t :
  0 <= i < n -> n <= size t -> size t < SIZE_BOUND -> ref_exact t ->
  up_hole n i (heap_ t) ->
  let sifted t' :=
    heap_ordered n (heap_ t') /\ size t' = size t /\ ref_exact t'
    /\ same_nodes t t' in
  if (0 <? i) && (deadline (heap_ t) 0 <=? deadline (heap_ t) i)
  then exists t',
         StrayRead.siftup_ stray i t = Ok t' /\ siftup_ i t = Ok t'
         /\ sifted t' /\ heap_ t' !! 0%nat = heap_ t !! 0%nat
  else match stray with
       | None =>
           StrayRead.siftup_ None i t = Crash (OutOfBounds PARENT_OF_ROOT)
       | Some e =>
           if e >? deadline (heap_ t) i
           then StrayRead.siftup_ (Some e) i t = Crash AssertionFailed
           else exists t',
                  StrayRead.siftup_ (Some e) i t = Ok t' /\ sifted t'
                  /\ heap_ t' !! 0%nat = heap_ t !! Z.to_nat i
       end.
Proof.
  intros Hi Hn Hsz Hex Hhole sifted.
  assert (Hmin : forall j : Z, 0 <= j < i ->
                   deadline (heap_ t) 0 <= deadline (heap_ t) j).
  { intros j Hj. apply (up_hole_root_min n i); (assumption || lia). }
  assert (Hsift : forall s t', StrayRead.siftup_ s i t = Ok t' -> sifted t').
  { intros s t' Hrun.
    destruct (siftup_stray_spec s i n t t' Hi Hn Hsz Hhole Hex Hrun)
      as (Ho & Hs & Hx & _).
    split; [exact Ho |]. split; [exact Hs |]. split; [exact Hx |].
    eapply siftup_stray_same_nodes, Hrun. }
  pose proof (siftup_outcome i t ltac:(lia) Hsz Hmin) as Hold.
  pose proof (siftup_loop_stray_outcome stray (S (Z.to_nat i)) i t
                ltac:(lia) Hsz ltac:(lia) Hmin) as Hnew.
  cbn zeta in Hnew.
  assert (Hun : forall s, StrayRead.siftup_ s i t
                  = StrayRead.siftup_loop s (S (Z.to_nat i)) i
                      (wrap_size (i - 1) / 2) t).
  { intros s. unfold StrayRead.siftup_.
    destruct (Z.ltb_spec i (size t)); [reflexivity | lia]. }
  destruct ((0 <? i) && (deadline (heap_ t) 0 <=? deadline (heap_ t) i)).
  - destruct Hold as [t' Hrun]. exists t'.
    pose proof (siftup_inside stray i t t' Hrun) as Hrun'.
    split; [exact Hrun' |]. split; [exact Hrun |].
    split; [now apply (Hsift stray) |].
    unfold siftup_ in Hrun. destruct (negb (i <? size t)); [discriminate Hrun |].
    apply siftup_loop_below_root in Hrun; [apply Hrun | lia |].
    unfold SIZE_BOUND in Hsz. lia.
  - destruct stray as [e |]; [| now rewrite Hun].
    destruct (e >? deadline (heap_ t) i); [now rewrite Hun |].
    destruct Hnew as (t' & Hrun & Hroot). rewrite <- Hun in Hrun.
    exists t'. split; [exact Hrun |]. split; [now apply (Hsift (Some e)) |].
    exact Hroot.
Qed.

(** X3. [siftup_] on a position whose node may be earlier than the nodes
    above it, the rest being in order. When the position is not the root
    and the root is not later than the node, the node stops below the
    root and nothing outside the vector is read. Otherwise the node is
    carried to the root and the loop reads [heap_[(0 - 1) / 2]], before
    the vector: [siftup_] returns when the deadline found there is not
    later than the node's, and calls [SwapNode_] with that index, whose
    assertion fails, when it is later. Wherever it returns the heap is in
    order, with the same nodes and [ref_] exact. *)
Theorem siftup_ends_by_stray_read stray (i n : Z) t :
  0 <= i < n -> n <= size t -> size t < SIZE_BOUND -> ref_exact t ->
  up_hole n i (heap_ t) ->
  let sifted t' :=
    heap_ordered n (heap_ t') /\ size t' = size t /\ ref_exact t'
    /\ same_nodes t t' in
  if (0 <? i) && (deadline (heap_ t) 0 <=? deadline (heap_ t) i)
  then exists t',
         StrayRead.siftup_ stray i t = Ok t' /\ siftup_ i t = Ok t'
         /\ sifted t' /\ heap_ t' !! 0%nat = heap_ t !! 0%nat
  else match stray with
       | None =>
           StrayRead.siftup_ None i t = Crash (OutOfBounds PARENT_OF_ROOT)
       | Some e =>
           if e >? deadline (heap_ t) i
           then StrayRead.siftup_ (Some e) i t = Crash AssertionFailed
           else exists t',
                  StrayRead.siftup_ (Some e) i t = Ok t' /\ sifted t'
                  /\ heap_ t' !! 0%nat = heap_ t !! Z.to_nat i
       end.
Proof. exact (siftup_stray_cases stray i n t). Qed.


Lemma siftup_loop_stray_size stray (fuel : nat) :
  forall (i p : Z) t t',
    StrayRead.siftup_loop stray fuel i p t = Ok t' -> size t' = size t.
Proof.
  induction fuel as [| fuel IH]; intros i p t t' H; [discriminate H |].
  cbn [StrayRead.siftup_loop] in H.
  destruct (0 <=? p); [| now injection H as <-].
  apply bind_Ok in H as (ep & _ & H). apply bind_Ok in H as (ni & _ & H).
  destruct (ep >? expires ni); [| now injection H as <-].
  apply bind_Ok in H as (t1 & Hsw & H).
  rewrite (IH _ _ _ _ H). eapply SwapNode_size, Hsw.
Qed.

Lemma siftup_stray_size stray (i : Z) t t' :
  StrayRead.siftup_ stray i t = Ok t' -> size t' = size t.
Proof.
  unfold StrayRead.siftup_. destruct (negb (i <? size t)); [discriminate |].
  apply siftup_loop_stray_size.
Qed.

(** [siftup_] returns, or stops at the assertion of [SwapNode_], or
    stops at the read before the vector when that read faults. *)
Lemma siftup_stray_total stray (i : Z) t :
  0 <= i < size t -> size t < SIZE_BOUND ->
  (forall j : Z, 0 <= j < i -> deadline (heap_ t) 0 <= deadline (heap_ t) j) ->
  (exists t', StrayRead.siftup_ stray i t = Ok t')
  \/ StrayRead.siftup_ stray i t = Crash AssertionFailed
  \/ stray = None
     /\ StrayRead.siftup_ stray i t = Crash (OutOfBounds PARENT_OF_ROOT).
Proof.
  intros Hi Hsz Hmin.
  pose proof (siftup_loop_stray_outcome stray (S (Z.to_nat i)) i t
                Hi Hsz ltac:(lia) Hmin) as Hout.
  cbn zeta in Hout. unfold StrayRead.siftup_.
  destruct (Z.ltb_spec i (size t)); [| lia]. cbn [negb].
  destruct ((0 <? i) && (deadline (heap_ t) 0 <=? deadline (heap_ t) i)).
  { left. exact Hout. }
  destruct stray as [e |]; [| right; right; auto].
  destruct (e >? deadline (heap_ t) i); [right; left; exact Hout |].
  destruct Hout as (t' & Hrun & _). left. eauto.
Qed.

Lemma del_stray_total stray (index : Z) t :
  inv t -> size t < SIZE_BOUND -> 0 <= index < size t ->
  (exists t', StrayRead.del_ stray index t = Ok t')
  \/ StrayRead.del_ stray index t = Crash AssertionFailed
  \/ stray = None
     /\ StrayRead.del_ stray index t = Crash (OutOfBounds PARENT_OF_ROOT).
Proof.
  intros Hinv Hsz Hidx. pose proof Hsz as Hsz'.
  unfold SIZE_BOUND in Hsz'. unfold StrayRead.del_.
  destruct (Z.ltb_spec index (size t)); [| lia]. cbn [negb]. cbn zeta.
  rewrite (wrap_size_small (size t - 1)) by lia.
  destruct (Z.leb_spec index (size t - 1)); [| lia]. cbn [negb].
  assert (Hpop : forall t2 : HeapTimer CB, size t2 = size t ->
            exists t',
              match last (heap_ t2) with
              | Some back => Ok {| heap_ := removelast (heap_ t2);
                                   ref_ := delete (id back) (ref_ t2) |}
              | None => Crash (OutOfBounds (wrap_size (-1)))
              end = Ok t').
  { intros t2 Hs2. rewrite last_lookup.
    destruct (heap_ t2 !! Nat.pred (length (heap_ t2))) eqn:E; [eauto |].
    apply lookup_ge_None in E. unfold size, vec_size in *. lia. }
  destruct (Z.ltb_spec index (size t - 1)) as [Hin | Hlast].
  2:{ left. cbn [bind]. now apply Hpop. }
  destruct (swap_with_last t index Hinv Hsz ltac:(lia))
    as (t1 & -> & Hs1 & Hx1 & Hh1 & Hd1 & Hdi). cbn [bind].
  assert (Hroot : forall j : Z, 0 <= j < size t ->
                    deadline (heap_ t) 0 <= deadline (heap_ t) j).
  { apply root_is_minimum, Hinv. }
  assert (Hdown : exists r, siftdown_ index (size t - 1) t1 = Ok r).
  { unfold siftdown_.
    destruct (Z.ltb_spec index (size t1)); [| lia]. cbn [negb].
    destruct (Z.leb_spec (size t - 1) (size t1)); [| lia]. cbn [negb].
    apply siftdown_loop_total; try lia.
    unfold size, vec_size in *. lia. }
  destruct Hdown as [[m t2] Hdown]. rewrite Hdown. cbn [bind fst snd].
  pose proof (siftdown_size _ _ _ _ Hdown) as Hs2. cbn [snd] in Hs2.
  destruct m; cbn [negb].
  { left. cbn [bind]. apply Hpop. lia. }
  assert (Hsame : t2 = t1).
  { unfold siftdown_ in Hdown.
    destruct (Z.ltb_spec index (size t1)); [| lia]. cbn [negb] in Hdown.
    destruct (Z.leb_spec (size t - 1) (size t1)); [| lia]. cbn [negb] in Hdown.
    apply siftdown_loop_spec in Hdown; try (assumption || lia).
    destruct Hdown as (_ & _ & _ & _ & [[-> _] | [Hm _]]);
      [reflexivity | discriminate Hm]. }
  subst t2.
  assert (Hmin1 : forall j : Z, 0 <= j < index ->
                    deadline (heap_ t1) 0 <= deadline (heap_ t1) j).
  { intros j Hj. rewrite (Hd1 0), (Hd1 j) by lia. apply Hroot. lia. }
  destruct (siftup_stray_total stray index t1 ltac:(lia) ltac:(lia) Hmin1)
    as [[t3 Hup] | [Hup | [Hnone Hup]]]; rewrite Hup; cbn [bind].
  - left. apply Hpop. apply siftup_stray_size in Hup. lia.
  - right. left. reflexivity.
  - right. right. auto.
Qed.

End StrayReadFacts.

Section StrayRunFacts.

Import HeapTimer.

Context {CB : Type}.
Variable clock : nat -> Z.
Variable found : World CB -> option TimeStamp.

Implicit Type t : HeapTimer CB.
Implicit Type w : World CB.

Lemma add_stray_spec (id0 timeOut : Z) (c : CB) w w' :
  inv (timer w) -> size (timer w) + 1 < SIZE_BOUND ->
  StrayRead.add clock found id0 timeOut c w = Ok w' ->
  inv (timer w') /\ size (timer w') <= size (timer w) + 1.
Proof.
  intros Hinv Hsz Hrun. pose proof Hsz as Hsz'. unfold SIZE_BOUND in Hsz'.
  unfold StrayRead.add in Hrun. cbn zeta in Hrun.
  destruct (0 <=? id0); [| discriminate Hrun]. cbn [negb] in Hrun.
  destruct (ref_ (timer w) !! id0) as [idx |] eqn:Er.
  - destruct (ref_in_range _ _ _ (proj2 Hinv) Er) as (Hidx & node & Ln & Hid).
    rewrite (wrap_int_small idx) in Hrun by lia.
    rewrite (wrap_size_small idx) in Hrun by lia.
    apply bind_Ok in Hrun as (node' & Hv & Hrun).
    apply vec_at_Ok in Hv as [_ Hv]. rewrite Ln in Hv. injection Hv as <-.
    apply bind_Ok in Hrun as (r & Hdown & Hrun).
    apply bind_Ok in Hrun as (t3 & Hup & Hrun). injection Hrun as <-.
    cbn [timer].
    destruct (overwrite_spec (timer w) idx node
                (set_cb c (set_expires (clock (reads w) + MS timeOut) node))
                Hinv Hidx Ln eq_refl) as (Hs & Hr & Hh & _).
    rewrite Hs in Hdown.
    eapply resift_stray_spec in Hup; [| | | | | | exact Hdown];
      try (assumption || lia).
    destruct Hup as (Ho & Hs' & Hr' & _).
    split; [split; [| exact Hr'] | lia].
    rewrite Hs', Hs. exact Ho.
  - apply bind_Ok in Hrun as (t2 & Hup & Hrun). injection Hrun as <-.
    cbn [timer].
    destruct (push_spec (timer w)
                (mkTimerNode id0 (clock (reads w) + MS timeOut) c)
                Hinv Er) as (Hs & Hr & Hh).
    cbn [id] in Hs, Hr, Hh.
    assert (H0 : 0 <= size (timer w)) by (unfold size, vec_size; lia).
    apply (siftup_stray_spec _ (size (timer w)) (size (timer w) + 1)) in Hup;
      try (assumption || lia).
    destruct Hup as (Ho & Hs' & Hr' & _).
    split; [split; [| exact Hr'] | lia].
    rewrite Hs', Hs. exact Ho.
Qed.

Lemma doWork_stray_spec (id0 : Z) w w' :
  inv (timer w) -> size (timer w) < SIZE_BOUND ->
  StrayRead.doWork found id0 w = Ok w' ->
  inv (timer w') /\ size (timer w') <= size (timer w).
Proof.
  intros Hinv Hsz Hrun. unfold StrayRead.doWork in Hrun. cbn zeta in Hrun.
  destruct (heap_ (timer w)) as [| n0 h0] eqn:Eh.
  { injection Hrun as <-. split; [exact Hinv | lia]. }
  rewrite <- Eh in Hrun.
  destruct (ref_ (timer w) !! id0) as [idx |] eqn:Er.
  2: { injection Hrun as <-. split; [exact Hinv | lia]. }
  destruct (ref_in_range _ _ _ (proj2 Hinv) Er) as (Hidx & _).
  apply bind_Ok in Hrun as (node & _ & Hrun).
  apply bind_Ok in Hrun as (t' & Hdel & Hrun). injection Hrun as <-.
  cbn [timer]. apply del_stray_spec in Hdel; [| lia | exact Hinv | exact Hsz].
  destruct Hdel as [Hi Hs]. split; [exact Hi | lia].
Qed.

Lemma tick_loop_stray_spec (fuel : nat) :
  forall w w',
    inv (timer w) -> size (timer w) < SIZE_BOUND ->
    StrayRead.tick_loop clock found fuel w = Ok w' ->
    inv (timer w') /\ size (timer w') <= size (timer w).
Proof.
  induction fuel as [| fuel IH]; intros w w' Hinv Hsz Hrun;
    [discriminate Hrun |].
  cbn [StrayRead.tick_loop] in Hrun.
  destruct (heap_ (timer w)) as [| node h0] eqn:Eh.
  { injection Hrun as <-. split; [exact Hinv | lia]. }
  cbn zeta in Hrun.
  destruct (duration_cast_MS (expires node - clock (reads w)) >? 0).
  { injection Hrun as <-. cbn [timer]. split; [exact Hinv | lia]. }
  apply bind_Ok in Hrun as (t' & Hpop & Hrun).
  unfold StrayRead.pop in Hpop. rewrite Eh in Hpop.
  apply del_stray_spec in Hpop; [| lia | exact Hinv | exact Hsz].
  destruct Hpop as [Hi Hs].
  apply IH in Hrun; cbn [timer]; [| exact Hi | lia].
  cbn [timer] in Hrun. destruct Hrun as [Hi' Hs']. split; [exact Hi' | lia].
Qed.

Lemma step_stray_spec (o : Op CB) w w' :
  inv (timer w) -> size (timer w) + 1 < SIZE_BOUND ->
  match o with
  | OpAdjust id0 newExpires => extends clock id0 newExpires w
  | _ => True
  end ->
  StrayRead.step clock found o w = Ok w' ->
  inv (timer w') /\ size (timer w') <= size (timer w) + 1.
Proof.
  intros Hinv Hsz Hext Hrun. destruct o as [id0 e c | id0 e | id0 |];
    cbn [StrayRead.step] in Hrun.
  - now apply add_stray_spec in Hrun.
  - apply adjust_spec in Hrun; [| exact Hinv | lia | exact Hext].
    destruct Hrun as [Hi Hs]. split; [exact Hi | lia].
  - apply doWork_stray_spec in Hrun; [| exact Hinv | lia].
    destruct Hrun as [Hi Hs]. split; [exact Hi | lia].
  - apply tick_loop_stray_spec in Hrun; [| exact Hinv | lia].
    destruct Hrun as [Hi Hs]. split; [exact Hi | lia].
Qed.

(** The invariant after every operation of a run: after each prefix of
    the run that returns. *)
Lemma run_prefix_stray_spec (ops : list (Op CB)) :
  forall (k : nat) w w',
    inv (timer w) ->
    size (timer w) + Z.of_nat (length ops) < SIZE_BOUND ->
    StrayRead.adjusts_extend clock found ops w ->
    StrayRead.run clock found (take k ops) w = Ok w' ->
    inv (timer w').
Proof.
  induction ops as [| o ops IH]; intros k w w' Hinv Hsz Hext Hrun.
  - rewrite take_nil in Hrun. injection Hrun as <-. exact Hinv.
  - destruct k as [| k]; [injection Hrun as <-; exact Hinv |].
    cbn [take StrayRead.run] in Hrun.
    apply bind_Ok in Hrun as (w1 & Hstep & Hrun).
    destruct Hext as [Ho Hrest]. cbn [length] in Hsz.
    pose proof Hstep as Hstep'.
    apply step_stray_spec in Hstep'; [| exact Hinv | lia | exact Ho].
    destruct Hstep' as [Hi Hs].
    apply (IH k w1 w'); [exact Hi | lia | now apply Hrest | exact Hrun].
Qed.


Lemma siftdown_total (k n : Z) t :
  0 <= k < n -> n <= size t -> size t < SIZE_BOUND ->
  exists r, siftdown_ k n t = Ok r.
Proof.
  intros Hk Hn Hsz. unfold siftdown_.
  destruct (Z.ltb_spec k (size t)); [| lia]. cbn [negb].
  destruct (Z.leb_spec n (size t)); [| lia]. cbn [negb].
  apply siftdown_loop_total; try lia.
  unfold size, vec_size in *. lia.
Qed.

Lemma siftdown_unmoved (k n : Z) t t' :
  0 <= k < n -> n <= size t -> size t < SIZE_BOUND ->
  hole n k (heap_ t) -> ref_exact t ->
  siftdown_ k n t = Ok (false, t') -> t' = t.
Proof.
  intros Hk Hn Hsz Hh Hx Hdown. unfold siftdown_ in Hdown.
  destruct (Z.ltb_spec k (size t)); [| lia]. cbn [negb] in Hdown.
  destruct (Z.leb_spec n (size t)); [| lia]. cbn [negb] in Hdown.
  apply siftdown_loop_spec in Hdown; try (assumption || lia).
  destruct Hdown as (_ & _ & _ & _ & [[-> _] | [Hm _]]);
    [reflexivity | discriminate Hm].
Qed.

(** [add] returns, or stops at an assertion (its own, on a negative id,
    or that of [SwapNode_]), or at the read before the vector when that
    read faults. *)
Lemma add_stray_total (id0 timeOut : Z) (c : CB) w :
  inv (timer w) -> size (timer w) + 1 < SIZE_BOUND ->
  (exists w', StrayRead.add clock found id0 timeOut c w = Ok w')
  \/ StrayRead.add clock found id0 timeOut c w = Crash AssertionFailed
  \/ found w = None
     /\ StrayRead.add clock found id0 timeOut c w
        = Crash (OutOfBounds PARENT_OF_ROOT).
Proof.
  intros Hinv Hsz. pose proof Hsz as Hsz'. unfold SIZE_BOUND in Hsz'.
  assert (Hroot : forall j : Z, 0 <= j < size (timer w) ->
            deadline (heap_ (timer w)) 0 <= deadline (heap_ (timer w)) j).
  { apply root_is_minimum, Hinv. }
  unfold StrayRead.add. cbn zeta.
  destruct (0 <=? id0); [| right; left; reflexivity]. cbn [negb].
  destruct (ref_ (timer w) !! id0) as [idx |] eqn:Er.
  - destruct (ref_in_range _ _ _ (proj2 Hinv) Er) as (Hidx & node & Ln & Hid).
    rewrite (wrap_int_small idx) by lia.
    rewrite (wrap_size_small idx) by lia.
    assert (Hv : vec_at (heap_ (timer w)) idx = Ok node).
    { apply vec_at_Ok. split; [exact Hidx | exact Ln]. }
    rewrite Hv. cbn [bind].
    destruct (overwrite_spec (timer w) idx node
                (set_cb c (set_expires (clock (reads w) + MS timeOut) node))
                Hinv Hidx Ln eq_refl) as (Hs & Hr & Hh & _ & Hdo).
    set (t1 := {| heap_ := <[Z.to_nat idx :=
                     set_cb c (set_expires (clock (reads w) + MS timeOut) node)]>
                     (heap_ (timer w));
                  ref_ := ref_ (timer w) |}) in *.
    destruct (siftdown_total idx (size t1) t1 ltac:(lia) ltac:(lia) ltac:(lia))
      as [[m t2] Hdown].
    rewrite Hdown. cbn [bind fst snd].
    destruct m; cbn [negb bind]; [left; eauto |].
    assert (t2 = t1) as ->.
    { apply (siftdown_unmoved idx (size t1) t1); try (assumption || lia).
      now rewrite Hs. }
    assert (Hmin1 : forall j : Z, 0 <= j < idx ->
                      deadline (heap_ t1) 0 <= deadline (heap_ t1) j).
    { intros j Hj. rewrite (Hdo 0), (Hdo j) by lia. apply Hroot. lia. }
    destruct (siftup_stray_total (found w) idx t1 ltac:(lia) ltac:(lia) Hmin1)
      as [[t3 Hup] | [Hup | [Hnone Hup]]]; rewrite Hup; cbn [bind].
    + left. eauto.
    + right. left. reflexivity.
    + right. right. auto.
  - set (node := mkTimerNode id0 (clock (reads w) + MS timeOut) c).
    destruct (push_spec (timer w) node Hinv Er) as (Hs & _ & _).
    cbn [id node] in Hs.
    set (t1 := {| heap_ := heap_ (timer w) ++ [node];
                  ref_ := <[id0 := size (timer w)]> (ref_ (timer w)) |}) in *.
    assert (H0 : 0 <= size (timer w)) by (unfold size, vec_size; lia).
    assert (Hmin1 : forall j : Z, 0 <= j < size (timer w) ->
                      deadline (heap_ t1) 0 <= deadline (heap_ t1) j).
    { assert (Hd : forall j : Z, 0 <= j < size (timer w) ->
                deadline (heap_ t1) j = deadline (heap_ (timer w)) j).
      { intros j Hj. unfold deadline, t1. cbn [heap_].
        rewrite lookup_app_l; [reflexivity |].
        unfold size, vec_size in Hj. lia. }
      intros j Hj. rewrite (Hd 0), (Hd j) by lia. now apply Hroot. }
    destruct (siftup_stray_total (found w) (size (timer w)) t1
                ltac:(lia) ltac:(lia) Hmin1)
      as [[t3 Hup] | [Hup | [Hnone Hup]]]; rewrite Hup; cbn [bind].
    + left. eauto.
    + right. left. reflexivity.
    + right. right. auto.
Qed.

Lemma adjust_total (id0 newExpires : Z) w :
  inv (timer w) -> size (timer w) < SIZE_BOUND ->
  (exists w', adjust clock id0 newExpires w = Ok w')
  \/ adjust clock id0 newExpires w = Crash AssertionFailed.
Proof.
  intros Hinv Hsz.
  destruct (ref_ (timer w) !! id0) as [idx |] eqn:Er.
  - destruct (ref_in_range _ _ _ (proj2 Hinv) Er) as (Hidx & node & Ln & Hid).
    rewrite (adjust_unfold clock id0 newExpires idx w node Er) by (lia || auto).
    cbn zeta.
    destruct (overwrite_spec (timer w) idx node
                (set_expires (clock (reads w) + MS newExpires) node)
                Hinv Hidx Ln eq_refl) as (Hs & _).
    set (t1 := {| heap_ := <[Z.to_nat idx :=
                     set_expires (clock (reads w) + MS newExpires) node]>
                     (heap_ (timer w));
                  ref_ := ref_ (timer w) |}) in *.
    destruct (siftdown_total idx (size t1) t1 ltac:(lia) ltac:(lia) ltac:(lia))
      as [r Hdown].
    rewrite Hdown. cbn [bind]. left. eauto.
  - right. unfold adjust. cbn zeta. rewrite Er.
    destruct (heap_ (timer w)); reflexivity.
Qed.

Lemma doWork_stray_total (id0 : Z) w :
  inv (timer w) -> size (timer w) < SIZE_BOUND ->
  (exists w', StrayRead.doWork found id0 w = Ok w')
  \/ StrayRead.doWork found id0 w = Crash AssertionFailed
  \/ found w = None
     /\ StrayRead.doWork found id0 w = Crash (OutOfBounds PARENT_OF_ROOT).
Proof.
  intros Hinv Hsz. unfold StrayRead.doWork. cbn zeta.
  destruct (heap_ (timer w)) as [| n0 h0] eqn:Eh; [left; eauto |].
  rewrite <- Eh.
  destruct (ref_ (timer w) !! id0) as [idx |] eqn:Er; [| left; eauto].
  destruct (ref_in_range _ _ _ (proj2 Hinv) Er) as (Hidx & node & Ln & _).
  assert (Hv : vec_at (heap_ (timer w)) idx = Ok node).
  { apply vec_at_Ok. split; [exact Hidx | exact Ln]. }
  rewrite Hv. cbn [bind].
  destruct (del_stray_total (found w) idx (timer w) Hinv Hsz Hidx)
    as [[t' Hdel] | [Hdel | [Hnone Hdel]]]; rewrite Hdel; cbn [bind].
  - left. eauto.
  - right. left. reflexivity.
  - right. right. auto.
Qed.

Lemma tick_loop_stray_total (fuel : nat) :
  forall w,
    inv (timer w) -> size (timer w) < SIZE_BOUND ->
    (Z.to_nat (size (timer w)) < fuel)%nat ->
    (exists w', StrayRead.tick_loop clock found fuel w = Ok w')
    \/ StrayRead.tick_loop clock found fuel w = Crash AssertionFailed
    \/ (exists w0, found w0 = None)
       /\ StrayRead.tick_loop clock found fuel w
          = Crash (OutOfBounds PARENT_OF_ROOT).
Proof.
  induction fuel as [| fuel IH]; intros w Hinv Hsz Hfuel; [lia |].
  cbn [StrayRead.tick_loop].
  destruct (heap_ (timer w)) as [| node rest] eqn:Eh; [left; eauto |].
  cbn zeta.
  destruct (duration_cast_MS (expires node - clock (reads w)) >? 0);
    [left; eauto |].
  assert (Hpos : 0 < size (timer w)).
  { unfold size, vec_size. rewrite Eh. cbn [length]. lia. }
  assert (Hpop : StrayRead.pop (found w) (timer w)
                 = StrayRead.del_ (found w) 0 (timer w)).
  { unfold StrayRead.pop. now rewrite Eh. }
  rewrite Hpop.
  destruct (del_stray_total (found w) 0 (timer w) Hinv Hsz ltac:(lia))
    as [[t' Hdel] | [Hdel | [Hnone Hdel]]]; rewrite Hdel; cbn [bind].
  - destruct (del_stray_spec (found w) 0 (timer w) t' ltac:(lia) Hinv Hsz Hdel)
      as [Hinv' Hs'].
    apply IH; cbn [timer]; (assumption || lia).
  - right. left. reflexivity.
  - right. right. eauto.
Qed.

Lemma step_stray_total (o : Op CB) w :
  inv (timer w) -> size (timer w) + 1 < SIZE_BOUND ->
  (exists w', StrayRead.step clock found o w = Ok w')
  \/ StrayRead.step clock found o w = Crash AssertionFailed
  \/ (exists w0, found w0 = None)
     /\ StrayRead.step clock found o w = Crash (OutOfBounds PARENT_OF_ROOT).
Proof.
  intros Hinv Hsz. destruct o as [id0 e c | id0 e | id0 |];
    cbn [StrayRead.step].
  - destruct (add_stray_total id0 e c w Hinv Hsz) as [H | [H | [Hn H]]];
      eauto 6.
  - destruct (adjust_total id0 e w Hinv ltac:(lia)) as [H | H]; auto.
  - destruct (doWork_stray_total id0 w Hinv ltac:(lia)) as [H | [H | [Hn H]]];
      eauto 6.
  - apply tick_loop_stray_total; [exact Hinv | lia |].
    unfold size, vec_size. lia.
Qed.

(** How a run ends: it returns; or it stops at an assertion ([adjust] of
    an id the timer does not hold, [add] of a negative id, [SwapNode_]
    called with the index before the vector); or it stops at the read
    before the vector, when that read faults. *)
Lemma run_stray_total (ops : list (Op CB)) :
  forall w,
    inv (timer w) ->
    size (timer w) + Z.of_nat (length ops) < SIZE_BOUND ->
    StrayRead.adjusts_extend clock found ops w ->
    (exists w', StrayRead.run clock found ops w = Ok w')
    \/ StrayRead.run clock found ops w = Crash AssertionFailed
    \/ (exists w0, found w0 = None)
       /\ StrayRead.run clock found ops w
          = Crash (OutOfBounds PARENT_OF_ROOT).
Proof.
  induction ops as [| o ops IH]; intros w Hinv Hsz Hext; [left; eauto |].
  cbn [StrayRead.run]. cbn [length] in Hsz. destruct Hext as [Ho Hrest].
  destruct (step_stray_total o w Hinv ltac:(lia)) as [[w1 H] | [H | [Hn H]]];
    rewrite H; cbn [bind]; [| auto | auto].
  destruct (step_stray_spec o w w1 Hinv ltac:(lia) Ho H) as [Hi Hs].
  apply IH; [exact Hi | lia | now apply Hrest].
Qed.

(** With a read that faults, a run is the run of [HeapTimer]. *)
Lemma run_faulting (ops : list (Op CB)) :
  forall w, StrayRead.run clock (fun _ => None) ops w = run clock ops w.
Proof.
  assert (Hadd : forall id0 e c w,
            StrayRead.add clock (fun _ => None) id0 e c w = add clock id0 e c w).
  { intros id0 e c w. unfold StrayRead.add, add, StrayRead.siftup_, siftup_.
    cbn zeta. destruct (negb (0 <=? id0)); [reflexivity |].
    destruct (ref_ (timer w) !! id0) as [idx |].
    - destruct (vec_at _ _) as [node | f]; [| reflexivity]. cbn [bind].
      destruct (siftdown_ _ _ _) as [r | f]; [| reflexivity]. cbn [bind].
      destruct (negb (fst r)); [| reflexivity].
      destruct (negb (_ <? size (snd r))); [reflexivity |].
      now rewrite siftup_loop_faulting.
    - destruct (negb (_ <? size _)); [reflexivity |].
      now rewrite siftup_loop_faulting. }
  assert (Hdo : forall id0 w,
            StrayRead.doWork (fun _ => None) id0 w = doWork id0 w).
  { intros id0 w. unfold StrayRead.doWork, doWork. cbn zeta.
    destruct (heap_ (timer w)); [reflexivity |].
    destruct (ref_ (timer w) !! id0); [| reflexivity].
    destruct (vec_at _ _); [| reflexivity]. cbn [bind].
    now rewrite del_faulting. }
  assert (Htick : forall fuel w,
            StrayRead.tick_loop clock (fun _ => None) fuel w
            = tick_loop clock fuel w).
  { induction fuel as [| fuel IHf]; intros w; [reflexivity |].
    cbn [StrayRead.tick_loop tick_loop].
    destruct (heap_ (timer w)) as [| node rest] eqn:Eh; [reflexivity |].
    cbn zeta. destruct (_ >? 0); [reflexivity |].
    unfold StrayRead.pop, pop. rewrite Eh, del_faulting.
    destruct (del_ 0 (timer w)); [| reflexivity]. cbn [bind]. apply IHf. }
  induction ops as [| o ops IH]; intros w; [reflexivity |].
  cbn [StrayRead.run run].
  assert (Hstep : StrayRead.step clock (fun _ => None) o w = step clock o w).
  { destruct o; cbn [StrayRead.step step]; auto.
    unfold StrayRead.tick, tick. apply Htick. }
  rewrite Hstep. destruct (step clock o w); [| reflexivity]. cbn [bind].
  apply IH.
Qed.

(** C4. After each operation of a sequence of [add], [adjust], [doWork]
    and [tick] calls in which every [adjust] extends its node's
    deadline, whatever the reads before the vector find: the vector is a
    min-heap on the deadlines, the root holds the earliest of them, and
    [ref_] maps exactly the ids stored to their positions. The timer
    holds fewer than 2^31 nodes, the positions [add] keeps in an
    [int]. *)
Theorem timer_run_keeps_heap_order :
  forall (ops : list (Op CB)) (k : nat) w w',
    inv (timer w) ->
    size (timer w) + Z.of_nat (length ops) < SIZE_BOUND ->
    StrayRead.adjusts_extend clock found ops w ->
    StrayRead.run clock found (take k ops) w = Ok w' ->
    heap_ordered (size (timer w')) (heap_ (timer w'))
    /\ (forall i : Z, 0 <= i < size (timer w') ->
          deadline (heap_ (timer w')) 0 <= deadline (heap_ (timer w')) i)
    /\ ref_exact (timer w').
Proof.
  intros ops k w w' Hinv Hsz Hext Hrun.
  destruct (run_prefix_stray_spec ops k w w' Hinv Hsz Hext Hrun) as [Ho Hx].
  split; [exact Ho |]. split; [| exact Hx].
  now apply root_is_minimum.
Qed.

(** X6. [add] of an id the timer does not hold. Into a timer whose root
    is not later than the new deadline the node is added below the root,
    and nothing outside the vector is read. Into an empty timer, or with
    a deadline earlier than the root's, the node reaches the root and
    [siftup_] reads before the vector: [add] returns, the new node at
    the root, when the deadline found there is not later than the new
    one, and stops at the assertion of [SwapNode_] when it is later. *)
Theorem add_new_id_ends_by_stray_read (id0 timeOut : Z) (c : CB) w :
  inv (timer w) -> size (timer w) + 1 < SIZE_BOUND ->
  0 <= id0 -> ref_ (timer w) !! id0 = None ->
  let e := clock (reads w) + MS timeOut in
  let added w' :=
    inv (timer w') /\ size (timer w') = size (timer w) + 1
    /\ fired w' = fired w in
  let at_root :=
    match found w with
    | None =>
        StrayRead.add clock found id0 timeOut c w
        = Crash (OutOfBounds PARENT_OF_ROOT)
    | Some s =>
        if s >? e
        then StrayRead.add clock found id0 timeOut c w = Crash AssertionFailed
        else exists w',
               StrayRead.add clock found id0 timeOut c w = Ok w'
               /\ added w'
               /\ heap_ (timer w') !! 0%nat = Some (mkTimerNode id0 e c)
    end in
  match heap_ (timer w) with
  | root :: _ =>
      if expires root <=? e
      then exists w',
             StrayRead.add clock found id0 timeOut c w = Ok w'
             /\ add clock id0 timeOut c w = Ok w' /\ added w'
             /\ heap_ (timer w') !! 0%nat = Some root
      else at_root
  | [] => at_root
  end.
Proof.
  intros Hinv Hsz Hid Er e added.
  set (node := mkTimerNode id0 e c).
  destruct (push_spec (timer w) node Hinv Er) as (Hs & Hr & Hh).
  cbn [id node] in Hs, Hr, Hh.
  set (t1 := {| heap_ := heap_ (timer w) ++ [node];
                ref_ := <[id0 := size (timer w)]> (ref_ (timer w)) |}) in *.
  assert (H0 : 0 <= size (timer w)) by (unfold size, vec_size; lia).
  assert (Hnew : forall s,
            StrayRead.add clock s id0 timeOut c w
            = (t2 <- StrayRead.siftup_ (s w) (size (timer w)) t1 ;;
               Ok {| timer := t2; fired := fired w; reads := S (reads w) |})).
  { intros s. unfold StrayRead.add. cbn zeta.
    destruct (Z.leb_spec 0 id0); [| lia]. cbn [negb]. now rewrite Er. }
  assert (Hold : add clock id0 timeOut c w
                 = (t2 <- siftup_ (size (timer w)) t1 ;;
                    Ok {| timer := t2; fired := fired w;
                          reads := S (reads w) |})).
  { unfold add. cbn zeta.
    destruct (Z.leb_spec 0 id0); [| lia]. cbn [negb]. now rewrite Er. }
  assert (Hln : heap_ t1 !! Z.to_nat (size (timer w)) = Some node).
  { unfold t1, size, vec_size. cbn [heap_].
    rewrite Nat2Z.id, lookup_app_r by lia. now rewrite Nat.sub_diag. }
  assert (Hadded : forall t2,
            heap_ordered (size (timer w) + 1) (heap_ t2)
            /\ size t2 = size t1 /\ ref_exact t2 /\ same_nodes t1 t2 ->
            added {| timer := t2; fired := fired w; reads := S (reads w) |}).
  { intros t2 (Ho & Hs2 & Hx & _). unfold added. cbn [timer fired].
    split; [split; [| exact Hx] | split; [lia | reflexivity]].
    rewrite Hs2, Hs. exact Ho. }
  pose proof (siftup_stray_cases (found w) (size (timer w))
                (size (timer w) + 1) t1 ltac:(lia) ltac:(lia) ltac:(lia)
                Hr Hh) as Hcases.
  cbn zeta in Hcases. rewrite (deadline_lookup _ _ _ Hln) in Hcases.
  rewrite Hln in Hcases. cbn [expires node] in Hcases.
  rewrite Hnew. cbn zeta.
  assert (Hat : (0 <? size (timer w))
                && (deadline (heap_ t1) 0 <=? e) = false ->
    match found w with
    | None =>
        (t2 <- StrayRead.siftup_ (found w) (size (timer w)) t1 ;;
         Ok {| timer := t2; fired := fired w; reads := S (reads w) |})
        = Crash (OutOfBounds PARENT_OF_ROOT)
    | Some s =>
        if s >? e
        then (t2 <- StrayRead.siftup_ (found w) (size (timer w)) t1 ;;
              Ok {| timer := t2; fired := fired w; reads := S (reads w) |})
             = Crash AssertionFailed
        else exists w',
               (t2 <- StrayRead.siftup_ (found w) (size (timer w)) t1 ;;
                Ok {| timer := t2; fired := fired w; reads := S (reads w) |})
               = Ok w'
               /\ added w'
               /\ heap_ (timer w') !! 0%nat = Some node
    end).
  { intros Ec. rewrite Ec in Hcases.
    destruct (found w) as [s |]; [| now rewrite Hcases].
    destruct (s >? e); [now rewrite Hcases |].
    destruct Hcases as (t2 & Hrun & Hsifted & Hroot).
    rewrite Hrun. cbn [bind]. eexists. split; [reflexivity |].
    split; [now apply Hadded | exact Hroot]. }
  destruct (heap_ (timer w)) as [| root rest] eqn:Eh.
  - apply Hat.
    assert (Hz : size (timer w) = 0) by (unfold size; now rewrite Eh).
    rewrite Hz. reflexivity.
  - assert (Hpos : 0 < size (timer w)).
    { unfold size, vec_size. rewrite Eh. cbn [length]. lia. }
    assert (Hd0 : deadline (heap_ t1) 0 = expires root).
    { unfold deadline, t1. cbn [heap_]. rewrite ?Eh. reflexivity. }
    rewrite Hd0 in Hat, Hcases.
    destruct (Z.ltb_spec 0 (size (timer w))); [| lia].
    cbn [andb] in Hat, Hcases.
    destruct (expires root <=? e); [| now apply Hat].
    destruct Hcases as (t2 & Hrun & Hrun0 & Hsifted & Hroot).
    rewrite Hrun, Hold, Hrun0. cbn [bind]. eexists.
    split; [reflexivity |]. split; [reflexivity |].
    split; [now apply Hadded |]. cbn [timer]. rewrite Hroot.
    unfold t1. cbn [heap_]. rewrite ?Eh. reflexivity.
Qed.

End StrayRunFacts.

Lemma new_world_inv :
  HeapTimer.inv (HeapTimer.timer (@HeapTimer.new_world nat)).
Proof.
  split.
  - intros i Hi. unfold HeapTimer.size, vec_size in Hi. cbn in Hi. lia.
  - intros k i. unfold HeapTimer.size, vec_size. cbn. split.
    + intros Hl. rewrite lookup_empty in Hl. discriminate Hl.
    + intros [Hi _]. lia.
Qed.

Lemma timer_run_keeps_heap_order_witness :
  exists w',
    StrayRead.run late_clock zero_before_buffer first_clients
      HeapTimer.new_world = Ok w'
    /\ HeapTimer.heap_ordered (HeapTimer.size (HeapTimer.timer w'))
         (HeapTimer.heap_ (HeapTimer.timer w'))
    /\ HeapTimer.ref_exact (HeapTimer.timer w').
Proof.
  eexists. split; [vm_compute; reflexivity |].
  refine ((fun H => conj (proj1 H) (proj2 (proj2 H)))
            (timer_run_keeps_heap_order late_clock zero_before_buffer
               first_clients 5 HeapTimer.new_world _ new_world_inv _ _ _)).
  - vm_compute. reflexivity.
  - split; [exact I |]. intros w1 H1. vm_compute in H1. injection H1 as <-.
    split; [exact I |]. intros w2 H2. vm_compute in H2. injection H2 as <-.
    split.
    + intros idx node Hr Hl. vm_compute in Hr. injection Hr as <-.
      vm_compute in Hl. injection Hl as <-. vm_compute. discriminate.
    + intros w3 H3. vm_compute in H3. injection H3 as <-.
      split; [exact I |]. intros w4 H4. vm_compute in H4. injection H4 as <-.
      split; [exact I |]. intros w5 _. exact I.
  - vm_compute. reflexivity.
Defined.

Lemma siftup_ends_by_stray_read_witness :
  exists t',
    StrayRead.siftup_ (Some 0) 0 (HeapTimer.timer one_node_world) = Ok t'
    /\ HeapTimer.heap_ordered 1 (HeapTimer.heap_ t')
    /\ HeapTimer.heap_ t' !! 0%nat
       = HeapTimer.heap_ (HeapTimer.timer one_node_world) !! 0%nat.
Proof.
  pose proof (siftup_ends_by_stray_read (Some 0) 0 1
                (HeapTimer.timer one_node_world)) as H.
  destruct H as (t' & Hrun & (Ho & _) & Hroot).
  - lia.
  - vm_compute. discriminate.
  - vm_compute. reflexivity.
  - apply one_node_world_inv.
  - split; intros j Hj; lia.
  - exists t'. split; [exact Hrun |]. split; assumption.
Defined.

Lemma add_new_id_ends_by_stray_read_witness :
  exists w',
    StrayRead.add late_clock zero_before_buffer 5 60000 5%nat
      HeapTimer.new_world = Ok w'
    /\ HeapTimer.inv (HeapTimer.timer w')
    /\ HeapTimer.heap_ (HeapTimer.timer w') !! 0%nat
       = Some (HeapTimer.mkTimerNode 5
                 (HeapTimer.MS 999 + HeapTimer.MS 60000) 5%nat).
Proof.
  pose proof (add_new_id_ends_by_stray_read late_clock zero_before_buffer
                5 60000 5%nat HeapTimer.new_world new_world_inv) as H.
  destruct H as (w' & Hrun & (Hi & _) & Hroot).
  - vm_compute. reflexivity.
  - lia.
  - reflexivity.
  - exists w'. split; [exact Hrun |]. split; assumption.
Defined.

(** The same calls when the word before the vector is later than the
    new deadline: [SwapNode_] is reached, and its assertion fails. *)
Lemma add_first_node_later_word :
  StrayRead.add late_clock (fun _ => Some (2 ^ 62)) 5 60000 5%nat
    HeapTimer.new_world = Crash AssertionFailed.
Proof. vm_compute. reflexivity. Qed.

(** ** The response builder *)

Section HttpResponseFacts.

Variable fs : HttpResponse.FileSys.

Implicit Type r : HttpResponse.HttpResponse.
Implicit Type buff : Buffer.Buffer.

Lemma error_page_table (code : Z) :
  HttpResponse.assoc Z.eqb code HttpResponse.CODE_PATH
  = HttpResponse.spec_error_page code.
Proof. reflexivity. Qed.

Lemma stat_code_code r :
  HttpResponse.code_ (HttpResponse.stat_code fs r)
  = HttpResponse.spec_status_code fs r.
Proof.
  unfold HttpResponse.stat_code, HttpResponse.spec_status_code,
    HttpResponse.do_stat.
  destruct (HttpResponse.sys_stat fs _) as [st |]; cbn; [| reflexivity].
  destruct (HttpResponse.S_ISDIR _); [reflexivity |].
  destruct (Z.land _ _ =? 0); [reflexivity |].
  destruct (HttpResponse.code_ r =? -1); reflexivity.
Qed.

Lemma stat_code_frame r :
  HttpResponse.path_ (HttpResponse.stat_code fs r) = HttpResponse.path_ r
  /\ HttpResponse.srcDir_ (HttpResponse.stat_code fs r)
     = HttpResponse.srcDir_ r
  /\ HttpResponse.mmFileStat_ (HttpResponse.stat_code fs r)
     = match HttpResponse.sys_stat fs
               (HttpResponse.srcDir_ r ++ HttpResponse.path_ r) with
       | Some st => st
       | None => HttpResponse.mmFileStat_ r
       end.
Proof.
  unfold HttpResponse.stat_code, HttpResponse.do_stat.
  destruct (HttpResponse.sys_stat fs _) as [st |]; cbn; [| auto].
  destruct (HttpResponse.S_ISDIR _); [auto |].
  destruct (Z.land _ _ =? 0); [auto |].
  destruct (HttpResponse.code_ r =? -1); auto.
Qed.

Lemma AddStateLine_code r buff :
  HttpResponse.code_ (fst (HttpResponse.AddStateLine_ (r, buff)))
  = match HttpResponse.assoc Z.eqb (HttpResponse.code_ r)
            HttpResponse.CODE_STATUS with
    | Some _ => HttpResponse.code_ r
    | None => 400
    end
  /\ HttpResponse.path_ (fst (HttpResponse.AddStateLine_ (r, buff)))
     = HttpResponse.path_ r.
Proof.
  unfold HttpResponse.AddStateLine_.
  destruct (HttpResponse.assoc Z.eqb _ _); cbn; auto.
Qed.

Lemma AddContent_frame (rb rb' : HttpResponse.HttpResponse * Buffer.Buffer) :
  HttpResponse.AddContent_ fs rb = Ok rb' ->
  HttpResponse.code_ (fst rb') = HttpResponse.code_ (fst rb)
  /\ HttpResponse.path_ (fst rb') = HttpResponse.path_ (fst rb).
Proof.
  destruct rb as [r buff]. unfold HttpResponse.AddContent_.
  destruct (HttpResponse.sys_open fs _).
  - destruct (HttpResponse.deref_int _) as [v | f]; cbn; [| discriminate].
    destruct (v =? -1); intros H; inversion H; auto.
  - intros H; inversion H; auto.
Qed.

Lemma ErrorHtml_frame r :
  HttpResponse.code_ (HttpResponse.ErrorHtml_ fs r) = HttpResponse.code_ r
  /\ HttpResponse.path_ (HttpResponse.ErrorHtml_ fs r)
     = match HttpResponse.spec_error_page (HttpResponse.code_ r) with
       | Some page => page
       | None => HttpResponse.path_ r
       end
  /\ HttpResponse.mmFileStat_ (HttpResponse.ErrorHtml_ fs r)
     = match HttpResponse.spec_error_page (HttpResponse.code_ r) with
       | Some page =>
           match HttpResponse.sys_stat fs (HttpResponse.srcDir_ r ++ page) with
           | Some st => st
           | None => HttpResponse.mmFileStat_ r
           end
       | None => HttpResponse.mmFileStat_ r
       end.
Proof.
  rewrite <- error_page_table.
  unfold HttpResponse.ErrorHtml_, HttpResponse.do_stat.
  destruct (HttpResponse.assoc Z.eqb _ _); [| auto]. cbn.
  destruct (HttpResponse.sys_stat fs _); auto.
Qed.

Lemma AddHeader_frame (rb : HttpResponse.HttpResponse * Buffer.Buffer) :
  fst (HttpResponse.AddHeader_ rb) = fst rb.
Proof. destruct rb as [r buff]. reflexivity. Qed.

Lemma AddContent_stat (rb rb' : HttpResponse.HttpResponse * Buffer.Buffer) :
  HttpResponse.AddContent_ fs rb = Ok rb' ->
  HttpResponse.mmFileStat_ (fst rb') = HttpResponse.mmFileStat_ (fst rb).
Proof.
  destruct rb as [r buff]. unfold HttpResponse.AddContent_.
  destruct (HttpResponse.sys_open fs _).
  - destruct (HttpResponse.deref_int _) as [v | f]; cbn; [| discriminate].
    destruct (v =? -1); intros H; inversion H; auto.
  - intros H; inversion H; auto.
Qed.

(** C7, for the response [MakeResponse] returns. The code is the one
    the if-chain on [stat] decides (404, 403, 200 for an unset code,
    else the preset code) when that is 200, 400, 403 or 404, and 400
    otherwise: [AddStateLine_] replaces a code the status table does not
    know. The path is the error page of the code the if-chain decided,
    when it is 400, 403 or 404, and the requested path otherwise, and
    the file status is that of the page, stat'ed again (the earlier
    result stays when that [stat] fails). All three are fixed by
    [ErrorHtml_], before the status line and the headers are written. *)
Theorem MakeResponse_status_code :
  forall r buff r' buff',
    HttpResponse.MakeResponse fs r buff = Ok (r', buff') ->
    let c := HttpResponse.spec_status_code fs r in
    let first_stat :=
      match HttpResponse.sys_stat fs
              (HttpResponse.srcDir_ r ++ HttpResponse.path_ r) with
      | Some st => st
      | None => HttpResponse.mmFileStat_ r
      end in
    HttpResponse.code_ r'
    = (if (c =? 200) || (c =? 400) || (c =? 403) || (c =? 404)
       then c else 400)
    /\ HttpResponse.path_ r'
       = match HttpResponse.spec_error_page c with
         | Some page => page
         | None => HttpResponse.path_ r
         end
    /\ HttpResponse.mmFileStat_ r'
       = match HttpResponse.spec_error_page c with
         | Some page =>
             match HttpResponse.sys_stat fs
                     (HttpResponse.srcDir_ r ++ page) with
             | Some st => st
             | None => first_stat
             end
         | None => first_stat
         end
    /\ exists r2,
         HttpResponse.code_ r2 = c
         /\ HttpResponse.path_ r2 = HttpResponse.path_ r'
         /\ HttpResponse.mmFileStat_ r2 = HttpResponse.mmFileStat_ r'
         /\ HttpResponse.MakeResponse fs r buff
            = HttpResponse.AddContent_ fs
                (HttpResponse.AddHeader_
                   (HttpResponse.AddStateLine_ (r2, buff))).
Proof.
  intros r buff r' buff' Hm c first_stat.
  destruct (stat_code_frame r) as (Hp1 & Hs1 & Hst1).
  pose proof (stat_code_code r) as Hc1. fold c in Hc1.
  set (r1 := HttpResponse.stat_code fs r) in *.
  destruct (ErrorHtml_frame r1) as (Hc2 & Hp2 & Hst2).
  rewrite Hc1 in Hc2, Hp2, Hst2. rewrite Hp1 in Hp2.
  rewrite Hs1, Hst1 in Hst2. fold first_stat in Hst2.
  set (r2 := HttpResponse.ErrorHtml_ fs r1) in *.
  unfold HttpResponse.MakeResponse in Hm. fold r1 r2 in Hm.
  pose proof (AddContent_frame _ _ Hm) as [Hcode Hpath].
  pose proof (AddContent_stat _ _ Hm) as Hstat.
  rewrite AddHeader_frame in Hcode, Hpath, Hstat.
  destruct (AddStateLine_code r2 buff) as [Hsc Hsp].
  assert (Hss : HttpResponse.mmFileStat_
                  (fst (HttpResponse.AddStateLine_ (r2, buff)))
                = HttpResponse.mmFileStat_ r2).
  { unfold HttpResponse.AddStateLine_.
    destruct (HttpResponse.assoc Z.eqb _ _); reflexivity. }
  cbn [fst] in Hcode, Hpath, Hstat.
  rewrite Hsc in Hcode. rewrite Hsp in Hpath. rewrite Hss in Hstat.
  rewrite Hc2 in Hcode.
  split.
  { rewrite Hcode. unfold HttpResponse.CODE_STATUS. cbn [HttpResponse.assoc].
    destruct (c =? 200); [reflexivity |].
    destruct (c =? 400); [reflexivity |].
    destruct (c =? 403); [reflexivity |].
    destruct (c =? 404); reflexivity. }
  split; [now rewrite Hpath |].
  split; [now rewrite Hstat |].
  exists r2. repeat split; [exact Hc2 | now rewrite Hpath | now rewrite Hstat].
Qed.

Lemma AddContent_open_fails r buff :
  HttpResponse.sys_open fs (HttpResponse.srcDir_ r ++ HttpResponse.path_ r)
  = None ->
  HttpResponse.AddContent_ fs (r, buff)
  = Ok (r, HttpResponse.ErrorContent r buff "File NotFound!").
Proof. intros H. unfold HttpResponse.AddContent_. now rewrite H. Qed.

(** C5 on the code. When [open] succeeds and [mmap] fails,
    [AddContent_] tests [*mmRet == -1]: it reads through the pointer
    [MAP_FAILED], an address that maps nothing, so the error body is
    never written. *)
Theorem AddContent_mmap_fails :
  forall r buff (srcFd : Z),
    HttpResponse.sys_open fs (HttpResponse.srcDir_ r ++ HttpResponse.path_ r)
    = Some srcFd ->
    HttpResponse.sys_mmap fs srcFd
      (HttpResponse.st_size (HttpResponse.mmFileStat_ r)) = None ->
    HttpResponse.AddContent_ fs (r, buff)
    = Crash (InvalidAddress HttpResponse.MAP_FAILED).
Proof.
  intros r buff srcFd Ho Hm. unfold HttpResponse.AddContent_.
  rewrite Ho, Hm. reflexivity.
Qed.

End HttpResponseFacts.

Lemma MakeResponse_status_code_witness :
  match HttpResponse.MakeResponse site_files response_missing_page
          Buffer.new_buffer with
  | Ok (r', _) =>
      HttpResponse.code_ r' = 404
      /\ HttpResponse.path_ r' = "/404.html"%string
      /\ HttpResponse.mmFileStat_ r' = HttpResponse.mkStat 33188 13
  | Crash _ => False
  end.
Proof.
  destruct (HttpResponse.MakeResponse site_files response_missing_page
              Buffer.new_buffer) as [[r' buff'] | f] eqn:E.
  - destruct (MakeResponse_status_code site_files response_missing_page
                Buffer.new_buffer r' buff' E) as (Hc & Hp & Hs & _).
    split; [exact Hc | split; [exact Hp | exact Hs]].
  - vm_compute in E. discriminate E.
Defined.

(** C7 as stated fails for a preset code the status table does not
    know: the if-chain keeps 500, the response comes back with 400, and
    its path is still the requested page, not [/400.html]. *)
Lemma MakeResponse_preset_code_not_kept :
  HttpResponse.spec_status_code site_files response_preset_500 = 500
  /\ exists r' buff',
       HttpResponse.MakeResponse site_files response_preset_500
         Buffer.new_buffer = Ok (r', buff')
       /\ HttpResponse.code_ r' = 400
       /\ HttpResponse.code_ r' <> HttpResponse.code_ response_preset_500
       /\ HttpResponse.path_ r' = "/index.html"%string
       /\ HttpResponse.spec_error_page (HttpResponse.code_ r')
          = Some "/400.html"%string.
Proof.
  split; [reflexivity |].
  destruct (HttpResponse.MakeResponse site_files response_preset_500
              Buffer.new_buffer) as [[r' buff'] | f] eqn:E.
  - exists r', buff'. split; [reflexivity |].
    vm_compute in E. injection E as <- _.
    repeat split. discriminate.
  - vm_compute in E. discriminate E.
Qed.

Lemma AddContent_mmap_fails_witness :
  HttpResponse.AddContent_ empty_files
    (empty_file_response, Buffer.new_buffer)
  = Crash (InvalidAddress HttpResponse.MAP_FAILED).
Proof.
  apply (AddContent_mmap_fails empty_files empty_file_response
           Buffer.new_buffer 3); reflexivity.
Defined.

(** ** The vectored write *)

Lemma ReadableBytes_Retrieve (len : Z) (b : Buffer.Buffer) :
  Buffer.ReadableBytes (Buffer.Retrieve len b) = Buffer.ReadableBytes b - len
  /\ Buffer.Peek (Buffer.Retrieve len b) = Buffer.Peek b + len
  /\ Buffer.buffer_ (Buffer.Retrieve len b) = Buffer.buffer_ b.
Proof. unfold Buffer.ReadableBytes, Buffer.Peek. cbn. repeat split; lia. Qed.

Lemma ReadableBytes_RetrieveAll (b : Buffer.Buffer) :
  Buffer.ReadableBytes (Buffer.RetrieveAll b) = 0.
Proof. reflexivity. Qed.

Lemma iov0_bytes_readable (c : HttpConn.HttpConn) :
  HttpConn.iov0_describes_buffer c ->
  0 <= HttpConn.iov_len (fst (HttpConn.iov_ c)) ->
  HttpConn.iov0_bytes c = Buffer.readable (HttpConn.writeBuff_ c).
Proof.
  intros [Hlen Hbase] Hnn. unfold HttpConn.iov0_bytes, Buffer.readable.
  rewrite <- Hlen.
  destruct (Z.eq_dec (HttpConn.iov_len (fst (HttpConn.iov_ c))) 0) as [E | E].
  - rewrite E. reflexivity.
  - rewrite Hbase by lia. reflexivity.
Qed.

Lemma ToWriteBytes_small (c : HttpConn.HttpConn) :
  0 <= HttpConn.pending c <= INT_MAX ->
  HttpConn.ToWriteBytes c = HttpConn.pending c.
Proof.
  intros H. unfold HttpConn.ToWriteBytes. fold (HttpConn.pending c).
  unfold INT_MAX in H.
  rewrite wrap_size_small by lia. apply wrap_int_small. lia.
Qed.

(** The accounting of one turn of [write], in [size_t]. In a turn of
    the loop of [write] in which [writev] reports [0 < len <= iov_[0].iov_len +
    iov_[1].iov_len], the body does not leave the loop; the [size_t]
    sum of the two lengths goes down by exactly [len], and so does
    [ToWriteBytes()] when the sum before fits an [int]; [iov_[0]] gives
    up [min(len, iov_[0].iov_len)] octets and [iov_[1]] only what is
    left of [len]; the write buffer retrieves what [iov_[0]] gives up,
    and [iov_[0]] describes the buffer's readable region afterwards as
    it did before. *)
Theorem write_body_accounting :
  forall (len : Z) (c : HttpConn.HttpConn),
    let iov0 := fst (HttpConn.iov_ c) in
    let iov1 := snd (HttpConn.iov_ c) in
    HttpConn.iov0_describes_buffer c ->
    0 <= HttpConn.iov_len iov0 ->
    0 <= HttpConn.iov_len iov1 ->
    HttpConn.pending c < 2 ^ 64 ->
    0 < len <= HttpConn.pending c ->
    let c' := fst (HttpConn.write_body len c) in
    let from0 := Z.min len (HttpConn.iov_len iov0) in
    snd (HttpConn.write_body len c) = false
    /\ HttpConn.pending c' = HttpConn.pending c - len
    /\ (HttpConn.pending c <= INT_MAX ->
        HttpConn.ToWriteBytes c' = HttpConn.ToWriteBytes c - len)
    /\ HttpConn.iov_len (fst (HttpConn.iov_ c'))
       = HttpConn.iov_len iov0 - from0
    /\ HttpConn.iov_len (snd (HttpConn.iov_ c'))
       = HttpConn.iov_len iov1 - (len - from0)
    /\ Buffer.ReadableBytes (HttpConn.writeBuff_ c')
       = Buffer.ReadableBytes (HttpConn.writeBuff_ c) - from0
    /\ HttpConn.iov0_describes_buffer c'
    /\ HttpConn.iov0_bytes c' = Buffer.readable (HttpConn.writeBuff_ c').
Proof.
  intros len c iov0 iov1 Hd H0 H1 Hmax Hlen c' from0.
  assert (Hcore :
    snd (HttpConn.write_body len c) = false
    /\ HttpConn.iov_len (fst (HttpConn.iov_ c'))
       = HttpConn.iov_len iov0 - from0
    /\ HttpConn.iov_len (snd (HttpConn.iov_ c'))
       = HttpConn.iov_len iov1 - (len - from0)
    /\ Buffer.ReadableBytes (HttpConn.writeBuff_ c')
       = Buffer.ReadableBytes (HttpConn.writeBuff_ c) - from0
    /\ HttpConn.iov0_describes_buffer c').
  { subst c' from0. destruct Hd as [Hdl Hdb].
    unfold HttpConn.iov0_describes_buffer, HttpConn.write_body.
    unfold HttpConn.pending in *. fold iov0 iov1 in Hdl, Hdb, Hmax, Hlen |- *.
    rewrite (wrap_size_small (HttpConn.iov_len iov0 + HttpConn.iov_len iov1))
      by lia.
    rewrite (wrap_size_small len) by lia.
    destruct (Z.eqb_spec (HttpConn.iov_len iov0 + HttpConn.iov_len iov1) 0)
      as [? | _]; [lia |].
    destruct (Z.ltb_spec (HttpConn.iov_len iov0) len) as [Hlt | Hge].
    - rewrite (wrap_size_small (len - HttpConn.iov_len iov0)) by lia.
      rewrite (wrap_size_small
                 (HttpConn.iov_len iov1 - (len - HttpConn.iov_len iov0)))
        by lia.
      rewrite (Z.min_r len (HttpConn.iov_len iov0)) by lia.
      destruct (Z.eqb_spec (HttpConn.iov_len iov0) 0) as [E | E]; cbn.
      + rewrite <- Hdl. repeat split; lia.
      + rewrite ReadableBytes_RetrieveAll, <- Hdl. repeat split; lia.
    - rewrite (wrap_size_small (HttpConn.iov_len iov0 - len)) by lia.
      rewrite (Z.min_l len (HttpConn.iov_len iov0)) by lia. cbn.
      destruct (ReadableBytes_Retrieve len (HttpConn.writeBuff_ c))
        as (Hr & Hp & _).
      rewrite Hr, <- Hdl. repeat split; try lia.
      intros _. rewrite Hdb by lia. reflexivity. }
  destruct Hcore as (Hstop & Hl0 & Hl1 & Hrb & Hd').
  assert (Hpend : HttpConn.pending c' = HttpConn.pending c - len).
  { unfold HttpConn.pending. fold iov0 iov1. rewrite Hl0, Hl1. lia. }
  assert (Hfrom : 0 <= from0 <= HttpConn.iov_len iov0)
    by (subst from0; lia).
  repeat split; try assumption.
  - intros Hint. rewrite !ToWriteBytes_small; [exact Hpend | |].
    + unfold HttpConn.pending in *. fold iov0 iov1 in Hint |- *. lia.
    + rewrite Hpend. unfold HttpConn.pending in *.
      fold iov0 iov1 in Hint, Hlen |- *. lia.
  - apply Hd'.
  - apply Hd'.
  - apply iov0_bytes_readable; [exact Hd' | lia].
Qed.

Lemma write_body_accounting_witness :
  let c' := fst (HttpConn.write_body 120 conn_100_50) in
  snd (HttpConn.write_body 120 conn_100_50) = false
  /\ HttpConn.pending c' = HttpConn.pending conn_100_50 - 120
  /\ (HttpConn.pending conn_100_50 <= INT_MAX ->
      HttpConn.ToWriteBytes c' = HttpConn.ToWriteBytes conn_100_50 - 120)
  /\ HttpConn.iov_len (fst (HttpConn.iov_ c')) = 100 - Z.min 120 100
  /\ HttpConn.iov_len (snd (HttpConn.iov_ c')) = 50 - (120 - Z.min 120 100)
  /\ Buffer.ReadableBytes (HttpConn.writeBuff_ c')
     = Buffer.ReadableBytes (HttpConn.writeBuff_ conn_100_50) - Z.min 120 100
  /\ HttpConn.iov0_describes_buffer c'
  /\ HttpConn.iov0_bytes c' = Buffer.readable (HttpConn.writeBuff_ c').
Proof.
  apply (write_body_accounting 120 conn_100_50).
  - split; reflexivity.
  - vm_compute; discriminate.
  - vm_compute; discriminate.
  - reflexivity.
  - split; [reflexivity | vm_compute; discriminate].
Defined.

(** C8 on the code. [ToWriteBytes()] returns the [size_t] sum of the
    two lengths as an [int]. With 2^31 + 5 octets of a mapped file
    pending it is -2147483643, not the number of octets to write; and
    when [writev] reports 10 of them written it goes up to 2147483643
    instead of down by 10. *)
Lemma ToWriteBytes_wraps :
  HttpConn.iov0_describes_buffer conn_big_file
  /\ 0 < 10 <= HttpConn.pending conn_big_file
  /\ HttpConn.ToWriteBytes conn_big_file = -2147483643
  /\ HttpConn.ToWriteBytes (fst (HttpConn.write_body 10 conn_big_file))
     = 2147483643
  /\ HttpConn.ToWriteBytes (fst (HttpConn.write_body 10 conn_big_file))
     <> HttpConn.ToWriteBytes conn_big_file - 10.
Proof.
  split; [split; [reflexivity | intros H; discriminate H] |].
  split; [split; [reflexivity | vm_compute; discriminate] |].
  split; [reflexivity |]. split; [reflexivity |].
  vm_compute. discriminate.
Qed.

(** ** A response the socket takes in pieces *)

Lemma write_body_short (len : Z) (c : HttpConn.HttpConn) :
  0 <= HttpConn.iov_len (fst (HttpConn.iov_ c)) ->
  0 <= HttpConn.iov_len (snd (HttpConn.iov_ c)) ->
  HttpConn.pending c < 2 ^ 63 ->
  0 < len <= HttpConn.pending c ->
  let c' := fst (HttpConn.write_body len c) in
  snd (HttpConn.write_body len c) = false
  /\ HttpConn.pending c' = HttpConn.pending c - len
  /\ 0 <= HttpConn.iov_len (fst (HttpConn.iov_ c'))
  /\ 0 <= HttpConn.iov_len (snd (HttpConn.iov_ c'))
  /\ HttpConn.fd_ c' = HttpConn.fd_ c
  /\ HttpConn.isClose_ c' = HttpConn.isClose_ c
  /\ HttpConn.request_ c' = HttpConn.request_ c.
Proof.
  intros H0 H1 Hmax Hlen. cbn zeta. unfold HttpConn.write_body, HttpConn.pending in *.
  set (l0 := HttpConn.iov_len (fst (HttpConn.iov_ c))) in *.
  set (l1 := HttpConn.iov_len (snd (HttpConn.iov_ c))) in *.
  rewrite (wrap_size_small (l0 + l1)) by lia.
  rewrite (wrap_size_small len) by lia.
  destruct (Z.eqb_spec (l0 + l1) 0) as [? | _]; [lia |].
  destruct (Z.ltb_spec l0 len) as [Hlt | Hge].
  - rewrite (wrap_size_small (len - l0)) by lia.
    rewrite (wrap_size_small (l1 - (len - l0))) by lia.
    destruct (Z.eqb_spec l0 0) as [E | E]; cbn; repeat split; lia.
  - rewrite (wrap_size_small (l0 - len)) by lia. cbn.
    fold l1. repeat split; lia.
Qed.

(** X17. A level-triggered connection whose [writev] takes only a part of
    the response, leaving at most 10240 octets: [write] returns after
    that one call, and [OnWrite_], finding octets left and no error,
    closes the connection; the octets left are never sent. *)
Theorem OnWrite_closes_after_short_write (client len errno : Z)
  (rets : list (Z * Z)) (ws : WebServer.WebServer) (conn : HttpConn.HttpConn) :
  WebServer.users_ ws !! client = Some conn ->
  HttpConn.isClose_ conn = false ->
  HttpConn.isET (WebServer.statics ws) = false ->
  0 <= HttpConn.iov_len (fst (HttpConn.iov_ conn)) ->
  0 <= HttpConn.iov_len (snd (HttpConn.iov_ conn)) ->
  HttpConn.pending conn <= INT_MAX ->
  0 < len < HttpConn.pending conn ->
  HttpConn.pending conn - len <= 10240 ->
  exists ws' conn',
    WebServer.OnWrite_ client ((len, errno) :: rets) ws = Ok ws'
    /\ WebServer.users_ ws' !! client = Some conn'
    /\ HttpConn.isClose_ conn' = true
    /\ HttpConn.pending conn' = HttpConn.pending conn - len
    /\ HttpConn.closed_fds (WebServer.statics ws')
       = HttpConn.closed_fds (WebServer.statics ws) ++ [HttpConn.fd_ conn]
    /\ WebServer.epoller_ ws' !! HttpConn.fd_ conn = None.
Proof.
  intros Hl Hopen HLT H0 H1 Hint Hlen Hrest. unfold INT_MAX in Hint.
  destruct (write_body_short len conn H0 H1 ltac:(lia) ltac:(lia))
    as (Hstop & Hpend & H0' & H1' & Hfd & Hcl & Hreq).
  unfold WebServer.OnWrite_. rewrite Hl, HLT. cbn [HttpConn.write].
  destruct (Z.leb_spec len 0); [lia |].
  destruct (HttpConn.write_body len conn) as [c' stop] eqn:Ebody.
  cbn [fst snd] in *. subst stop. cbn [orb].
  assert (Htw : HttpConn.ToWriteBytes c' = HttpConn.pending conn - len).
  { rewrite ToWriteBytes_small; [exact Hpend |]. unfold INT_MAX. lia. }
  rewrite Htw.
  destruct (Z.ltb_spec 10240 (HttpConn.pending conn - len)); [lia |].
  cbn beta iota zeta. rewrite Htw.
  destruct (Z.eqb_spec (HttpConn.pending conn - len) 0); [lia |].
  rewrite (wrap_int_small len) by lia.
  destruct (Z.ltb_spec len 0); [lia |]. cbn [andb].
  unfold WebServer.CloseConn_, WebServer.set_users.
  cbn [WebServer.users_ WebServer.statics WebServer.epoller_
       WebServer.timeoutMS_ WebServer.connEvent_ WebServer.timer_].
  rewrite lookup_insert_eq.
  unfold HttpConn.Close, HttpConn.set_response, HttpConn.GetFd.
  cbn [HttpConn.isClose_ HttpConn.fd_]. rewrite Hcl, Hopen. cbn [negb].
  eexists _, _. split; [reflexivity |].
  cbn [WebServer.users_ WebServer.statics WebServer.epoller_
       HttpConn.closed_fds].
  rewrite lookup_insert_eq. split; [reflexivity |].
  split; [reflexivity |]. split; [exact Hpend |].
  rewrite Hfd. split; [reflexivity |]. apply lookup_delete_eq.
Qed.

Lemma OnWrite_closes_after_short_write_witness :
  exists ws' conn',
    WebServer.OnWrite_ 5 [(120, 0)] server_sending = Ok ws'
    /\ WebServer.users_ ws' !! 5 = Some conn'
    /\ HttpConn.isClose_ conn' = true
    /\ HttpConn.pending conn' = 30.
Proof.
  destruct (OnWrite_closes_after_short_write 5 120 0 [] server_sending
              conn_100_50)
    as (ws' & conn' & Hrun & Hl & Hc & Hp & _).
  - reflexivity.
  - reflexivity.
  - reflexivity.
  - vm_compute. discriminate.
  - vm_compute. discriminate.
  - vm_compute. discriminate.
  - vm_compute. split; reflexivity.
  - vm_compute. discriminate.
  - exists ws', conn'. split; [exact Hrun |]. split; [exact Hl |].
    split; [exact Hc | exact Hp].
Defined.


Lemma server0_counted : WebServer.counted server0.
Proof. reflexivity. Qed.

Lemma userCount_counts_open_witness :
  exists ws,
    WebServer.run [WebServer.OpAddClient 5 (0, 0); WebServer.OpCloseConn 5;
                   WebServer.OpCloseConn 5; WebServer.OpAddClient 5 (0, 0)]
      server0 = Ok ws
    /\ WebServer.counted ws.
Proof.
  eexists. split; [vm_compute; reflexivity |].
  refine (userCount_counts_open
            [WebServer.OpAddClient 5 (0, 0); WebServer.OpCloseConn 5;
             WebServer.OpCloseConn 5; WebServer.OpAddClient 5 (0, 0)]
            server0 _ server0_counted _ _ _).
  - vm_compute. reflexivity.
  - split; [reflexivity |]. intros w1 H1. vm_compute in H1. injection H1 as <-.
    split; [exact I |]. intros w2 H2. vm_compute in H2. injection H2 as <-.
    split; [exact I |]. intros w3 H3. vm_compute in H3. injection H3 as <-.
    split; [reflexivity |]. intros w4 _. exact I.
  - vm_compute. reflexivity.
Defined.

(** ** The content type and the content of a response *)

Lemma bytes_app (s1 s2 : string) : bytes (s1 ++ s2) = bytes s1 ++ bytes s2.
Proof.
  unfold bytes. induction s1 as [| c s1 IH]; [reflexivity |].
  change (list_ascii_of_string (String c (s1 ++ s2))
          = c :: (list_ascii_of_string s1 ++ list_ascii_of_string s2)).
  cbn [list_ascii_of_string]. f_equal. exact IH.
Qed.

Lemma str_bytes (s : string) : str (bytes s) = s.
Proof. apply string_of_list_ascii_of_string. Qed.

Lemma find_last_of_app (c : ascii) (l1 l2 : list ascii) :
  HttpResponse.find_last_of c (l1 ++ l2)
  = match HttpResponse.find_last_of c l2 with
    | Some i => Some (length l1 + i)%nat
    | None => HttpResponse.find_last_of c l1
    end.
Proof.
  induction l1 as [| x l1 IH]; cbn [app HttpResponse.find_last_of length].
  - destruct (HttpResponse.find_last_of c l2); reflexivity.
  - rewrite IH. destruct (HttpResponse.find_last_of c l2); reflexivity.
Qed.

(** X19. [GetFileType_] goes by what follows the last dot of the path: a
    path that ends in one of the suffixes of [SUFFIX_TYPE] gets the type
    the table gives for it, whatever comes before, dots included. *)
Theorem GetFileType_by_suffix (r : HttpResponse.HttpResponse)
  (base suf ty : string) :
  In (suf, ty) HttpResponse.SUFFIX_TYPE ->
  HttpResponse.path_ r = (base ++ suf)%string ->
  HttpResponse.GetFileType_ r = ty.
Proof.
  intros Hin Hpath.
  assert (Hs : HttpResponse.find_last_of "." (bytes suf) = Some 0%nat
               /\ HttpResponse.assoc String.eqb suf HttpResponse.SUFFIX_TYPE
                  = Some ty).
  { unfold HttpResponse.SUFFIX_TYPE in Hin. cbn [In] in Hin.
    repeat (destruct Hin as [Hin | Hin];
            [injection Hin as <- <-; split; reflexivity |]).
    destruct Hin. }
  destruct Hs as [Hdot Hty].
  unfold HttpResponse.GetFileType_.
  rewrite Hpath, bytes_app, find_last_of_app, Hdot, Nat.add_0_r.
  rewrite drop_app_length, str_bytes, Hty. reflexivity.
Qed.

Lemma GetFileType_by_suffix_witness :
  HttpResponse.GetFileType_
    {| HttpResponse.code_ := 200; HttpResponse.isKeepAlive_ := false;
       HttpResponse.path_ := "/backup.2024/site.tar.gz";
       HttpResponse.srcDir_ := "/srv/resources";
       HttpResponse.mmFile_ := None;
       HttpResponse.mmFileStat_ := HttpResponse.mkStat 33188 0 |}
  = "application/x-gzip"%string.
Proof.
  apply (GetFileType_by_suffix _ "/backup.2024/site.tar" ".gz").
  - unfold HttpResponse.SUFFIX_TYPE. cbn [In]. do 15 right. left. reflexivity.
  - reflexivity.
Defined.

Section AddContentFacts.

Variable fs : HttpResponse.FileSys.

Lemma nat_of_ascii_bound (a : ascii) : (nat_of_ascii a < 256)%nat.
Proof. apply nat_ascii_bounded. Qed.

Lemma deref_int_ones (m : list ascii) :
  exists v,
    HttpResponse.deref_int (Some m) = Ok v
    /\ (v =? -1) = HttpResponse.starts_with_ones m.
Proof.
  unfold HttpResponse.deref_int, HttpResponse.starts_with_ones.
  eexists. split; [reflexivity |]. cbn [forallb].
  pose proof (nat_of_ascii_bound (nth 0 m zero)) as B0.
  pose proof (nat_of_ascii_bound (nth 1 m zero)) as B1.
  pose proof (nat_of_ascii_bound (nth 2 m zero)) as B2.
  pose proof (nat_of_ascii_bound (nth 3 m zero)) as B3.
  set (b0 := nat_of_ascii (nth 0 m zero)) in *.
  set (b1 := nat_of_ascii (nth 1 m zero)) in *.
  set (b2 := nat_of_ascii (nth 2 m zero)) in *.
  set (b3 := nat_of_ascii (nth 3 m zero)) in *.
  set (x := Z.of_nat b0 + 2 ^ 8 * Z.of_nat b1 + 2 ^ 16 * Z.of_nat b2
            + 2 ^ 24 * Z.of_nat b3).
  assert (Hx : 0 <= x < 2 ^ 32) by (unfold x; lia).
  assert (Hw : wrap_int x = if x <? 2 ^ 31 then x else x - 2 ^ 32).
  { unfold wrap_int. destruct (Z.ltb_spec x (2 ^ 31)).
    - rewrite Z.mod_small; lia.
    - replace (x + 2 ^ 31) with (x - 2 ^ 31 + 1 * 2 ^ 32) by lia.
      rewrite Z.mod_add by lia. rewrite Z.mod_small; lia. }
  rewrite Hw.
  destruct (Nat.eqb_spec b0 255), (Nat.eqb_spec b1 255),
    (Nat.eqb_spec b2 255), (Nat.eqb_spec b3 255); cbn [andb];
    destruct (Z.ltb_spec x (2 ^ 31)); apply Z.eqb_neq || apply Z.eqb_eq;
    unfold x in *; lia.
Qed.

(** X20. When the file opens and maps, [AddContent_] decides by the first
    four octets of the file: if they are all [0xFF] (the [int] read
    through the mapping is -1) it writes the "File NotFound!" body and
    leaves [mmFile_] null; otherwise the mapping becomes the file of the
    response and the header gives its size. *)
Theorem AddContent_reads_file_head (r : HttpResponse.HttpResponse)
  (buff : Buffer.Buffer) (srcFd : Z) (m : list ascii) :
  HttpResponse.sys_open fs (HttpResponse.srcDir_ r ++ HttpResponse.path_ r)
  = Some srcFd ->
  HttpResponse.sys_mmap fs srcFd
    (HttpResponse.st_size (HttpResponse.mmFileStat_ r)) = Some m ->
  HttpResponse.AddContent_ fs (r, buff)
  = Ok (if HttpResponse.starts_with_ones m
        then (r, HttpResponse.ErrorContent r buff "File NotFound!")
        else ({| HttpResponse.code_ := HttpResponse.code_ r;
                 HttpResponse.isKeepAlive_ := HttpResponse.isKeepAlive_ r;
                 HttpResponse.path_ := HttpResponse.path_ r;
                 HttpResponse.srcDir_ := HttpResponse.srcDir_ r;
                 HttpResponse.mmFile_ := Some m;
                 HttpResponse.mmFileStat_ := HttpResponse.mmFileStat_ r |},
              Buffer.AppendStr
                ("Content-length: "
                 ++ to_string (HttpResponse.st_size
                                 (HttpResponse.mmFileStat_ r))
                 ++ CRLF ++ CRLF) buff)).
Proof.
  intros Hopen Hmap. unfold HttpResponse.AddContent_. rewrite Hopen, Hmap.
  destruct (deref_int_ones m) as (v & -> & Hv). cbn [bind]. rewrite Hv.
  destruct (HttpResponse.starts_with_ones m); reflexivity.
Qed.

End AddContentFacts.

Lemma AddContent_reads_file_head_witness :
  HttpResponse.AddContent_ all_ones_files
    (empty_file_response, Buffer.new_buffer)
  = Ok (empty_file_response,
        HttpResponse.ErrorContent empty_file_response Buffer.new_buffer
          "File NotFound!").
Proof.
  apply (AddContent_reads_file_head all_ones_files empty_file_response
           Buffer.new_buffer 3 (repeat (ascii_of_nat 255) 4)).
  - reflexivity.
  - reflexivity.
Defined.

(** ** What [process] leaves for [write] *)

Section ProcessFacts.

Variable DEFAULT_HTML : list string.
Variable UserVerify : string -> string -> bool -> bool.
Variable fs : HttpResponse.FileSys.

(** X21. [process] returns false exactly when the read buffer holds nothing.
    When it returns true, [iov_[0]] describes the readable region of the
    write buffer; [iov_[1]] is set, to the whole mapped file, only when a
    file of positive length is mapped, and is otherwise left as the
    previous response left it, with [iovCnt_] 1. *)
Theorem process_arms_iovec (s : HttpConn.Statics) (c c' : HttpConn.HttpConn)
  (b : bool) :
  HttpConn.process DEFAULT_HTML UserVerify fs s c = Ok (b, c') ->
  b = negb (Buffer.ReadableBytes (HttpConn.readBuff_ c) <=? 0)
  /\ (b = true ->
      HttpConn.iov0_describes_buffer c'
      /\ (HttpConn.iovCnt_ c' = 2
          /\ snd (HttpConn.iov_ c')
             = HttpConn.mkIovec 0
                 (HttpResponse.FileLen (HttpConn.response_ c'))
          /\ 0 < HttpResponse.FileLen (HttpConn.response_ c')
          /\ is_Some (HttpResponse.File (HttpConn.response_ c'))
          \/ HttpConn.iovCnt_ c' = 1
             /\ snd (HttpConn.iov_ c') = snd (HttpConn.iov_ c)
             /\ (HttpResponse.FileLen (HttpConn.response_ c') <= 0
                 \/ HttpResponse.File (HttpConn.response_ c') = None))).
Proof.
  unfold HttpConn.process, HttpConn.set_request. cbn zeta.
  cbn [HttpConn.readBuff_ HttpConn.request_ HttpConn.response_
       HttpConn.writeBuff_ HttpConn.iov_ HttpConn.fd_ HttpConn.addr_
       HttpConn.isClose_].
  destruct (Buffer.ReadableBytes (HttpConn.readBuff_ c) <=? 0).
  { intros [= <- <-]. split; [reflexivity | discriminate]. }
  destruct (HttpRequest.parse _ _ _ _) as [[ok req] rbuf].
  intros H. apply bind_Ok in H as (resp & _ & H).
  apply bind_Ok in H as ([resp' wbuf] & _ & H). cbn [fst snd] in H.
  injection H as <- <-. split; [reflexivity |]. intros _.
  cbn [HttpConn.iov_ HttpConn.iovCnt_ HttpConn.response_ HttpConn.writeBuff_
       fst snd].
  split; [split; [reflexivity | intros _; reflexivity] |].
  destruct (Z.ltb_spec 0 (HttpResponse.FileLen resp')) as [Hpos | Hnon];
    cbn [andb].
  - destruct (HttpResponse.File resp') as [m |] eqn:Ef.
    + left. repeat split; eauto.
    + right. repeat split; auto.
  - right. repeat split; auto.
Qed.

End ProcessFacts.

Lemma process_arms_iovec_witness :
  exists c',
    HttpConn.process default_html nobody small_files statics0 conn_after_read1
    = Ok (true, c')
    /\ HttpConn.iov0_describes_buffer c'.
Proof.
  eexists. split; [vm_compute; reflexivity |].
  refine (proj1 (proj2 (process_arms_iovec default_html nobody small_files
                          statics0 conn_after_read1 _ true _) eq_refl)).
  vm_compute. reflexivity.
Defined.

(** ** The end of the logger *)

Lemma pop_woken_closed_empty (n : nat) (cl : bool) (cap : Z) :
  BlockQueue.pop_woken n
    (BlockQueue.mkBlockQueue (@nil string) cl cap)
  = (BlockQueue.mkBlockQueue [] cl cap, BlockQueue.Blocked).
Proof. induction n as [| n IH]; [reflexivity |]. cbn. exact IH. Qed.

(** X22. [Log::~Log()] does not come back. A logger initialised without a
    queue ([maxQueCapacity] 0) has [deque_] null, and the destructor
    calls [deque_->empty()] through it. A logger with a queue (made with
    capacity 1000, whatever [maxQueCapacity] asked for) closes the queue
    and joins the writer thread, which, woken, finds the queue empty and
    waits again in [pop], however often it is woken. *)
Theorem Log_destructor_never_completes (level maxQueCapacity mday : Z)
  (fopen1 fopen2 : option Z) (l : Log.Log) (wakeups : nat) :
  Log.init level maxQueCapacity mday fopen1 fopen2 Log.new_log = Ok l ->
  Log.destroy wakeups l
  = (if maxQueCapacity =? 0 then Log.Faults (InvalidAddress 0) else Log.Hangs)
  /\ (maxQueCapacity <> 0 ->
      BlockQueue.capacity_ <$> Log.deque_ l = Some 1000).
Proof.
  unfold Log.init, Log.new_log. cbn [Log.deque_ Log.writeThread_].
  destruct (Z.eqb_spec maxQueCapacity 0) as [-> | Hne]; cbn [negb].
  - destruct fopen1 as [f |]; [| destruct fopen2 as [f |]];
      intros [= <-]; try (split; [reflexivity | intros H; now destruct H]).
  - destruct fopen1 as [f |]; [| destruct fopen2 as [f |]];
      intros [= <-]; unfold Log.destroy, BlockQueue.Close, BlockQueue.clear;
      cbn; rewrite ?pop_woken_closed_empty; split; reflexivity.
Qed.

Lemma Log_destructor_never_completes_witness :
  Log.destroy 3
    {| Log.fp_ := Some 4; Log.deque_ := None; Log.writeThread_ := false;
       Log.lineCount_ := 0; Log.toDay_ := 2; Log.isAsync_ := false;
       Log.isOpen_ := true; Log.level_ := 0 |}
  = Log.Faults (InvalidAddress 0).
Proof.
  refine (proj1 (Log_destructor_never_completes 0 0 2 (Some 4) None _ 3 _)).
  reflexivity.
Defined.

(** ** The loop of [write] *)

Lemma write_body_describes (len : Z) (c : HttpConn.HttpConn) :
  HttpConn.iov0_describes_buffer c ->
  0 <= HttpConn.iov_len (fst (HttpConn.iov_ c)) ->
  0 <= HttpConn.iov_len (snd (HttpConn.iov_ c)) ->
  HttpConn.pending c < 2 ^ 63 ->
  0 < len <= HttpConn.pending c ->
  HttpConn.iov0_describes_buffer (fst (HttpConn.write_body len c)).
Proof.
  intros [Hdl Hdb] H0 H1 Hmax Hlen.
  unfold HttpConn.iov0_describes_buffer, HttpConn.write_body,
    HttpConn.pending in *.
  set (l0 := HttpConn.iov_len (fst (HttpConn.iov_ c))) in *.
  set (l1 := HttpConn.iov_len (snd (HttpConn.iov_ c))) in *.
  rewrite (wrap_size_small (l0 + l1)) by lia.
  rewrite (wrap_size_small len) by lia.
  destruct (Z.eqb_spec (l0 + l1) 0) as [? | _]; [lia |].
  destruct (Z.ltb_spec l0 len) as [Hlt | Hge].
  - destruct (Z.eqb_spec l0 0) as [E | E]; cbn.
    + fold l0. rewrite <- Hdl. split; lia.
    + rewrite ReadableBytes_RetrieveAll. split; lia.
  - rewrite (wrap_size_small (l0 - len)) by lia. cbn.
    destruct (ReadableBytes_Retrieve len (HttpConn.writeBuff_ c))
      as (Hr & Hp & _).
    rewrite Hr, <- Hdl. split; [lia |].
    intros _. rewrite Hdb by lia. reflexivity.
Qed.

Lemma write_ET_drains_loop (rets : list (Z * Z)) :
  forall (saveErrno : Z) (c : HttpConn.HttpConn),
    HttpConn.iov0_describes_buffer c ->
    0 <= HttpConn.iov_len (fst (HttpConn.iov_ c)) ->
    0 <= HttpConn.iov_len (snd (HttpConn.iov_ c)) ->
    HttpConn.pending c < 2 ^ 63 ->
    Forall (fun r => 0 < fst r) rets ->
    HttpConn.reported rets <= HttpConn.pending c ->
    exists c',
      HttpConn.write true rets saveErrno c = (-1, HttpConn.EAGAIN, c')
      /\ HttpConn.pending c' = HttpConn.pending c - HttpConn.reported rets
      /\ HttpConn.iov0_describes_buffer c'
      /\ HttpConn.fd_ c' = HttpConn.fd_ c
      /\ HttpConn.isClose_ c' = HttpConn.isClose_ c
      /\ HttpConn.request_ c' = HttpConn.request_ c.
Proof.
  induction rets as [| [len errno] rets IH];
    intros saveErrno c Hd H0 H1 Hmax Hpos Hsum.
  - exists c. cbn. split; [reflexivity |]. split; [lia | auto].
  - inversion Hpos as [| r rs Hlen Hrest]; subst. cbn [fst] in Hlen.
    cbn [HttpConn.reported foldr fst] in Hsum. fold (HttpConn.reported rets) in Hsum.
    assert (Hnn : 0 <= HttpConn.reported rets).
    { clear -Hrest. induction Hrest as [| r rs Hr _ IHr]; cbn; [lia |].
      fold (HttpConn.reported rs). lia. }
    destruct (write_body_short len c H0 H1 Hmax ltac:(lia))
      as (Hstop & Hpend & H0' & H1' & Hfd & Hcl & Hreq).
    pose proof (write_body_describes len c Hd H0 H1 Hmax ltac:(lia)) as Hd'.
    cbn [HttpConn.write]. destruct (Z.leb_spec len 0); [lia |].
    destruct (HttpConn.write_body len c) as [c1 stop]. cbn [fst snd] in *.
    subst stop. cbn [orb].
    destruct (IH saveErrno c1 Hd' H0' H1' ltac:(lia) Hrest ltac:(lia))
      as (c' & Hrun & Hp' & Hd'' & Hfd' & Hcl' & Hreq').
    exists c'. split; [exact Hrun |].
    cbn [HttpConn.reported foldr fst]. fold (HttpConn.reported rets).
    split; [lia |]. split; [exact Hd'' |]. repeat split; congruence.
Qed.

(** X18. An edge-triggered connection: [write] calls [writev] until the
    socket takes no more. [OnWrite_] then arms the descriptor for
    writing again when octets are left, keeping the connection open with
    exactly the octets not yet reported written; with nothing left it
    arms it for reading when the request asked to keep the connection
    alive, and closes it otherwise. *)
Theorem OnWrite_edge_triggered (client : Z) (rets : list (Z * Z))
  (ws : WebServer.WebServer) (conn : HttpConn.HttpConn) :
  WebServer.users_ ws !! client = Some conn ->
  HttpConn.isET (WebServer.statics ws) = true ->
  HttpConn.iov0_describes_buffer conn ->
  0 <= HttpConn.iov_len (fst (HttpConn.iov_ conn)) ->
  0 <= HttpConn.iov_len (snd (HttpConn.iov_ conn)) ->
  HttpConn.pending conn <= INT_MAX ->
  Forall (fun r => 0 < fst r) rets ->
  HttpConn.reported rets <= HttpConn.pending conn ->
  exists conn',
    HttpConn.pending conn' = HttpConn.pending conn - HttpConn.reported rets
    /\ HttpConn.iov0_describes_buffer conn'
    /\ HttpConn.isClose_ conn' = HttpConn.isClose_ conn
    /\ let ws1 := WebServer.set_users (<[client := conn']> (WebServer.users_ ws))
                    (WebServer.statics ws) ws in
       WebServer.OnWrite_ client rets ws
       = if HttpConn.reported rets <? HttpConn.pending conn
         then Ok (WebServer.ModFd (HttpConn.fd_ conn)
                    (Z.lor (WebServer.connEvent_ ws) WebServer.EPOLLOUT) ws1)
         else if HttpConn.IsKeepAlive conn
              then Ok (WebServer.ModFd (HttpConn.fd_ conn)
                         (Z.lor (WebServer.connEvent_ ws) WebServer.EPOLLIN)
                         ws1)
              else WebServer.CloseConn_ client ws1.
Proof.
  intros Hl HET Hd H0 H1 Hint Hpos Hsum. unfold INT_MAX in Hint.
  destruct (write_ET_drains_loop rets 0 conn Hd H0 H1 ltac:(lia) Hpos Hsum)
    as (conn' & Hrun & Hp & Hd' & Hfd & Hcl & Hreq).
  assert (Hnn : 0 <= HttpConn.reported rets).
  { clear -Hpos. induction Hpos as [| r rs Hr _ IHr]; cbn; [lia |].
    fold (HttpConn.reported rs). lia. }
  exists conn'. split; [exact Hp |]. split; [exact Hd' |].
  split; [exact Hcl |]. cbn zeta.
  unfold WebServer.OnWrite_. rewrite Hl, HET, Hrun.
  assert (Htw : HttpConn.ToWriteBytes conn'
                = HttpConn.pending conn - HttpConn.reported rets).
  { rewrite ToWriteBytes_small; [exact Hp |]. unfold INT_MAX. lia. }
  rewrite Htw. unfold HttpConn.GetFd, HttpConn.IsKeepAlive.
  rewrite Hfd, Hreq.
  destruct (Z.ltb_spec (HttpConn.reported rets) (HttpConn.pending conn)).
  - destruct (Z.eqb_spec (HttpConn.pending conn - HttpConn.reported rets) 0);
      [lia |].
    reflexivity.
  - destruct (Z.eqb_spec (HttpConn.pending conn - HttpConn.reported rets) 0);
      [| lia].
    reflexivity.
Qed.

Lemma server_sending_ET_describes :
  HttpConn.iov0_describes_buffer conn_100_50.
Proof. split; reflexivity. Qed.

Lemma OnWrite_edge_triggered_witness :
  exists conn',
    HttpConn.pending conn' = 30
    /\ WebServer.OnWrite_ 5 [(100, 0); (20, 0)]
         (WebServer.set_statics (HttpConn.mkStatics true "/srv/resources/" 1 [])
            server_sending)
       = Ok (WebServer.ModFd 5 WebServer.EPOLLOUT
               (WebServer.set_users {[ 5 := conn' ]}
                  (HttpConn.mkStatics true "/srv/resources/" 1 [])
                  server_sending)).
Proof.
  destruct (OnWrite_edge_triggered 5 [(100, 0); (20, 0)]
              (WebServer.set_statics
                 (HttpConn.mkStatics true "/srv/resources/" 1 [])
                 server_sending) conn_100_50)
    as (conn' & Hp & _ & _ & Hrun).
  - reflexivity.
  - reflexivity.
  - exact server_sending_ET_describes.
  - vm_compute. discriminate.
  - vm_compute. discriminate.
  - vm_compute. discriminate.
  - repeat constructor.
  - vm_compute. discriminate.
  - exists conn'. split; [exact Hp |]. cbn zeta in Hrun. rewrite Hrun.
    change (HttpConn.reported [(100, 0); (20, 0)] <? HttpConn.pending conn_100_50)
      with true. cbn iota.
    unfold WebServer.set_users, WebServer.set_statics, server_sending. cbn.
    rewrite insert_singleton_eq. reflexivity.
Defined.

(** ** The request parser *)

Lemma read_line_split (buf line rest : list ascii) :
  read_line buf = Some (line, rest) -> buf = line ++ CR :: LF :: rest.
Proof.
  revert line rest. induction buf as [| c tl IH]; intros line rest H.
  - discriminate H.
  - cbn in H. destruct tl as [| d tl']; [discriminate H |].
    destruct (Ascii.eqb_spec c CR) as [-> | Hc];
      [destruct (Ascii.eqb_spec d LF) as [-> | Hd] |]; cbn [andb] in H.
    + inversion H; subst. reflexivity.
    + destruct (read_line (d :: tl')) as [[l r] |]; [| discriminate H].
      inversion H; subst. cbn. f_equal. now apply IH.
    + destruct (read_line (d :: tl')) as [[l r] |]; [| discriminate H].
      inversion H; subst. cbn. f_equal. now apply IH.
Qed.

Lemma read_line_cons (c d : ascii) (tl : list ascii) :
  read_line (c :: d :: tl)
  = if Ascii.eqb c CR && Ascii.eqb d LF then Some ([], tl)
    else match read_line (d :: tl) with
         | Some (l, r) => Some (c :: l, r)
         | None => None
         end.
Proof. reflexivity. Qed.

Lemma read_line_app (buf more line rest : list ascii) :
  read_line buf = Some (line, rest) ->
  read_line (buf ++ more) = Some (line, rest ++ more).
Proof.
  revert line rest. induction buf as [| c tl IH]; intros line rest H.
  - discriminate H.
  - destruct tl as [| d tl']; [discriminate H |].
    rewrite read_line_cons in H.
    change ((c :: d :: tl') ++ more) with (c :: d :: (tl' ++ more)).
    rewrite read_line_cons.
    destruct (Ascii.eqb c CR && Ascii.eqb d LF).
    + inversion H; subst. reflexivity.
    + destruct (read_line (d :: tl')) as [[l r] |] eqn:E; [| discriminate H].
      inversion H; subst.
      change (d :: tl' ++ more) with ((d :: tl') ++ more).
      now rewrite (IH l rest eq_refl).
Qed.

Section ParserFacts.

Variable DEFAULT_HTML : list string.
Variable UserVerify : string -> string -> bool -> bool.

Abbreviation parse_loop := (HttpRequest.parse_loop DEFAULT_HTML UserVerify).
Abbreviation parse_bytes := (HttpRequest.parse_bytes DEFAULT_HTML UserVerify).
Abbreviation ParsePath_ := (HttpRequest.ParsePath_ DEFAULT_HTML).
Abbreviation ParseBody_ := (HttpRequest.ParseBody_ UserVerify).

Implicit Type r : HttpRequest.HttpRequest.
Implicit Type buf : list ascii.

Lemma turns_needed_bound r buf : (HttpRequest.turns_needed r buf <= length buf + 2)%nat.
Proof. unfold HttpRequest.turns_needed. destruct (HttpRequest.state_ r); lia. Qed.

Lemma ParseBody_state (data : list ascii) r :
  HttpRequest.state_ (ParseBody_ data r) = HttpRequest.FINISH.
Proof. reflexivity. Qed.

Lemma parse_loop_S (f : nat) r buf :
  parse_loop (S f) r buf
  = match HttpRequest.state_ r with
    | HttpRequest.FINISH => (HttpRequest.Finished, r, buf)
    | HttpRequest.REQUEST_LINE =>
        match read_line buf with
        | None => (HttpRequest.NeedMore, r, buf)
        | Some (line, rest) =>
            match HttpRequest.ParseRequestLine_ line r with
            | None => (HttpRequest.BadRequest, r, rest)
            | Some r' => parse_loop f (ParsePath_ r') rest
            end
        end
    | HttpRequest.HEADERS =>
        match read_line buf with
        | None => (HttpRequest.NeedMore, r, buf)
        | Some (line, rest) =>
            match HttpRequest.ParseHeader_ line r with
            | None => (HttpRequest.BadRequest, r, rest)
            | Some r' => parse_loop f r' rest
            end
        end
    | HttpRequest.BODY =>
        let n := Z.to_nat (HttpRequest.content_length r) in
        if (length buf <? n)%nat then (HttpRequest.NeedMore, r, buf)
        else parse_loop f (ParseBody_ (take n buf) r) (drop n buf)
    end.
Proof. destruct (HttpRequest.state_ r) eqn:E; cbn [HttpRequest.parse_loop]; rewrite E; reflexivity. Qed.

Lemma parse_loop_fuel (f1 f2 : nat) r buf :
  (HttpRequest.turns_needed r buf <= f1)%nat -> (HttpRequest.turns_needed r buf <= f2)%nat ->
  parse_loop f1 r buf = parse_loop f2 r buf.
Proof.
  revert f2 r buf. induction f1 as [| f1 IH]; intros f2 r buf H1 H2.
  { unfold HttpRequest.turns_needed in H1. destruct (HttpRequest.state_ r); lia. }
  destruct f2 as [| f2].
  { unfold HttpRequest.turns_needed in H2. destruct (HttpRequest.state_ r); lia. }
  rewrite !parse_loop_S. unfold HttpRequest.turns_needed in H1, H2.
  destruct (HttpRequest.state_ r) eqn:Es.
  - destruct (read_line buf) as [[line rest] |] eqn:El; [| reflexivity].
    destruct (HttpRequest.ParseRequestLine_ line r) as [r' |]; [| reflexivity].
    apply read_line_split in El. subst buf. rewrite length_app in H1, H2.
    cbn [length] in H1, H2.
    apply IH; (etransitivity; [apply turns_needed_bound | lia]).
  - destruct (read_line buf) as [[line rest] |] eqn:El; [| reflexivity].
    destruct (HttpRequest.ParseHeader_ line r) as [r' |]; [| reflexivity].
    apply read_line_split in El. subst buf. rewrite length_app in H1, H2.
    cbn [length] in H1, H2.
    apply IH; (etransitivity; [apply turns_needed_bound | lia]).
  - cbn zeta. destruct (Nat.ltb _ _); [reflexivity |].
    apply IH; unfold HttpRequest.turns_needed; rewrite ParseBody_state; lia.
  - reflexivity.
Qed.

(** One turn of the loop of [parse]. *)
Lemma parse_bytes_unfold r buf :
  parse_bytes r buf
  = match HttpRequest.state_ r with
    | HttpRequest.FINISH => (HttpRequest.Finished, r, buf)
    | HttpRequest.REQUEST_LINE =>
        match read_line buf with
        | None => (HttpRequest.NeedMore, r, buf)
        | Some (line, rest) =>
            match HttpRequest.ParseRequestLine_ line r with
            | None => (HttpRequest.BadRequest, r, rest)
            | Some r' => parse_bytes (ParsePath_ r') rest
            end
        end
    | HttpRequest.HEADERS =>
        match read_line buf with
        | None => (HttpRequest.NeedMore, r, buf)
        | Some (line, rest) =>
            match HttpRequest.ParseHeader_ line r with
            | None => (HttpRequest.BadRequest, r, rest)
            | Some r' => parse_bytes r' rest
            end
        end
    | HttpRequest.BODY =>
        let n := Z.to_nat (HttpRequest.content_length r) in
        if (length buf <? n)%nat then (HttpRequest.NeedMore, r, buf)
        else (HttpRequest.Finished, ParseBody_ (take n buf) r, drop n buf)
    end.
Proof.
  unfold HttpRequest.parse_bytes at 1. rewrite parse_loop_S.
  destruct (HttpRequest.state_ r) eqn:Es.
  - destruct (read_line buf) as [[line rest] |] eqn:El; [| reflexivity].
    destruct (HttpRequest.ParseRequestLine_ line r) as [r' |]; [| reflexivity].
    apply read_line_split in El. subst buf.
    apply parse_loop_fuel;
      (etransitivity; [apply turns_needed_bound | rewrite ?length_app; cbn; lia]).
  - destruct (read_line buf) as [[line rest] |] eqn:El; [| reflexivity].
    destruct (HttpRequest.ParseHeader_ line r) as [r' |]; [| reflexivity].
    apply read_line_split in El. subst buf.
    apply parse_loop_fuel;
      (etransitivity; [apply turns_needed_bound | rewrite ?length_app; cbn; lia]).
  - cbn zeta. destruct (Nat.ltb _ _); [reflexivity |].
    rewrite parse_loop_S, ParseBody_state. reflexivity.
  - reflexivity.
Qed.

(** What a call leaves in the buffer is the end of what it found. *)
Lemma parse_bytes_suffix r buf (o : HttpRequest.Outcome) r' (rest : list ascii) :
  parse_bytes r buf = (o, r', rest) -> exists pre, buf = pre ++ rest.
Proof.
  remember (length buf) as n eqn:Hn. revert r buf Hn.
  induction n as [n IH] using lt_wf_ind. intros r buf Hn.
  rewrite parse_bytes_unfold.
  destruct (HttpRequest.state_ r).
  - destruct (read_line buf) as [[line rest0] |] eqn:El.
    + apply read_line_split in El.
      destruct (HttpRequest.ParseRequestLine_ line r) as [r0 |].
      * intros H. eapply (IH (length rest0)) in H; [| | reflexivity].
        -- destruct H as [pre ->]. exists (line ++ CR :: LF :: pre).
           rewrite El, <- app_assoc. reflexivity.
        -- subst. rewrite length_app. cbn. lia.
      * intros H; inversion H; subst. exists (line ++ [CR; LF]).
        now rewrite <- app_assoc.
    + intros H; inversion H; subst. now exists [].
  - destruct (read_line buf) as [[line rest0] |] eqn:El.
    + apply read_line_split in El.
      destruct (HttpRequest.ParseHeader_ line r) as [r0 |].
      * intros H. eapply (IH (length rest0)) in H; [| | reflexivity].
        -- destruct H as [pre ->]. exists (line ++ CR :: LF :: pre).
           rewrite El, <- app_assoc. reflexivity.
        -- subst. rewrite length_app. cbn. lia.
      * intros H; inversion H; subst. exists (line ++ [CR; LF]).
        now rewrite <- app_assoc.
    + intros H; inversion H; subst. now exists [].
  - cbn zeta. destruct (Nat.ltb _ _); intros H; inversion H; subst.
    + now exists [].
    + eexists. symmetry. apply take_drop.
  - intros H; inversion H; subst. now exists [].
Qed.

(** Re-entrancy of the parser on its own state: a call that stopped for
    want of bytes is continued, from the state and the bytes it left, by
    the call on the longer buffer; any other stop is the stop of the call
    on the longer buffer too. *)
Lemma parse_bytes_app r buf (more : list ascii) (o : HttpRequest.Outcome) r'
  (rest : list ascii) :
  parse_bytes r buf = (o, r', rest) ->
  match o with
  | HttpRequest.NeedMore =>
      parse_bytes r (buf ++ more) = parse_bytes r' (rest ++ more)
  | _ => parse_bytes r (buf ++ more) = (o, r', rest ++ more)
  end.
Proof.
  remember (length buf) as n eqn:Hn. revert r buf Hn.
  induction n as [n IH] using lt_wf_ind. intros r buf Hn.
  rewrite (parse_bytes_unfold r buf), (parse_bytes_unfold r (buf ++ more)).
  destruct (HttpRequest.state_ r) eqn:Es.
  - destruct (read_line buf) as [[line rest0] |] eqn:El.
    + rewrite (read_line_app _ more _ _ El). apply read_line_split in El.
      destruct (HttpRequest.ParseRequestLine_ line r) as [r0 |].
      * apply (IH (length rest0)); [| reflexivity].
        subst. rewrite length_app. cbn. lia.
      * intros H; inversion H; subst. reflexivity.
    + intros H; inversion H; subst.
      rewrite (parse_bytes_unfold r' (rest ++ more)), Es. reflexivity.
  - destruct (read_line buf) as [[line rest0] |] eqn:El.
    + rewrite (read_line_app _ more _ _ El). apply read_line_split in El.
      destruct (HttpRequest.ParseHeader_ line r) as [r0 |].
      * apply (IH (length rest0)); [| reflexivity].
        subst. rewrite length_app. cbn. lia.
      * intros H; inversion H; subst. reflexivity.
    + intros H; inversion H; subst.
      rewrite (parse_bytes_unfold r' (rest ++ more)), Es. reflexivity.
  - cbn zeta.
    destruct (Nat.ltb_spec (length buf) (Z.to_nat (HttpRequest.content_length r)))
      as [Hlt | Hge]; intros H; inversion H; subst.
    + rewrite (parse_bytes_unfold r' (rest ++ more)), Es. reflexivity.
    + destruct (Nat.ltb_spec (length (buf ++ more))
                  (Z.to_nat (HttpRequest.content_length r))) as [Hlt' | _].
      { rewrite length_app in Hlt'. lia. }
      rewrite take_app_le, drop_app_le by lia. reflexivity.
  - intros H; inversion H; subst. reflexivity.
Qed.

End ParserFacts.

(** ** The byte buffer *)

Lemma slice_app_data {A : Type} (l data : list A) (rp wp : nat) :
  (rp <= wp <= length l)%nat ->
  take (wp + length data - rp)
    (drop rp (take wp l ++ data ++ drop (wp + length data) l))
  = take (wp - rp) (drop rp l) ++ data.
Proof.
  intros H.
  rewrite drop_app_le by (rewrite length_take; lia).
  rewrite skipn_firstn_comm.
  replace (wp + length data - rp)%nat with ((wp - rp) + length data)%nat by lia.
  rewrite take_app_add' by (rewrite length_take, length_drop; lia).
  now rewrite take_app_length.
Qed.

Lemma readable_length (b : Buffer.Buffer) :
  Buffer.wf b ->
  Z.of_nat (length (Buffer.readable b)) = Buffer.ReadableBytes b.
Proof.
  intros (H0 & H1 & H2). unfold Buffer.readable, Buffer.ReadableBytes in *.
  unfold Buffer.capacity, vec_size in H2.
  rewrite length_take, length_drop. lia.
Qed.

Lemma readable_Retrieve (k : Z) (b : Buffer.Buffer) :
  Buffer.wf b -> 0 <= k <= Buffer.ReadableBytes b ->
  Buffer.wf (Buffer.Retrieve k b)
  /\ Buffer.readable (Buffer.Retrieve k b)
     = drop (Z.to_nat k) (Buffer.readable b).
Proof.
  intros (H0 & H1 & H2) Hk. unfold Buffer.ReadableBytes in Hk. split.
  - unfold Buffer.wf, Buffer.capacity in *. cbn. lia.
  - unfold Buffer.readable, Buffer.ReadableBytes. cbn.
    rewrite skipn_firstn_comm, drop_drop. f_equal; [lia | f_equal; lia].
Qed.

Lemma compact_readable (b : Buffer.Buffer) :
  Buffer.wf b ->
  Buffer.wf (Buffer.compact b)
  /\ Buffer.readable (Buffer.compact b) = Buffer.readable b.
Proof.
  intros Hwf. pose proof (readable_length b Hwf) as Hlen.
  destruct Hwf as (H0 & H1 & H2). split.
  - unfold Buffer.wf, Buffer.compact, Buffer.capacity, vec_size in *. cbn.
    rewrite length_app, length_drop. unfold Buffer.ReadableBytes in *. lia.
  - unfold Buffer.readable at 1. unfold Buffer.compact, Buffer.ReadableBytes at 1.
    cbn. rewrite Z.sub_0_r, <- Hlen, Nat2Z.id. apply take_app_length.
Qed.

Lemma resize_readable (m : Z) (b : Buffer.Buffer) :
  Buffer.wf b -> Buffer.capacity b <= m ->
  Buffer.wf (Buffer.resize m b)
  /\ Buffer.capacity (Buffer.resize m b) = m
  /\ Buffer.readPos_ (Buffer.resize m b) = Buffer.readPos_ b
  /\ Buffer.writePos_ (Buffer.resize m b) = Buffer.writePos_ b
  /\ Buffer.readable (Buffer.resize m b) = Buffer.readable b.
Proof.
  destruct b as [buf rp wp].
  unfold Buffer.readable, Buffer.ReadableBytes, Buffer.resize, Buffer.wf,
    Buffer.capacity, vec_size.
  cbn. intros (H0 & H1 & H2) Hm.
  assert (Hcap : Z.of_nat (length (buf ++ repeat zero
                                     (Z.to_nat (m - Z.of_nat (length buf)))))
                 = m) by (rewrite length_app, repeat_length; lia).
  repeat split; try lia.
  rewrite drop_app_le by lia.
  rewrite take_app_le by (rewrite length_drop; lia). reflexivity.
Qed.

Lemma EnsureWriteable_readable (n : Z) (b : Buffer.Buffer) :
  Buffer.wf b -> 0 <= n ->
  let b1 := Buffer.EnsureWriteable n b in
  Buffer.wf b1 /\ n <= Buffer.WritableBytes b1
  /\ Buffer.readable b1 = Buffer.readable b.
Proof.
  intros Hwf Hn. cbn zeta. unfold Buffer.EnsureWriteable.
  destruct (Z.leb_spec n (Buffer.WritableBytes b)) as [Hfit | Hno]; [auto |].
  destruct (compact_readable b Hwf) as [Hcw Hcr].
  destruct (Z.leb_spec n (Buffer.WritableBytes (Buffer.compact b)))
    as [Hfit' | Hno']; [auto |].
  unfold Buffer.WritableBytes in Hno'.
  destruct (resize_readable
              (Buffer.writePos_ (Buffer.compact b) + n) (Buffer.compact b))
    as (Rw & Rc & Rr & Rp & Rd); [exact Hcw | lia |].
  split; [exact Rw |]. split; [| now rewrite Rd].
  unfold Buffer.WritableBytes. rewrite Rc, Rp. lia.
Qed.

(** "the readable region byte-equals the concatenation of appends" *)
Lemma readable_Append (data : list ascii) (b : Buffer.Buffer) :
  Buffer.wf b ->
  Buffer.wf (Buffer.Append data b)
  /\ Buffer.readable (Buffer.Append data b) = Buffer.readable b ++ data.
Proof.
  intros Hwf. unfold Buffer.Append.
  assert (Hn : 0 <= vec_size data) by (unfold vec_size; lia).
  destruct (EnsureWriteable_readable (vec_size data) b Hwf Hn)
    as ((W0 & W1 & W2) & Hfit & Hr).
  set (b1 := Buffer.EnsureWriteable (vec_size data) b) in *.
  unfold Buffer.WritableBytes, Buffer.capacity, vec_size in *.
  split.
  - unfold Buffer.wf, Buffer.capacity, vec_size. cbn.
    rewrite !length_app, length_take, length_drop. lia.
  - rewrite <- Hr. unfold Buffer.readable, Buffer.ReadableBytes. cbn.
    replace (Z.to_nat (Buffer.writePos_ b1 + Z.of_nat (length data)
                       - Buffer.readPos_ b1))
      with (Z.to_nat (Buffer.writePos_ b1) + length data
            - Z.to_nat (Buffer.readPos_ b1))%nat by lia.
    replace (Z.to_nat (Buffer.writePos_ b1 + Z.of_nat (length data)))
      with (Z.to_nat (Buffer.writePos_ b1) + length data)%nat by lia.
    rewrite slice_app_data by lia. f_equal. f_equal. lia.
Qed.

(** ** Requests that arrive in pieces *)

Section ReentrancyFacts.

Variable DEFAULT_HTML : list string.
Variable UserVerify : string -> string -> bool -> bool.
Variable fs : HttpResponse.FileSys.

Abbreviation parse := (HttpRequest.parse DEFAULT_HTML UserVerify).
Abbreviation process := (HttpConn.process DEFAULT_HTML UserVerify fs).

(** [parse] in terms of the loop on the readable bytes: it leaves in the
    buffer exactly what the loop left unread. *)
Lemma parse_leaves (b b' : Buffer.Buffer) (r r' : HttpRequest.HttpRequest)
  (ok : bool) :
  Buffer.wf b ->
  parse b r = (ok, r', b') ->
  exists (o : HttpRequest.Outcome) (rest : list ascii),
    HttpRequest.parse_bytes DEFAULT_HTML UserVerify r (Buffer.readable b)
    = (o, r', rest)
    /\ ok = HttpRequest.is_finished o
    /\ Buffer.wf b' /\ Buffer.readable b' = rest.
Proof.
  intros Hwf. unfold HttpRequest.parse.
  destruct (HttpRequest.parse_bytes _ _ r (Buffer.readable b))
    as [[o r0] rest] eqn:E.
  intros H. inversion H; subst. exists o, rest.
  destruct (parse_bytes_suffix _ _ _ _ _ _ _ E) as [pre Hpre].
  pose proof (readable_length b Hwf) as Hlen.
  rewrite Hpre, length_app in Hlen.
  assert (Hk : Buffer.ReadableBytes b - vec_size rest = Z.of_nat (length pre))
    by (unfold vec_size; lia).
  destruct (readable_Retrieve (Buffer.ReadableBytes b - vec_size rest) b Hwf)
    as [Hw Hr]; [lia |].
  split; [reflexivity |]. split; [reflexivity |]. split; [exact Hw |].
  rewrite Hr, Hk, Nat2Z.id, Hpre. apply drop_app_length.
Qed.

Lemma parse_from_bytes (b : Buffer.Buffer) (r r' : HttpRequest.HttpRequest)
  (o : HttpRequest.Outcome) (rest : list ascii) :
  HttpRequest.parse_bytes DEFAULT_HTML UserVerify r (Buffer.readable b)
  = (o, r', rest) ->
  parse b r
  = (HttpRequest.is_finished o, r',
     Buffer.Retrieve (Buffer.ReadableBytes b - vec_size rest) b).
Proof. intros E. unfold HttpRequest.parse. now rewrite E. Qed.

(** [process] starts by [request_.Init()]: what the parser held before
    the call has no part in what the call does. *)
Lemma process_ignores_parser_state (s : HttpConn.Statics)
  (c : HttpConn.HttpConn) (req : HttpRequest.HttpRequest) :
  process s (HttpConn.set_request req c) = process s c.
Proof. destruct c. reflexivity. Qed.

(** C1, as the code has it. The parser keeps its state in the request
    object: when [parse] has returned [false] on a buffer and the one
    call on that buffer with more bytes appended returns [true], then
    calling [parse] again on the same request object, on the buffer the
    first call left with those bytes appended, returns [true] with the
    same parsed request and the same bytes left over. [process],
    however, resets the request object before it calls [parse]: its
    result is the same whatever the parser held. *)
Theorem parse_reentrant_process_resets :
  forall (b b1 bF : Buffer.Buffer) (r r1 rF : HttpRequest.HttpRequest)
         (more : list ascii) (s : HttpConn.Statics) (c : HttpConn.HttpConn)
         (req : HttpRequest.HttpRequest),
    Buffer.wf b ->
    parse b r = (false, r1, b1) ->
    parse (Buffer.Append more b) r = (true, rF, bF) ->
    (exists bF',
        parse (Buffer.Append more b1) r1 = (true, rF, bF')
        /\ Buffer.readable bF' = Buffer.readable bF)
    /\ process s (HttpConn.set_request req c) = process s c.
Proof.
  intros b b1 bF r r1 rF more s c req Hwf H1 HF.
  split; [| apply process_ignores_parser_state].
  destruct (readable_Append more b Hwf) as [Hwa Hra].
  destruct (parse_leaves _ _ _ _ _ Hwf H1) as (o1 & rest1 & E1 & Ho1 & Hw1 & Hr1).
  destruct (parse_leaves _ _ _ _ _ Hwa HF) as (oF & restF & EF & HoF & HwF & HrF).
  rewrite Hra in EF.
  pose proof (parse_bytes_app _ _ _ _ more _ _ _ E1) as Happ.
  destruct oF; try discriminate HoF.
  destruct o1; try discriminate Ho1.
  - destruct (readable_Append more b1 Hw1) as [Hwa1 Hra1].
    rewrite EF in Happ. symmetry in Happ. rewrite <- Hr1, <- Hra1 in Happ.
    eexists. split; [apply (parse_from_bytes _ _ _ _ _ Happ) |].
    pose proof (parse_from_bytes _ _ _ _ _ Happ) as Hp.
    destruct (parse_leaves _ _ _ _ _ Hwa1 Hp) as (o & rest & E & _ & _ & Hr).
    rewrite Hr. rewrite Happ in E. congruence.
  - rewrite EF in Happ. discriminate Happ.
Qed.

End ReentrancyFacts.

Lemma parse_reentrant_process_resets_witness :
  (exists bF',
      HttpRequest.parse default_html nobody
        (Buffer.Append chunk2 (snd first_call)) (snd (fst first_call))
      = (true, snd (fst whole_call), bF')
      /\ Buffer.readable bF' = Buffer.readable (snd whole_call))
  /\ HttpConn.process default_html nobody small_files statics0
       (HttpConn.set_request (snd (fst first_call)) conn_after_read1)
     = HttpConn.process default_html nobody small_files statics0
         conn_after_read1.
Proof.
  apply (parse_reentrant_process_resets default_html nobody small_files
           (Buffer.Append chunk1 Buffer.new_buffer)
           (snd first_call) (snd whole_call)
           fresh_request (snd (fst first_call)) (snd (fst whole_call))
           chunk2 statics0 conn_after_read1 (snd (fst first_call))).
  - vm_compute. repeat split; discriminate.
  - vm_compute. reflexivity.
  - vm_compute. reflexivity.
Defined.

(** C1 as stated fails. The first read brings the request line;
    [process] answers it with a 400 response. The second read brings
    the rest; [process] resets the parser, takes [Host: x] for a request
    line and answers 400 again, the parser back at the request line.
    One call of [parse] on the whole request reaches FINISH with the
    path [/index.html]. *)
Lemma process_discards_partial_request :
  exists (c1 c2 : HttpConn.HttpConn) (rF : HttpRequest.HttpRequest)
         (bF : Buffer.Buffer),
    HttpConn.process default_html nobody small_files statics0 conn_after_read1
    = Ok (true, c1)
    /\ HttpResponse.code_ (HttpConn.response_ c1) = 400
    /\ HttpConn.process default_html nobody small_files statics0
         (HttpConn.set_readBuff
            (Buffer.Append chunk2 (HttpConn.readBuff_ c1)) c1)
       = Ok (true, c2)
    /\ HttpResponse.code_ (HttpConn.response_ c2) = 400
    /\ HttpRequest.state_ (HttpConn.request_ c2) = HttpRequest.REQUEST_LINE
    /\ HttpRequest.parse default_html nobody
         (Buffer.Append (chunk1 ++ chunk2) Buffer.new_buffer) fresh_request
       = (true, rF, bF)
    /\ HttpRequest.state_ rF = HttpRequest.FINISH
    /\ HttpRequest.path_ rF = "/index.html"%string
    /\ HttpConn.request_ c2 <> rF.
Proof.
  eexists _, _, _, _.
  split; [vm_compute; reflexivity |].
  split; [vm_compute; reflexivity |].
  split; [vm_compute; reflexivity |].
  split; [vm_compute; reflexivity |].
  split; [vm_compute; reflexivity |].
  split; [vm_compute; reflexivity |].
  split; [vm_compute; reflexivity |].
  split; [vm_compute; reflexivity |].
  intros H. apply (f_equal HttpRequest.state_) in H. vm_compute in H.
  discriminate H.
Qed.
